(** * parallel_cp: a file copied in parts by concurrent workers

    Shallow embedding of [parallel_cp.py] and the properties of its
    partition planner, copy worker, progress pipe, coordinator and merger. *)

From Stdlib Require Import ZArith List Lia Bool.
From Stdlib Require Import Strings.Byte.
From Stdlib Require Import Floats.SpecFloat.
From stdpp Require Import gmap strings list pretty sorting.

Local Open Scope Z_scope.

(** ** Python floats

    [float] is IEEE 754 binary64.  The operations are the ones of the
    executable specification [SpecFloat] of the standard library, at
    [prec = 53] and [emax = 1024], all of them rounding to nearest, ties
    to even.  [None] stands for a raised exception. *)
Module PyFloat.

Definition prec : Z := 53.
Definition emax : Z := 1024.

Abbreviation float := spec_float.

Definition is_finite (x : float) : bool :=
  match x with
  | S754_zero _ | S754_finite _ _ _ => true
  | _ => false
  end.

(** [float(n)] for an integer [n]: the nearest double, OverflowError
    when [n] is too large for one. *)
Definition of_int (n : Z) : option float :=
  let x := binary_normalize prec emax n 0 false in
  if is_finite x then Some x else None.

(** [x / y]: ZeroDivisionError on a zero divisor. *)
Definition div (x y : float) : option float :=
  match y with
  | S754_zero _ => None
  | _ => Some (SFdiv prec emax x y)
  end.

Definition mul (x y : float) : float := SFmul prec emax x y.

(** [int(x)]: truncation toward zero; OverflowError on an infinity,
    ValueError on a NaN. *)
Definition to_int (x : float) : option Z :=
  match x with
  | S754_zero _ => Some 0
  | S754_finite s m e =>
      let a := match e with
               | Zneg p => Z.shiftr (Zpos m) (Zpos p)
               | _ => Z.shiftl (Zpos m) e
               end in
      Some (if s then - a else a)
  | _ => None
  end.

End PyFloat.

(** ** The partition planner *)

(** [getpos = lambda pnum, tprocs, fsize: int(float(pnum)/tprocs * fsize)].
    The integer operands [tprocs] and [fsize] are converted to floats by
    the mixed-mode arithmetic. *)
Definition getpos (pnum tprocs fsize : Z) : option Z :=
  a ← PyFloat.of_int pnum;
  t ← PyFloat.of_int tprocs;
  q ← PyFloat.div a t;
  f ← PyFloat.of_int fsize;
  PyFloat.to_int (PyFloat.mul q f).

(** [get_copy_offsets]: (start, end, length) of the slice of a worker. *)
Definition get_copy_offsets (proc_num total_procs filesize : Z)
  : option (Z * Z * Z) :=
  start_pos ← getpos proc_num total_procs filesize;
  end_pos ← getpos (proc_num + 1) total_procs filesize;
  let read_len := end_pos - start_pos in
  Some (start_pos, end_pos, read_len).

(** The boundary [k] of the plan, 0 where [getpos] raises. *)
Definition boundary (total_procs filesize k : Z) : Z :=
  default 0 (getpos k total_procs filesize).

(** ** The progress pipe

    [Pipe()] is a duplex pipe, one end for the worker ([pipes[0]], the
    [output] of [partial_copy]) and one for the coordinator ([pipes[1]],
    the [pipe] of a [Child]).  Each direction is a queue, delivered in the
    order sent: [requests] holds what the coordinator sent and the worker
    has not received yet, [reports] what the worker sent and the
    coordinator has not received yet. *)
Record Pipe : Type := mkPipe {
  requests : list string;
  reports : list Z
}.

Module Conn.

(** The worker's end. [recv] on an empty queue would block: [None]. *)
Definition child_poll (p : Pipe) : bool :=
  match requests p with [] => false | _ :: _ => true end.

Definition child_recv (p : Pipe) : option (string * Pipe) :=
  match requests p with
  | [] => None
  | m :: q => Some (m, mkPipe q (reports p))
  end.

Definition child_send (v : Z) (p : Pipe) : Pipe :=
  mkPipe (requests p) (reports p ++ [v]).

(** The coordinator's end. *)
Definition parent_poll (p : Pipe) : bool :=
  match reports p with [] => false | _ :: _ => true end.

Definition parent_recv (p : Pipe) : option (Z * Pipe) :=
  match reports p with
  | [] => None
  | v :: q => Some (v, mkPipe (requests p) q)
  end.

Definition parent_send (m : string) (p : Pipe) : Pipe :=
  mkPipe (requests p ++ [m]) (reports p).

End Conn.

(** ** The copy worker *)

(** The source file object: its bytes and the read position. *)
Record InFile : Type := mkInFile {
  content : list byte;
  pos : Z
}.

(** [in_fh.read(n)], for [0 <= n]: the next [n] bytes, fewer at the end of
    the file; the position moves past what was read. *)
Definition read (f : InFile) (n : Z) : list byte * InFile :=
  let data := take (Z.to_nat n) (drop (Z.to_nat (pos f)) (content f)) in
  (data, mkInFile (content f) (pos f + Z.of_nat (length data))).

(** The variables of the copy loop. [out_fh] is the sequence of the
    [write] calls made so far on the partition file, whose content is
    their concatenation. *)
Record Worker : Type := mkWorker {
  bytes_read : Z;
  in_fh : InFile;
  out_fh : list (list byte)
}.

Definition file_content (w : Worker) : list byte := concat (out_fh w).

(** [out_fh.write(in_fh.read(n)); bytes_read += n] *)
Definition copy_block (n : Z) (w : Worker) : Worker :=
  let '(data, f) := read (in_fh w) n in
  mkWorker (bytes_read w + n) f (out_fh w ++ [data]).

Definition default_block_size : Z := 1048576.

(** The answer to a progress request, at the head of the loop body:
    [if output.poll(): output.recv(); output.send(bytes_read)]. *)
Definition answer_request (output : Pipe) (w : Worker) : option Pipe :=
  if Conn.child_poll output then
    '(_, output1) ← Conn.child_recv output;
    Some (Conn.child_send (bytes_read w) output1)
  else Some output.

(** One run of the body of [while bytes_read < read_len]. [None]: the
    worker is blocked in [recv]. *)
Definition loop_body (block_size read_len : Z) (output : Pipe) (w : Worker)
  : option (Pipe * Worker) :=
  output1 ← answer_request output w;
  let bytes_remaining := read_len - bytes_read w in
  if bytes_remaining >? block_size then
    Some (output1, copy_block block_size w)
  else
    Some (output1, copy_block bytes_remaining w).

(** How a call ends: it returns, it is blocked for ever in a [recv] (in
    the state given), or it raises an exception. *)
Inductive outcome (A : Type) : Type :=
| Returned (a : A)
| Blocked (a : A)
| Raised.
Arguments Returned {A} a.
Arguments Blocked {A} a.
Arguments Raised {A}.

(** The coordinator runs beside the worker: [env k] is what it did to the
    pipe before the worker's [k]-th test of the loop condition.  The loop
    is run for at most [fuel] iterations; [None] when they do not
    suffice. *)
Fixpoint copy_loop (fuel : nat) (block_size read_len : Z)
    (env : nat → Pipe → Pipe) (k : nat) (output : Pipe) (w : Worker)
  : option (outcome (Pipe * Worker)) :=
  let output := env k output in
  if bytes_read w <? read_len then
    match fuel with
    | O => None
    | S fuel' =>
        match loop_body block_size read_len output w with
        | Some (output1, w1) =>
            copy_loop fuel' block_size read_len env (S k) output1 w1
        | None => Some (Blocked (output, w))
        end
    end
  else Some (Returned (output, w)).

(** [partial_copy] once both files are open: [src] is the content of
    [path_from].  A seek to a negative offset raises IOError, and so does
    a failed computation of the offsets. *)
Definition copy_slice (fuel : nat) (src : list byte)
    (size_from proc_num total_procs : Z)
    (env : nat → Pipe → Pipe) (output : Pipe) (block_size : Z)
  : option (outcome (Pipe * Worker)) :=
  match get_copy_offsets proc_num total_procs size_from with
  | None => Some Raised
  | Some (start_pos, end_pos, read_len) =>
      if start_pos <? 0 then Some Raised
      else
        copy_loop fuel block_size read_len env 0 output
          (mkWorker 0 (mkInFile src start_pos) [])
  end.

(** What the loop keeps true of its variables: the partition file holds
    the first [bytes_read] bytes of the source from [start_pos] on, as far
    as the source goes, and the source is read on from there. *)
Definition copy_inv (src : list byte) (start_pos : Z) (w : Worker) : Prop :=
  content (in_fh w) = src
  ∧ 0 ≤ bytes_read w
  ∧ file_content w
    = take (Z.to_nat (bytes_read w)) (drop (Z.to_nat start_pos) src)
  ∧ pos (in_fh w) = start_pos + Z.of_nat (length (file_content w)).

(** The bytes of [src] at the offsets [a] to [b], [b] excluded. *)
Definition slice (src : list byte) (a b : Z) : list byte :=
  take (Z.to_nat (b - a)) (drop (Z.to_nat a) src).

(** The sizes of the blocks written by a worker: none is empty or larger
    than [block_size], and all but the last are of that size. *)
Definition block_sizes_ok (block_size : Z) (blocks : list (list byte))
  : Prop :=
  ∀ (i : nat) (b : list byte), blocks !! i = Some b →
    0 < Z.of_nat (length b) ≤ block_size
    ∧ ((S i < length blocks)%nat → Z.of_nat (length b) = block_size).

(** No activity of the coordinator on the pipe. *)
Definition quiet : nat → Pipe → Pipe := λ _ p, p.

(** ** The coordinator's handle of a worker *)

(** [class Child].  Its attributes [proc] and [pipe] refer to objects
    shared with the worker, the process and the coordinator's end of the
    pipe; [update] is given their state at the time of the call. *)
Record Child : Type := mkChild {
  bytes_copied : Z;
  bytes_to_copy : Z
}.

(** [Child.update]; [alive] is [self.proc.is_alive()]. *)
Definition update (alive : bool) (pipe : Pipe) (self : Child)
  : option (Pipe * Child) :=
  if negb alive then
    Some (pipe, mkChild (bytes_to_copy self) (bytes_to_copy self))
  else
    '(pipe1, self1) ←
      (if Conn.parent_poll pipe then
         '(v, pipe1) ← Conn.parent_recv pipe;
         Some (pipe1, mkChild v (bytes_to_copy self))
       else Some (pipe, self));
    Some (Conn.parent_send "" pipe1, self1).

(** The body of the [while active_children()] loop of [show_progress]:
    every child is updated, with the state of its process and pipe at
    that moment, and the cached counts are summed; the sum goes to the
    progress bar. *)
Fixpoint tick (chans : list (bool * Pipe * Child)) (current_sum : Z)
  : option (list (Pipe * Child) * Z) :=
  match chans with
  | [] => Some ([], current_sum)
  | (alive, pipe, c) :: rest =>
      '(pipe1, c1) ← update alive pipe c;
      '(done, total) ← tick rest (current_sum + bytes_copied c1);
      Some ((pipe1, c1) :: done, total)
  end.

(** ** A worker, its pipe and its handle, running together *)

(** The state of the worker process. [Exited true] is a normal exit,
    [Exited false] a death by an uncaught exception. *)
Inductive proc_state : Type :=
| Running (w : Worker)
| Exited (normal : bool).

Definition is_alive (p : proc_state) : bool :=
  match p with Running _ => true | Exited _ => false end.

Record Channel : Type := mkChannel {
  proc : proc_state;
  pipe : Pipe;
  child : Child
}.

(** What can happen next: the worker runs the loop body once, leaves the
    loop and exits, or dies of an I/O error; the coordinator updates the
    handle. *)
Inductive event : Type := Iterate | Exit | Crash | Update.

Section Interleaving.

Variables block_size read_len : Z.

Definition step (e : event) (s : Channel) : option Channel :=
  match e, proc s with
  | Iterate, Running w =>
      if bytes_read w <? read_len then
        '(pipe1, w1) ← loop_body block_size read_len (pipe s) w;
        Some (mkChannel (Running w1) pipe1 (child s))
      else None
  | Exit, Running w =>
      if bytes_read w <? read_len then None
      else Some (mkChannel (Exited true) (pipe s) (child s))
  | Crash, Running w => Some (mkChannel (Exited false) (pipe s) (child s))
  | Update, p =>
      '(pipe1, c1) ← update (is_alive p) (pipe s) (child s);
      Some (mkChannel p pipe1 c1)
  | _, _ => None
  end.

Fixpoint run (es : list event) (s : Channel) : option Channel :=
  match es with
  | [] => Some s
  | e :: es' => s1 ← step e s; run es' s1
  end.

End Interleaving.

(** The channel of worker [proc_num] as [spawn_children] sets it up and
    [partial_copy] starts on it, the source file holding [src]. *)
Definition spawn (src : list byte) (start_pos read_len : Z) : Channel :=
  mkChannel (Running (mkWorker 0 (mkInFile src start_pos) []))
            (mkPipe [] []) (mkChild 0 read_len).

(** The unanswered requests of a channel. *)
Definition outstanding (s : Channel) : nat := length (requests (pipe s)).

(** ** Files *)

(** The file system: the content of every regular file, by the path
    under which the program opens it.  Every file has one name here:
    links are outside the model, and two paths are the same file when
    they are the same string, which is so of the [plain_name]s of one
    directory.  Every file that exists may be read and written. *)
Abbreviation FS := (gmap string (list byte)).

(** A path with no directory part, the name of a file of the working
    directory. *)
Definition plain_name (path : string) : Prop :=
  String.index 0 "/" path = None
  ∧ path ≠ ""%string ∧ path ≠ "."%string ∧ path ≠ ".."%string.

(** What the program meets on the machine it runs on, and cannot tell
    from its arguments.  [can_create path]: a file that is missing at
    [path] can be created there, its directory exists and nothing is in
    the way.  [can_start i]: the pipe and the process of worker [i] can
    be made, descriptors and processes are left for them. *)
Record Host : Type := mkHost {
  can_create : string → bool;
  can_start : Z → bool
}.

(** A machine on which files are created and workers started without
    fail. *)
Definition unlimited : Host := mkHost (λ _, true) (λ _, true).

(** ["%s.%s" % (path_to, proc_num)], the name of a partition file. *)
Definition part_path (path_to : string) (proc_num : Z) : string :=
  path_to +:+ "." +:+ pretty proc_num.

(** [open(path, 'wb')]: a file that is there is truncated, one that is
    missing is created, empty; IOError, here [None], when it cannot be
    created. *)
Definition open_write (host : Host) (path : string) (fs : FS) : option FS :=
  match fs !! path with
  | Some _ => Some (<[path := []]> fs)
  | None => if can_create host path then Some (<[path := []]> fs) else None
  end.

(** [partial_copy], the target of a worker process.  [open(path_from)]
    raises IOError when the source is missing, and nothing is created
    then; [open(..., 'wb')] comes next, and raises when the partition
    file cannot be created.  The source is read as it is once both files
    are open: a source that is itself the partition file has been
    truncated by then, every read of it returns nothing, and nothing is
    written.  The partition file receives what the loop writes.  Files
    are bytes, as they are on POSIX also when opened without ['b']. *)
Definition partial_copy (host : Host) (fuel : nat) (env : nat → Pipe → Pipe)
    (path_from path_to : string) (size_from proc_num total_procs : Z)
    (output : Pipe) (block_size : Z) (fs : FS)
  : option (FS * outcome (Pipe * Worker)) :=
  let out_path := part_path path_to proc_num in
  match fs !! path_from with
  | None => Some (fs, Raised)
  | Some _ =>
      match open_write host out_path fs with
      | None => Some (fs, Raised)
      | Some fs0 =>
          let src := default [] (fs0 !! path_from) in
          r ← copy_slice fuel src size_from proc_num total_procs env output
                block_size;
          match r with
          | Returned (p, w) | Blocked (p, w) =>
              Some (<[out_path := file_content w]> fs0, r)
          | Raised => Some (fs0, r)
          end
      end
  end.

(** [range(a, b)] *)
Definition range (a b : Z) : list Z := seqZ a (b - a).

(** What the coordinator cannot see of its workers: what happens on the
    pipe of each while it copies, and a bound on the iterations run. *)
Record Schedule : Type := mkSchedule {
  fuel : nat;
  env : Z → nat → Pipe → Pipe
}.

(** A worker process as [spawn_children] starts it: the arguments of its
    call of [partial_copy], the pipe apart. *)
Record Job : Type := mkJob {
  job_from : string;
  job_to : string;
  job_size : Z;
  job_num : Z;
  job_parts : Z
}.

(** [spawn_children].  For each part the pipe and the process are made
    and the process is started, OSError when that cannot be done; then
    the handle is made, from the planned length of the part.  A worker
    runs on its own once it is started, and [spawn_children] does not
    wait for it: what it returns is the handles, and with them here the
    workers that it has started. *)
Fixpoint spawn_children_from (host : Host) (procs : list Z)
    (source_file destination_file : string) (parts source_size : Z)
    (started : list Job) (children : list Child)
  : list Job * outcome (list Child) :=
  match procs with
  | [] => (started, Returned children)
  | i :: rest =>
      if can_start host i then
        let p := mkJob source_file destination_file source_size i parts in
        match get_copy_offsets i parts source_size with
        | None => (started ++ [p], Raised)
        | Some (_, _, read_len) =>
            spawn_children_from host rest source_file destination_file
              parts source_size (started ++ [p])
              (children ++ [mkChild 0 read_len])
        end
      else (started, Raised)
  end.

Definition spawn_children (host : Host)
    (source_file destination_file : string) (parts source_size : Z)
  : list Job * outcome (list Child) :=
  spawn_children_from host (range 0 parts) source_file destination_file
    parts source_size [] [].

(** The workers that were started, run to their end: what has happened
    to the files when [show_progress] returns, which it does once
    [active_children()] is empty.  Each worker writes one file, its own,
    and the workers are run one after the other here, in the order of
    the list.  How a worker ends is not seen by the coordinator. *)
Fixpoint run_workers (host : Host) (sch : Schedule) (jobs : list Job)
    (fs : FS) : option FS :=
  match jobs with
  | [] => Some fs
  | j :: rest =>
      '(fs1, _) ← partial_copy host (fuel sch) (env sch (job_num j))
                    (job_from j) (job_to j) (job_size j) (job_num j)
                    (job_parts j) (mkPipe [] []) default_block_size fs;
      run_workers host sch rest fs1
  end.

(** [open(path, 'ab')]: the file is created, empty, when it is missing;
    IOError, here [None], when it cannot be created. *)
Definition open_append (host : Host) (path : string) (fs : FS) : option FS :=
  match fs !! path with
  | Some _ => Some fs
  | None => if can_create host path then Some (<[path := []]> fs) else None
  end.

(** [os.rename(src, dst)], as on POSIX: a file at [dst] is replaced;
    OSError when [src] is missing.  The two are in one directory here,
    which is there when [src] is. *)
Definition rename (src dst : string) (fs : FS) : FS * outcome unit :=
  match fs !! src with
  | None => (fs, Raised)
  | Some data => (<[dst := data]> (delete src fs), Returned tt)
  end.

(** The loop of [merge_files] over the slices [slices]: each is read
    whole (IOError when missing), appended to slice 0 and removed. *)
Fixpoint append_slices (dest_file : string) (slices : list Z) (fs : FS)
  : FS * outcome unit :=
  match slices with
  | [] => (fs, Returned tt)
  | i :: rest =>
      let current_file := part_path dest_file i in
      match fs !! current_file with
      | None => (fs, Raised)
      | Some data =>
          let fs1 := alter (λ old, old ++ data) (dest_file +:+ ".0") fs in
          append_slices dest_file rest (delete current_file fs1)
      end
  end.

(** [merge_files] *)
Definition merge_files (host : Host) (dest_file : string) (parts : Z)
    (fs : FS) : FS * outcome unit :=
  match open_append host (dest_file +:+ ".0") fs with
  | None => (fs, Raised)
  | Some fs0 =>
      match append_slices dest_file (range 1 parts) fs0 with
      | (fs1, Returned _) => rename (dest_file +:+ ".0") dest_file fs1
      | (fs1, r) => (fs1, r)
      end
  end.

(** [main], after the arguments are parsed: [destination_file] is not a
    directory then.  [os.path.getsize] raises OSError when the source is
    missing.  The workers run while [show_progress] waits for them; the
    progress bar is outside the model, [show_progress] touches no file.
    When [spawn_children] raises, the workers it has started run on all
    the same, and there is no merge. *)
Definition main (host : Host) (sch : Schedule)
    (source_file destination_file : string) (parts : Z) (fs : FS)
  : option (FS * outcome unit) :=
  match fs !! source_file with
  | None => Some (fs, Raised)
  | Some src =>
      let source_size := Z.of_nat (length src) in
      let '(jobs, r) := spawn_children host source_file destination_file
                          parts source_size in
      fs1 ← run_workers host sch jobs fs;
      match r with
      | Returned children => Some (merge_files host destination_file parts fs1)
      | _ => Some (fs1, Raised)
      end
  end.

(** The updates of the handle among the events of a run. *)
Fixpoint updates (es : list event) : nat :=
  match es with
  | [] => O
  | Update :: es' => S (updates es')
  | _ :: es' => updates es'
  end.

(** What holds of a channel at every point of every run, for a worker
    of planned length [read_len]: the handle was made for that length and
    its cached count is within it; while the worker runs, its count is
    within the planned length, and the reports not yet received are in
    the order of their values, each at least the cached count, at most
    the worker's count and less than the planned length. *)
Definition chan_inv (read_len : Z) (s : Channel) : Prop :=
  bytes_to_copy (child s) = read_len
  ∧ 0 ≤ bytes_copied (child s) ≤ read_len
  ∧ match proc s with
    | Running w =>
        0 ≤ bytes_read w ≤ read_len
        ∧ bytes_copied (child s) ≤ bytes_read w
        ∧ StronglySorted Z.le (reports (pipe s))
        ∧ Forall (λ v, bytes_copied (child s) ≤ v ≤ bytes_read w
                       ∧ v < read_len) (reports (pipe s))
    | Exited _ => True
    end.

(** ** Rounding, as the proofs about the planner see it *)

(** Position of the fraction [R / D], for [0 <= R < D], with respect to
    one half. *)
Definition loc_of (R D : Z) : location :=
  if R =? 0 then loc_Exact else loc_Inexact (2 * R ?= D).

(** A shift record that stands for the quotient [P / D]: its mantissa is
    the integer part, its two bits place the fractional part. *)
Definition represents (P D : Z) (mrs : shr_record) : Prop :=
  0 < D ∧ 0 ≤ P ∧ shr_m mrs = P / D
  ∧ loc_of_shr_record mrs = loc_of (P mod D) D.

(** [P / D] rounded to the nearest integer, ties to even. *)
Definition rne (P D : Z) : Z :=
  round_nearest_even (P / D) (loc_of (P mod D) D).

(** The floats met by the planner, zero apart: the positive normal
    numbers with an exponent within [B]. *)
Definition nfloat (B : Z) (x : spec_float) : Prop :=
  match x with
  | S754_finite false m e => 2 ^ 52 ≤ Zpos m < 2 ^ 53 ∧ - B ≤ e ≤ B
  | _ => False
  end.

(** The order of such floats and zero. *)
Definition fle (x y : spec_float) : Prop :=
  match x, y with
  | S754_zero _, (S754_zero _ | S754_finite false _ _) => True
  | S754_finite false m e, S754_finite false m' e' =>
      e < e' ∨ (e = e' ∧ Zpos m ≤ Zpos m')
  | _, _ => False
  end.

(** A quotient [P / D] of [d] digits, scaled by [2 ^ ex], rounded to a
    double. *)
Definition round_result (P D ex d : Z) : spec_float :=
  if rne P (D * 2 ^ (d - 53)) <? 2 ^ 53
  then S754_finite false (Z.to_pos (rne P (D * 2 ^ (d - 53)))) (ex + d - 53)
  else S754_finite false (Z.to_pos (2 ^ 52)) (ex + d - 52).

(** The digits of the quotient of two mantissas of 53 digits, the
    dividend moved up by 53 digits, and those of their product. *)
Definition div_digits (mx my : positive) : Z :=
  if Zpos mx <? Zpos my then 53 else 54.

Definition mul_digits (mx my : positive) : Z :=
  if Zpos mx * Zpos my <? 2 ^ 105 then 105 else 106.

(** The integer part of a positive float. *)
Definition trunc (m : positive) (e : Z) : Z :=
  if e <? 0 then Zpos m / 2 ^ (- e) else Zpos m * 2 ^ e.

(** ** Properties of the partition planner *)

(** *** Rounding to a double

    What [SpecFloat] computes, in the range of the normal numbers and
    without overflow, told in integers. *)

Lemma fexp_normal e : -1021 ≤ e → fexp 53 1024 e = e - 53.
Proof. intros. unfold fexp, emin. lia. Qed.

Lemma digits2_pos_bounds m :
  2 ^ (Zpos (digits2_pos m) - 1) ≤ Zpos m < 2 ^ Zpos (digits2_pos m).
Proof.
  induction m as [m IH|m IH|]; simpl digits2_pos.
  - rewrite Pos2Z.inj_succ. replace (Z.succ (Z.pos (digits2_pos m)) - 1) with (Z.pos (digits2_pos m)) by lia.
    rewrite Z.pow_succ_r by lia.
    replace (2 ^ Z.pos (digits2_pos m)) with (2 * 2 ^ (Z.pos (digits2_pos m) - 1)) in *
      by (rewrite <- Z.pow_succ_r by lia; f_equal; lia).
    lia.
  - rewrite Pos2Z.inj_succ. replace (Z.succ (Z.pos (digits2_pos m)) - 1) with (Z.pos (digits2_pos m)) by lia.
    rewrite Z.pow_succ_r by lia.
    replace (2 ^ Z.pos (digits2_pos m)) with (2 * 2 ^ (Z.pos (digits2_pos m) - 1)) in *
      by (rewrite <- Z.pow_succ_r by lia; f_equal; lia).
    lia.
  - simpl. lia.
Qed.

(** The number of digits is fixed by the powers of two around. *)
Lemma digits2_pos_unique (m : positive) (d : Z) :
  2 ^ (d - 1) ≤ Zpos m < 2 ^ d → Zpos (digits2_pos m) = d.
Proof.
  intros [Hlo Hhi]. pose proof (digits2_pos_bounds m) as [Hlo' Hhi'].
  set (k := Zpos (digits2_pos m)) in *.
  assert (0 < k) by (unfold k; lia).
  assert (0 < d).
  { destruct (Z.ltb_spec 0 d) as [|Hd]; [done|].
    assert (2 ^ d ≤ 1); [|lia].
    destruct (Z.eq_dec d 0) as [->|]; [done|].
    rewrite Z.pow_neg_r by lia. lia. }
  destruct (Z.lt_trichotomy k d) as [Hlt|[Heq|Hgt]]; [|done|].
  - assert (2 ^ k ≤ 2 ^ (d - 1)) by (apply Z.pow_le_mono_r; lia). lia.
  - assert (2 ^ d ≤ 2 ^ (k - 1)) by (apply Z.pow_le_mono_r; lia). lia.
Qed.

Lemma iter_pos_nat {A} (f : A → A) (n : positive) (x : A) :
  SpecFloat.iter_pos f n x = Nat.iter (Pos.to_nat n) f x.
Proof.
  revert x. induction n as [n IH|n IH|]; intros x; cbn [SpecFloat.iter_pos].
  - rewrite !IH, Pos2Nat.inj_xI.
    replace (S (2 * Pos.to_nat n)) with (Pos.to_nat n + S (Pos.to_nat n))%nat by lia.
    rewrite Nat.iter_add, Nat.iter_succ_r. reflexivity.
  - rewrite !IH, Pos2Nat.inj_xO.
    replace (2 * Pos.to_nat n)%nat with (Pos.to_nat n + Pos.to_nat n)%nat by lia.
    rewrite Nat.iter_add. reflexivity.
  - reflexivity.
Qed.

Lemma loc_of_record_of_loc (m : Z) (l : location) :
  loc_of_shr_record (shr_record_of_loc m l) = l.
Proof. by destruct l as [|[]]. Qed.

Lemma shr_1_represents (P D : Z) (mrs : shr_record) :
  represents P D mrs → represents P (2 * D) (shr_1 mrs).
Proof.
  intros (HD & HP & Hm & Hl).
  assert (HR : 0 ≤ P mod D < D) by (apply Z.mod_pos_bound; lia).
  assert (Hq : 0 ≤ P / D) by (apply Z.div_pos; lia).
  assert (Hdiv : P / (2 * D) = P / D / 2).
  { rewrite (Z.mul_comm 2 D). by rewrite Z.div_div by lia. }
  assert (Hmod : P mod (2 * D) = P mod D + D * ((P / D) mod 2)).
  { rewrite (Z.mul_comm 2 D). apply Z.rem_mul_r; lia. }
  destruct mrs as [m r s]. simpl in Hm, Hl.
  unfold represents. split; [lia|]. split; [done|].
  rewrite Hdiv, Hmod, <- Hm.
  assert (Hs : r || s = negb (P mod D =? 0)).
  { unfold loc_of in Hl. destruct (P mod D =? 0); destruct r, s; simpl in *; congruence. }
  unfold loc_of.
  destruct m as [|[p|p|]|p]; simpl shr_1; cbn [shr_m loc_of_shr_record]; try lia.
  - (* 0 *) rewrite Z.mod_0_l by lia. rewrite Z.mul_0_r, Z.add_0_r.
    split; [done|]. rewrite Hs.
    destruct (Z.eqb_spec (P mod D) 0); simpl; [done|].
    assert (2 * (P mod D) < 2 * D) by lia.
    by rewrite (proj2 (Z.compare_lt_iff _ _)).
  - (* odd *) 
    assert (Z.pos p~1 mod 2 = 1) as ->
      by (symmetry; apply (Z.mod_unique _ _ (Z.pos p)); lia).
    split. { rewrite Pos2Z.inj_xI. apply Z.div_unique with 1; lia. }
    rewrite Hs.
    destruct (Z.eqb_spec (P mod D + D * 1) 0); [lia|].
    destruct (Z.eqb_spec (P mod D) 0) as [E|E]; simpl.
    + rewrite E. by rewrite (proj2 (Z.compare_eq_iff _ _)) by lia.
    + by rewrite (proj2 (Z.compare_gt_iff _ _)) by lia.
  - (* even *)
    assert (Z.pos p~0 mod 2 = 0) as ->
      by (symmetry; apply (Z.mod_unique _ _ (Z.pos p)); lia).
    split. { rewrite Pos2Z.inj_xO. apply Z.div_unique with 0; lia. }
    rewrite Z.mul_0_r, Z.add_0_r. rewrite Hs.
    destruct (Z.eqb_spec (P mod D) 0); simpl; [done|].
    by rewrite (proj2 (Z.compare_lt_iff _ _)) by lia.
  - (* 1 *)
    change (1 mod 2) with 1. split; [done|]. rewrite Hs.
    destruct (Z.eqb_spec (P mod D + D * 1) 0); [lia|].
    destruct (Z.eqb_spec (P mod D) 0) as [E|E]; simpl.
    + rewrite E. by rewrite (proj2 (Z.compare_eq_iff _ _)) by lia.
    + by rewrite (proj2 (Z.compare_gt_iff _ _)) by lia.
Qed.

Lemma shr_iter_represents (P D : Z) (mrs : shr_record) (n : nat) :
  represents P D mrs →
  represents P (D * 2 ^ Z.of_nat n) (Nat.iter n shr_1 mrs).
Proof.
  intros H. induction n as [|n IH].
  - simpl. by rewrite Z.mul_1_r.
  - rewrite Nat2Z.inj_succ, Z.pow_succ_r by lia. simpl.
    replace (D * (2 * 2 ^ Z.of_nat n)) with (2 * (D * 2 ^ Z.of_nat n)) by lia.
    by apply shr_1_represents.
Qed.

Lemma rne_cases (P D : Z) :
  0 < D → 0 ≤ P →
  (2 * (P mod D) < D ∧ rne P D = P / D)
  ∨ (2 * (P mod D) = D ∧ rne P D = (if Z.even (P / D) then P / D else P / D + 1))
  ∨ (2 * (P mod D) > D ∧ rne P D = P / D + 1).
Proof.
  intros HD HP.
  assert (HR : 0 ≤ P mod D < D) by (apply Z.mod_pos_bound; lia).
  unfold rne, loc_of, round_nearest_even.
  destruct (Z.eqb_spec (P mod D) 0) as [E|E].
  - left. split; [lia|done].
  - destruct (Z.compare_spec (2 * (P mod D)) D).
    + right; left. done.
    + left. done.
    + right; right. split; [lia|done].
Qed.

Lemma rne_bounds (P D : Z) :
  0 < D → 0 ≤ P → P / D ≤ rne P D ≤ P / D + 1.
Proof.
  intros HD HP.
  destruct (rne_cases P D HD HP) as [[_ ->]|[[_ ->]|[_ ->]]]; try lia.
  destruct (Z.even (P / D)); lia.
Qed.

Lemma rne_exact (P D : Z) : P mod D = 0 → rne P D = P / D.
Proof. intros H. unfold rne, loc_of. by rewrite H. Qed.

Lemma rne_mul (K D : Z) : 0 < D → rne (K * D) D = K.
Proof.
  intros HD. rewrite rne_exact by (apply Z.mod_mul; lia).
  apply Z.div_mul; lia.
Qed.

Lemma rne_mono (P D P' D' : Z) :
  0 < D → 0 < D' → 0 ≤ P → 0 ≤ P' → P * D' ≤ P' * D →
  rne P D ≤ rne P' D'.
Proof.
  intros HD HD' HP HP' Hle.
  pose proof (Z.div_mod P D ltac:(lia)) as E.
  pose proof (Z.div_mod P' D' ltac:(lia)) as E'.
  assert (HR : 0 ≤ P mod D < D) by (apply Z.mod_pos_bound; lia).
  assert (HR' : 0 ≤ P' mod D' < D') by (apply Z.mod_pos_bound; lia).
  pose proof (rne_bounds P D HD HP) as B.
  pose proof (rne_bounds P' D' HD' HP') as B'.
  pose proof (rne_cases P D HD HP) as C.
  pose proof (rne_cases P' D' HD' HP') as C'.
  revert E E' HR HR' B B' C C'.
  generalize (rne P D) (rne P' D') (P / D) (P mod D) (P' / D') (P' mod D').
  intros r r' m R m' R' E E' HR HR' B B' C C'.
  assert (Hm : m ≤ m').
  { destruct (Z.le_gt_cases m m') as [|Hgt]; [done|]. exfalso.
    assert (D * D' * (m' + 1) ≤ D * D' * m)
      by (apply Z.mul_le_mono_nonneg_l; nia).
    assert (R' * D < D' * D) by (apply Z.mul_lt_mono_pos_r; lia).
    assert (0 ≤ R * D') by nia.
    nia. }
  destruct (Z.eq_dec m m') as [<-|Nm]; [|lia].
  assert (HRR : R * D' ≤ R' * D) by nia.
  destruct C as [[C ->]|[[C ->]|[C ->]]];
    destruct C' as [[C' ->]|[[C' ->]|[C' ->]]];
    try (destruct (Z.even m)); try lia; exfalso; nia.
Qed.

Lemma Zdigits2_unique (m d : Z) :
  0 < m → 2 ^ (d - 1) ≤ m < 2 ^ d → Zdigits2 m = d.
Proof.
  intros Hm H. destruct m as [|p|p]; try lia.
  simpl. by apply digits2_pos_unique.
Qed.

Lemma pow2_pos (k : Z) : 0 ≤ k → 0 < 2 ^ k.
Proof. intros. apply Z.pow_pos_nonneg; lia. Qed.

(** The first shift of [binary_round_aux], on a mantissa of [d >= 53]
    digits in the normal range: [d - 53] digits are shifted out. *)
Lemma shr_fexp_represents (P D mx ex : Z) (lx : location) (d : Z) :
  0 < D → 0 ≤ P → mx = P / D → lx = loc_of (P mod D) D →
  2 ^ (d - 1) ≤ mx < 2 ^ d → 53 ≤ d → -1074 ≤ ex + d - 53 →
  ∃ mrs, shr_fexp 53 1024 mx ex lx = (mrs, ex + d - 53)
         ∧ represents P (D * 2 ^ (d - 53)) mrs.
Proof.
  intros HD HP Hmx Hlx Hd H53 Hex.
  assert (Hpos : 0 < mx).
  { pose proof (pow2_pos (d - 1) ltac:(lia)). lia. }
  assert (Hrep : represents P D (shr_record_of_loc mx lx)).
  { unfold represents. rewrite loc_of_record_of_loc.
    repeat split; try done. by destruct lx as [|[]]. }
  unfold shr_fexp. rewrite (Zdigits2_unique mx d Hpos Hd).
  unfold fexp, emin.
  replace (Z.max (d + ex - 53) (3 - 1024 - 53)) with (d + ex - 53) by lia.
  replace (d + ex - 53 - ex) with (d - 53) by lia.
  destruct (d - 53) as [|k|k] eqn:Ek; try lia.
  - exists (shr_record_of_loc mx lx). simpl. split.
    + f_equal. lia.
    + by rewrite Z.mul_1_r.
  - exists (SpecFloat.iter_pos shr_1 k (shr_record_of_loc mx lx)).
    unfold shr. split.
    + f_equal. lia.
    + rewrite iter_pos_nat. rewrite <- (positive_nat_Z k).
      by apply shr_iter_represents.
Qed.

Lemma div_pow2_bounds (x d n : Z) :
  0 ≤ n → n < d → 2 ^ (d - 1) ≤ x < 2 ^ d →
  2 ^ (d - 1 - n) ≤ x / 2 ^ n < 2 ^ (d - n).
Proof.
  intros Hn Hd [Hlo Hhi].
  pose proof (pow2_pos n Hn) as Hp.
  split.
  - apply Z.div_le_lower_bound; [done|].
    rewrite <- Z.pow_add_r by lia. by replace (n + (d - 1 - n)) with (d - 1) by lia.
  - apply Z.div_lt_upper_bound; [done|].
    rewrite <- Z.pow_add_r by lia. by replace (n + (d - n)) with d by lia.
Qed.

(** [binary_round_aux] in the normal range, without overflow: the
    quotient is rounded at 53 digits, and a carry to 2^53 moves the
    exponent up by one. *)
Lemma binary_round_aux_normal (P D mx ex : Z) (lx : location) (d : Z) :
  0 < D → 0 ≤ P → mx = P / D → lx = loc_of (P mod D) D →
  2 ^ (d - 1) ≤ mx < 2 ^ d → 53 ≤ d →
  -1074 ≤ ex + d - 53 → ex + d - 52 ≤ 971 →
  binary_round_aux 53 1024 false mx ex lx
  = (if rne P (D * 2 ^ (d - 53)) <? 2 ^ 53
     then S754_finite false (Z.to_pos (rne P (D * 2 ^ (d - 53)))) (ex + d - 53)
     else S754_finite false (Z.to_pos (2 ^ 52)) (ex + d - 52))
  ∧ 2 ^ 52 ≤ rne P (D * 2 ^ (d - 53)) ≤ 2 ^ 53.
Proof.
  intros HD HP Hmx Hlx Hd H53 Hlo Hhi.
  destruct (shr_fexp_represents P D mx ex lx d) as (mrs & Hshr & Hrep);
    try done.
  unfold binary_round_aux. rewrite Hshr.
  destruct Hrep as (HD' & _ & Hm & Hl).
  rewrite Hm, Hl. fold (rne P (D * 2 ^ (d - 53))).
  set (m2 := rne P (D * 2 ^ (d - 53))).
  assert (Hm1 : 2 ^ 52 ≤ P / (D * 2 ^ (d - 53)) < 2 ^ 53).
  { rewrite <- Z.div_div by (try apply pow2_pos; lia). rewrite <- Hmx.
    pose proof (div_pow2_bounds mx d (d - 53) ltac:(lia) ltac:(lia) Hd) as B.
    replace (d - 1 - (d - 53)) with 52 in B by lia.
    by replace (d - (d - 53)) with 53 in B by lia. }
  pose proof (rne_bounds P (D * 2 ^ (d - 53)) HD' HP) as B. fold m2 in B.
  assert (Hm2 : 2 ^ 52 ≤ m2 ≤ 2 ^ 53) by lia.
  split; [|done].
  destruct (Z.ltb_spec m2 (2 ^ 53)) as [Hlt|Hge].
  - unfold shr_fexp.
    rewrite (Zdigits2_unique m2 53) by (change (2 ^ (53 - 1)) with (2 ^ 52); lia).
    unfold fexp, emin.
    replace (Z.max (53 + (ex + d - 53) - 53) (3 - 1024 - 53) - (ex + d - 53))
      with 0 by lia.
    simpl shr. cbn [shr_m].
    destruct m2 as [|p|p] eqn:E; try lia.
    destruct (Z.leb_spec (ex + d - 53) (1024 - 53)); [|lia].
    reflexivity.
  - assert (E : m2 = 2 ^ 53) by lia. rewrite E.
    unfold shr_fexp.
    change (Zdigits2 (2 ^ 53)) with 54.
    unfold fexp, emin.
    replace (Z.max (54 + (ex + d - 53) - 53) (3 - 1024 - 53) - (ex + d - 53))
      with 1 by lia.
    simpl shr. cbn [shr_m].
    destruct (Z.leb_spec (ex + d - 53 + 1) (1024 - 53)); [|lia].
    f_equal. lia.
Qed.

Lemma new_location_loc_of (D R : Z) :
  0 < D → 0 ≤ R < D → new_location D R = loc_of R D.
Proof.
  intros HD HR. unfold new_location, new_location_even, new_location_odd, loc_of.
  destruct (Z.even D) eqn:Ev; [done|].
  destruct (Z.eqb_spec R 0); [done|]. f_equal.
  assert (Hodd : Z.odd D = true) by (rewrite <- Z.negb_even, Ev; done).
  apply Z.odd_spec in Hodd as [k Hk].
  destruct (Z.compare_spec (2 * R + 1) D); destruct (Z.compare_spec (2 * R) D);
    try done; lia.
Qed.

Lemma round_result_nfloat (P D ex d B : Z) :
  2 ^ 52 ≤ rne P (D * 2 ^ (d - 53)) ≤ 2 ^ 53 →
  - B ≤ ex + d - 53 → ex + d - 52 ≤ B →
  nfloat B (round_result P D ex d).
Proof.
  intros Hr Hlo Hhi. unfold round_result.
  destruct (Z.ltb_spec (rne P (D * 2 ^ (d - 53))) (2 ^ 53)); simpl.
  - rewrite Z2Pos.id by lia. lia.
  - lia.
Qed.

Lemma round_result_mono (P D ex d P' D' ex' d' : Z) :
  0 < D → 0 < D' → 0 ≤ P → 0 ≤ P' → 53 ≤ d → 53 ≤ d' →
  2 ^ 52 ≤ rne P (D * 2 ^ (d - 53)) ≤ 2 ^ 53 →
  2 ^ 52 ≤ rne P' (D' * 2 ^ (d' - 53)) ≤ 2 ^ 53 →
  d + ex < d' + ex'
  ∨ (d + ex = d' + ex'
     ∧ P * (D' * 2 ^ (d' - 53)) ≤ P' * (D * 2 ^ (d - 53))) →
  fle (round_result P D ex d) (round_result P' D' ex' d').
Proof.
  intros HD HD' HP HP' Hd Hd' Hr Hr' Hcmp.
  pose proof (pow2_pos (d - 53) ltac:(lia)).
  pose proof (pow2_pos (d' - 53) ltac:(lia)).
  assert (Hm : d + ex = d' + ex' →
               rne P (D * 2 ^ (d - 53)) ≤ rne P' (D' * 2 ^ (d' - 53))).
  { intros E. destruct Hcmp as [|[_ Hle]]; [lia|].
    apply rne_mono; try done; lia. }
  unfold round_result.
  destruct (Z.ltb_spec (rne P (D * 2 ^ (d - 53))) (2 ^ 53));
    destruct (Z.ltb_spec (rne P' (D' * 2 ^ (d' - 53))) (2 ^ 53)); simpl;
    rewrite ?Z2Pos.id by lia.
  - destruct (Z.eq_dec (d + ex) (d' + ex')) as [E|]; [|lia].
    right. split; [lia|auto].
  - lia.
  - destruct (Z.eq_dec (d + ex) (d' + ex')) as [E|]; [|lia].
    specialize (Hm E). lia.
  - destruct (Z.eq_dec (d + ex) (d' + ex')) as [E|]; [|lia].
    right. split; [lia|done].
Qed.

Lemma pos_iter_xO (m k : positive) :
  Zpos (Pos.iter xO m k) = Zpos m * 2 ^ Zpos k.
Proof.
  rewrite (Pos.iter_swap_gen _ _ Zpos xO (Z.mul 2)) by done.
  change (Pos.iter (Z.mul 2) (Z.pos m) k) with (Z.shiftl (Z.pos m) (Z.pos k)).
  apply Z.shiftl_mul_pow2. lia.
Qed.

Lemma rne_one (P : Z) : rne P 1 = P.
Proof. rewrite rne_exact by apply Z.mod_1_r. apply Z.div_1_r. Qed.

(** A mantissa of exactly 53 digits goes through the rounding as it is. *)
Lemma binary_round_aux_exact (m : positive) (e : Z) :
  2 ^ 52 ≤ Zpos m < 2 ^ 53 → -1074 ≤ e ≤ 970 →
  binary_round_aux 53 1024 false (Zpos m) e loc_Exact = S754_finite false m e.
Proof.
  intros Hm He.
  destruct (binary_round_aux_normal (Zpos m) 1 (Zpos m) e loc_Exact 53)
    as [-> _]; try done; try lia.
  - by rewrite Z.div_1_r.
  - by rewrite Z.mod_1_r.
  - change (2 ^ (53 - 53)) with 1. rewrite Z.mul_1_r, rne_one.
    destruct (Z.ltb_spec (Z.pos m) (2 ^ 53)); [|lia].
    simpl. f_equal. lia.
Qed.

(** [float(n)] for [1 <= n < 2^53]: the integer itself, its [d] digits
    moved up to 53. *)
Lemma of_int_small (n : positive) :
  Zpos n < 2 ^ 53 →
  binary_normalize 53 1024 (Zpos n) 0 false
  = S754_finite false
      (Z.to_pos (Zpos n * 2 ^ (53 - Zpos (digits2_pos n))))
      (Zpos (digits2_pos n) - 53).
Proof.
  intros Hn. pose proof (digits2_pos_bounds n) as Hd.
  set (d := Zpos (digits2_pos n)) in *.
  assert (Hd53 : d ≤ 53).
  { destruct (Z.le_gt_cases d 53); [done|].
    assert (2 ^ 53 ≤ 2 ^ (d - 1)) by (apply Z.pow_le_mono_r; lia). lia. }
  unfold binary_normalize, binary_round. fold d.
  unfold fexp, emin.
  replace (Z.max (d + 0 - 53) (3 - 1024 - 53)) with (d - 53) by lia.
  unfold shl_align.
  destruct (d - 53 - 0) as [|k|k] eqn:Ek; try lia.
  - assert (d = 53) as Ed by lia. rewrite Ed in *.
    change (2 ^ (53 - 53)) with 1. rewrite Z.mul_1_r. simpl Z.to_pos.
    replace (53 - 53) with 0 by lia.
    apply binary_round_aux_exact; [done|lia].
  - assert (Ek' : Zpos k = 53 - d) by lia.
    assert (Hmz : Zpos (Pos.iter xO n k) = Zpos n * 2 ^ (53 - d)).
    { by rewrite pos_iter_xO, Ek'. }
    rewrite <- Hmz. simpl Z.to_pos.
    apply binary_round_aux_exact; [|lia].
    rewrite Hmz.
    pose proof (pow2_pos (53 - d) ltac:(lia)).
    replace (2 ^ 52) with (2 ^ (d - 1) * 2 ^ (53 - d))
      by (rewrite <- Z.pow_add_r by lia; f_equal; lia).
    replace (2 ^ 53) with (2 ^ d * 2 ^ (53 - d))
      by (rewrite <- Z.pow_add_r by lia; f_equal; lia).
    split; [apply Z.mul_le_mono_nonneg_r; lia|apply Z.mul_lt_mono_pos_r; lia].
Qed.

Lemma digits2_pos_mono (i j : positive) :
  Zpos i ≤ Zpos j → Zpos (digits2_pos i) ≤ Zpos (digits2_pos j).
Proof.
  intros Hij. pose proof (digits2_pos_bounds i). pose proof (digits2_pos_bounds j).
  destruct (Z.le_gt_cases (Zpos (digits2_pos i)) (Zpos (digits2_pos j)));
    [done|].
  assert (2 ^ Zpos (digits2_pos j) ≤ 2 ^ (Zpos (digits2_pos i) - 1))
    by (apply Z.pow_le_mono_r; lia).
  lia.
Qed.

Lemma digits2_pos_le_53 (p : positive) :
  Zpos p < 2 ^ 53 → Zpos (digits2_pos p) ≤ 53.
Proof.
  intros Hp. pose proof (digits2_pos_bounds p).
  destruct (Z.le_gt_cases (Zpos (digits2_pos p)) 53); [done|].
  assert (2 ^ 53 ≤ 2 ^ (Zpos (digits2_pos p) - 1))
    by (apply Z.pow_le_mono_r; lia).
  lia.
Qed.

(** [float(n)] for [1 <= n <= 2^53] is exact. *)
Lemma of_int_exact (n : Z) :
  1 ≤ n ≤ 2 ^ 53 →
  ∃ x, PyFloat.of_int n = Some x ∧ nfloat 60 x ∧ PyFloat.to_int x = Some n.
Proof.
  intros Hn. destruct (Z.eq_dec n (2 ^ 53)) as [->|Hne].
  { exists (S754_finite false 4503599627370496 1).
    split; [vm_compute; reflexivity|]. split; [|vm_compute; done].
    unfold nfloat. change (2 ^ 52) with 4503599627370496.
    change (2 ^ 53) with 9007199254740992. lia. }
  destruct n as [|p|p]; try lia.
  unfold PyFloat.of_int, PyFloat.prec, PyFloat.emax.
  rewrite of_int_small by lia. simpl PyFloat.is_finite. cbv iota.
  eexists. split; [reflexivity|].
  pose proof (digits2_pos_bounds p) as Hd.
  set (d := Zpos (digits2_pos p)) in *.
  assert (Hd53 : d ≤ 53).
  { destruct (Z.le_gt_cases d 53); [done|].
    assert (2 ^ 53 ≤ 2 ^ (d - 1)) by (apply Z.pow_le_mono_r; lia). lia. }
  assert (0 < d) by (unfold d; lia).
  pose proof (pow2_pos (53 - d) ltac:(lia)) as Hp.
  assert (Hm : 2 ^ 52 ≤ Zpos p * 2 ^ (53 - d) < 2 ^ 53).
  { replace (2 ^ 52) with (2 ^ (d - 1) * 2 ^ (53 - d))
      by (rewrite <- Z.pow_add_r by lia; f_equal; lia).
    replace (2 ^ 53) with (2 ^ d * 2 ^ (53 - d))
      by (rewrite <- Z.pow_add_r by lia; f_equal; lia).
    split; [apply Z.mul_le_mono_nonneg_r; lia|apply Z.mul_lt_mono_pos_r; lia]. }
  split.
  - unfold nfloat. rewrite Z2Pos.id by lia. split; [done|lia].
  - unfold PyFloat.to_int. f_equal.
    destruct (d - 53) as [|k|k] eqn:Ek; try lia.
    + rewrite Z.shiftl_0_r, Z2Pos.id by lia.
      replace (53 - d) with 0 by lia. simpl. lia.
    + rewrite Z2Pos.id by lia. rewrite Z.shiftr_div_pow2 by lia.
      replace (Z.pos k) with (53 - d) by lia.
      apply Z.div_mul. lia.
Qed.

Lemma of_int_mono (i j : Z) (x y : spec_float) :
  1 ≤ i ≤ j → j ≤ 2 ^ 53 →
  PyFloat.of_int i = Some x → PyFloat.of_int j = Some y → fle x y.
Proof.
  intros Hi Hj Hx Hy.
  destruct (Z.eq_dec j (2 ^ 53)) as [->|Hne].
  { vm_compute in Hy. injection Hy as <-.
    destruct (Z.eq_dec i (2 ^ 53)) as [->|Hni].
    - vm_compute in Hx. injection Hx as <-. right. done.
    - destruct i as [|p|p]; try lia.
      unfold PyFloat.of_int, PyFloat.prec, PyFloat.emax in Hx.
      rewrite of_int_small in Hx by lia. simpl in Hx. injection Hx as <-.
      pose proof (digits2_pos_le_53 p ltac:(lia)).
      unfold fle. left. lia. }
  destruct i as [|p|p]; try lia. destruct j as [|q|q]; try lia.
  unfold PyFloat.of_int, PyFloat.prec, PyFloat.emax in Hx, Hy.
  rewrite of_int_small in Hx, Hy by lia.
  simpl PyFloat.is_finite in Hx, Hy. cbv iota in Hx, Hy.
  injection Hx as <-. injection Hy as <-.
  pose proof (digits2_pos_mono p q ltac:(lia)) as Hd.
  pose proof (digits2_pos_bounds q) as Hq.
  assert (Zpos (digits2_pos q) ≤ 53).
  { destruct (Z.le_gt_cases (Zpos (digits2_pos q)) 53); [done|].
    assert (2 ^ 53 ≤ 2 ^ (Zpos (digits2_pos q) - 1))
      by (apply Z.pow_le_mono_r; lia). lia. }
  unfold fle.
  destruct (Z.eq_dec (Zpos (digits2_pos p)) (Zpos (digits2_pos q))) as [E|];
    [|left; lia].
  right. split; [lia|]. rewrite E.
  pose proof (pow2_pos (53 - Zpos (digits2_pos q)) ltac:(lia)).
  rewrite !Z2Pos.id by lia.
  apply Z.mul_le_mono_nonneg_r; lia.
Qed.

Lemma SFdiv_core_normal (mx my : positive) (ex ey : Z) :
  2 ^ 52 ≤ Zpos mx < 2 ^ 53 → 2 ^ 52 ≤ Zpos my < 2 ^ 53 →
  -1021 ≤ ex - ey →
  SFdiv_core_binary 53 1024 (Zpos mx) ex (Zpos my) ey
  = (Zpos mx * 2 ^ 53 / Zpos my, ex - ey - 53,
     loc_of ((Zpos mx * 2 ^ 53) mod Zpos my) (Zpos my)).
Proof.
  intros Hx Hy He. unfold SFdiv_core_binary.
  rewrite (Zdigits2_unique (Zpos mx) 53), (Zdigits2_unique (Zpos my) 53)
    by (try change (2 ^ (53 - 1)) with (2 ^ 52); lia).
  unfold fexp, emin.
  replace (Z.min (Z.max (53 + ex - (53 + ey) - 53) (3 - 1024 - 53)) (ex - ey))
    with (ex - ey - 53) by lia.
  replace (ex - ey - (ex - ey - 53)) with 53 by lia.
  cbv iota. rewrite Z.shiftl_mul_pow2 by lia.
  pose proof (Z.mod_pos_bound (Zpos mx * 2 ^ 53) (Zpos my) ltac:(lia)) as HR.
  unfold Z.modulo, Z.div in *.
  destruct (Z.div_eucl (Z.pos mx * 2 ^ 53) (Z.pos my)) as [q r].
  by rewrite new_location_loc_of by lia.
Qed.

Lemma div_quotient_digits (mx my : positive) :
  2 ^ 52 ≤ Zpos mx < 2 ^ 53 → 2 ^ 52 ≤ Zpos my < 2 ^ 53 →
  2 ^ (div_digits mx my - 1) ≤ Zpos mx * 2 ^ 53 / Zpos my
                             < 2 ^ div_digits mx my.
Proof.
  intros Hx Hy. unfold div_digits.
  change (2 ^ 52) with 4503599627370496 in *.
  change (2 ^ 53) with 9007199254740992 in *.
  destruct (Z.ltb_spec (Zpos mx) (Zpos my)).
  - change (2 ^ (53 - 1)) with 4503599627370496.
    change (2 ^ 53) with 9007199254740992.
    split.
    + apply Z.div_le_lower_bound; lia.
    + apply Z.div_lt_upper_bound; lia.
  - change (2 ^ (54 - 1)) with 9007199254740992.
    change (2 ^ 54) with 18014398509481984.
    split.
    + apply Z.div_le_lower_bound; lia.
    + apply Z.div_lt_upper_bound; lia.
Qed.

Lemma SFdiv_normal (mx my : positive) (ex ey : Z) :
  2 ^ 52 ≤ Zpos mx < 2 ^ 53 → 2 ^ 52 ≤ Zpos my < 2 ^ 53 →
  -900 ≤ ex - ey ≤ 900 →
  SFdiv 53 1024 (S754_finite false mx ex) (S754_finite false my ey)
  = round_result (Zpos mx * 2 ^ 53) (Zpos my) (ex - ey - 53)
      (div_digits mx my)
  ∧ 2 ^ 52 ≤ rne (Zpos mx * 2 ^ 53)
               (Zpos my * 2 ^ (div_digits mx my - 53)) ≤ 2 ^ 53.
Proof.
  intros Hx Hy He. unfold SFdiv. rewrite SFdiv_core_normal by (try done; lia).
  simpl xorb.
  pose proof (div_quotient_digits mx my Hx Hy) as Hq.
  assert (53 ≤ div_digits mx my ≤ 54)
    by (unfold div_digits; destruct (Z.pos mx <? Z.pos my); lia).
  destruct (binary_round_aux_normal (Zpos mx * 2 ^ 53) (Zpos my)
              (Zpos mx * 2 ^ 53 / Zpos my) (ex - ey - 53)
              (loc_of ((Zpos mx * 2 ^ 53) mod Zpos my) (Zpos my))
              (div_digits mx my)) as [-> Hr]; try done; try lia.
Qed.

Lemma mul_product_digits (mx my : positive) :
  2 ^ 52 ≤ Zpos mx < 2 ^ 53 → 2 ^ 52 ≤ Zpos my < 2 ^ 53 →
  2 ^ (mul_digits mx my - 1) ≤ Zpos mx * Zpos my < 2 ^ mul_digits mx my.
Proof.
  intros Hx Hy. unfold mul_digits.
  destruct (Z.ltb_spec (Zpos mx * Zpos my) (2 ^ 105)).
  - split; [|done]. change (2 ^ (105 - 1)) with (2 ^ 52 * 2 ^ 52).
    apply Z.mul_le_mono_nonneg; lia.
  - split; [done|]. change (2 ^ 106) with (2 ^ 53 * 2 ^ 53).
    apply Z.mul_lt_mono_nonneg; lia.
Qed.

Lemma SFmul_normal (mx my : positive) (ex ey : Z) :
  2 ^ 52 ≤ Zpos mx < 2 ^ 53 → 2 ^ 52 ≤ Zpos my < 2 ^ 53 →
  -500 ≤ ex + ey ≤ 500 →
  SFmul 53 1024 (S754_finite false mx ex) (S754_finite false my ey)
  = round_result (Zpos mx * Zpos my) 1 (ex + ey) (mul_digits mx my)
  ∧ 2 ^ 52 ≤ rne (Zpos mx * Zpos my)
               (1 * 2 ^ (mul_digits mx my - 53)) ≤ 2 ^ 53.
Proof.
  intros Hx Hy He. unfold SFmul. simpl xorb.
  pose proof (mul_product_digits mx my Hx Hy) as Hq.
  assert (105 ≤ mul_digits mx my ≤ 106)
    by (unfold mul_digits; destruct (_ <? _); lia).
  rewrite Pos2Z.inj_mul.
  destruct (binary_round_aux_normal (Zpos mx * Zpos my) 1
              (Zpos mx * Zpos my) (ex + ey) loc_Exact
              (mul_digits mx my)) as [-> Hr]; try done; try lia.
  - by rewrite Z.div_1_r.
  - by rewrite Z.mod_1_r.
Qed.

Lemma nfloat_weaken (B B' : Z) (x : spec_float) :
  B ≤ B' → nfloat B x → nfloat B' x.
Proof. intros HB. destruct x as [| | |[] m e]; simpl; try done. lia. Qed.

(** Division by a fixed float keeps the order. *)
Lemma SFdiv_mono (x y t : spec_float) :
  nfloat 60 x → nfloat 60 y → nfloat 60 t → fle x y →
  fle (SFdiv 53 1024 x t) (SFdiv 53 1024 y t)
  ∧ nfloat 200 (SFdiv 53 1024 x t) ∧ nfloat 200 (SFdiv 53 1024 y t).
Proof.
  destruct x as [| | |[] mx ex]; try done.
  destruct y as [| | |[] my ey]; try done.
  destruct t as [| | |[] mt et]; try done.
  intros [Hx Hex] [Hy Hey] [Ht Het] Hle. simpl in Hle.
  destruct (SFdiv_normal mx mt ex et) as [-> Hr]; try done; try lia.
  destruct (SFdiv_normal my mt ey et) as [-> Hr']; try done; try lia.
  assert (Hd : 53 ≤ div_digits mx mt ≤ 54)
    by (unfold div_digits; destruct (_ <? _); lia).
  assert (Hd' : 53 ≤ div_digits my mt ≤ 54)
    by (unfold div_digits; destruct (_ <? _); lia).
  split; [|split; apply round_result_nfloat; try done; lia].
  apply round_result_mono; try done; try lia.
  revert Hr Hr' Hd Hd'. unfold div_digits.
  change (2 ^ 52) with 4503599627370496 in *.
  change (2 ^ 53) with 9007199254740992 in *.
  destruct (Z.ltb_spec (Zpos mx) (Zpos mt));
    destruct (Z.ltb_spec (Zpos my) (Zpos mt)); intros _ _ _ _;
    change (2 ^ (53 - 53)) with 1; change (2 ^ (54 - 53)) with 2;
    destruct Hle as [Hlt|[-> Hm]]; try lia;
    try (destruct (Z.eq_dec (ey - ex) 1); [right; split; [lia|nia]|left; lia]);
    try (right; split; [lia|nia]).
Qed.

(** Multiplication by a fixed float keeps the order. *)
Lemma SFmul_mono (x y t : spec_float) :
  nfloat 200 x → nfloat 200 y → nfloat 200 t → fle x y →
  fle (SFmul 53 1024 x t) (SFmul 53 1024 y t)
  ∧ nfloat 600 (SFmul 53 1024 x t) ∧ nfloat 600 (SFmul 53 1024 y t).
Proof.
  destruct x as [| | |[] mx ex]; try done.
  destruct y as [| | |[] my ey]; try done.
  destruct t as [| | |[] mt et]; try done.
  intros [Hx Hex] [Hy Hey] [Ht Het] Hle. simpl in Hle.
  destruct (SFmul_normal mx mt ex et) as [-> Hr]; try done; try lia.
  destruct (SFmul_normal my mt ey et) as [-> Hr']; try done; try lia.
  assert (Hd : 105 ≤ mul_digits mx mt ≤ 106)
    by (unfold mul_digits; destruct (_ <? _); lia).
  assert (Hd' : 105 ≤ mul_digits my mt ≤ 106)
    by (unfold mul_digits; destruct (_ <? _); lia).
  split; [|split; apply round_result_nfloat; try done; lia].
  apply round_result_mono; try done; try lia.
  revert Hr Hr' Hd Hd'. unfold mul_digits.
  change (2 ^ 52) with 4503599627370496 in *.
  change (2 ^ 53) with 9007199254740992 in *.
  change (2 ^ 105) with 40564819207303340847894502572032.
  destruct (Z.ltb_spec (Zpos mx * Zpos mt) 40564819207303340847894502572032);
    destruct (Z.ltb_spec (Zpos my * Zpos mt) 40564819207303340847894502572032);
    intros _ _ _ _;
    change (2 ^ (105 - 53)) with 4503599627370496;
    change (2 ^ (106 - 53)) with 9007199254740992;
    destruct Hle as [Hlt|[-> Hm]]; try lia;
    try (destruct (Z.eq_dec (ey - ex) 1); [right; split; [lia|nia]|left; lia]);
    try (right; split; [lia|nia]); try nia.
Qed.

Lemma to_int_finite (m : positive) (e : Z) :
  PyFloat.to_int (S754_finite false m e) = Some (trunc m e).
Proof.
  unfold PyFloat.to_int, trunc. f_equal.
  destruct e as [|p|p].
  - rewrite Z.shiftl_0_r. change (0 <? 0) with false. cbv iota.
    change (2 ^ 0) with 1. lia.
  - destruct (Z.ltb_spec (Zpos p) 0); [lia|].
    apply Z.shiftl_mul_pow2. lia.
  - destruct (Z.ltb_spec (Zneg p) 0); [|lia].
    rewrite Z.shiftr_div_pow2 by lia. done.
Qed.

Lemma trunc_nonneg (m : positive) (e : Z) : 0 ≤ trunc m e.
Proof.
  unfold trunc. destruct (Z.ltb_spec e 0).
  - apply Z.div_pos; [lia|]. apply pow2_pos. lia.
  - pose proof (pow2_pos e ltac:(lia)). lia.
Qed.

Lemma pow2_ge_2 (k : Z) : 1 ≤ k → 2 ≤ 2 ^ k.
Proof.
  intros Hk. replace k with (Z.succ (k - 1)) by lia.
  rewrite Z.pow_succ_r by lia. pose proof (pow2_pos (k - 1) ltac:(lia)). lia.
Qed.

Lemma trunc_mono (m m' : positive) (e e' : Z) :
  2 ^ 52 ≤ Zpos m < 2 ^ 53 → 2 ^ 52 ≤ Zpos m' < 2 ^ 53 →
  e < e' ∨ (e = e' ∧ Zpos m ≤ Zpos m') →
  trunc m e ≤ trunc m' e'.
Proof.
  change (2 ^ 52) with 4503599627370496.
  change (2 ^ 53) with 9007199254740992.
  intros Hm Hm' [Hlt|[<- Hle]]; unfold trunc.
  - destruct (Z.ltb_spec e 0) as [He|He];
      destruct (Z.ltb_spec e' 0) as [He'|He']; try lia.
    + (* both negative: the smaller is shifted further *)
      replace (- e) with ((- e') + (e' - e)) by lia.
      rewrite Z.pow_add_r by lia.
      pose proof (pow2_pos (- e') ltac:(lia)) as HA.
      pose proof (pow2_ge_2 (e' - e) ltac:(lia)) as HB.
      revert HA HB. generalize (2 ^ (- e')) (2 ^ (e' - e)). intros A B HA HB.
      apply Z.div_le_lower_bound; [done|].
      pose proof (Z.mul_div_le (Zpos m) (A * B) ltac:(nia)) as Hq.
      assert (0 ≤ Zpos m / (A * B)) by (apply Z.div_pos; nia).
      revert Hq H. generalize (Zpos m / (A * B)). intros q Hq Hq0.
      assert (A * q * 2 ≤ A * q * B) by (apply Z.mul_le_mono_nonneg_l; nia).
      nia.
    + pose proof (pow2_ge_2 (- e) ltac:(lia)) as HB.
      pose proof (pow2_pos e' ltac:(lia)) as HA.
      revert HA HB. generalize (2 ^ (- e)) (2 ^ e'). intros B A HA HB.
      transitivity (Zpos m / 2).
      * apply Z.div_le_compat_l; lia.
      * assert (Zpos m / 2 ≤ 4503599627370496)
          by (apply Z.div_le_upper_bound; lia).
        nia.
    + replace e' with (e + (e' - e)) by lia.
      rewrite Z.pow_add_r by lia.
      pose proof (pow2_pos e ltac:(lia)) as HA.
      pose proof (pow2_ge_2 (e' - e) ltac:(lia)) as HB.
      revert HA HB. generalize (2 ^ e) (2 ^ (e' - e)). intros A B HA HB.
      assert (Zpos m * A ≤ 2 * Zpos m' * A) by nia.
      assert (Zpos m' * A * 2 ≤ Zpos m' * A * B)
        by (apply Z.mul_le_mono_nonneg_l; nia).
      nia.
  - destruct (Z.ltb_spec e 0).
    + apply Z.div_le_mono; [apply pow2_pos; lia|done].
    + apply Z.mul_le_mono_nonneg_r; [|done].
      pose proof (pow2_pos e ltac:(lia)). lia.
Qed.

Lemma SFdiv_self (t : spec_float) :
  nfloat 60 t →
  SFdiv 53 1024 t t = S754_finite false 4503599627370496 (-52).
Proof.
  destruct t as [| | |[] mt et]; try done. intros [Ht Het].
  destruct (SFdiv_normal mt mt et et) as [-> _]; try done; try lia.
  unfold round_result, div_digits. rewrite Z.ltb_irrefl.
  change (2 ^ (54 - 53)) with 2.
  replace (Zpos mt * 2 ^ 53) with (2 ^ 52 * (Zpos mt * 2))
    by (change (2 ^ 53) with (2 ^ 52 * 2); lia).
  rewrite rne_mul by lia.
  change (2 ^ 52 <? 2 ^ 53) with true. cbv iota.
  f_equal. lia.
Qed.

Lemma SFmul_one (x : spec_float) :
  nfloat 60 x →
  SFmul 53 1024 (S754_finite false 4503599627370496 (-52)) x = x.
Proof.
  destruct x as [| | |[] m e]; try done. intros [Hm He].
  destruct (SFmul_normal 4503599627370496 m (-52) e) as [-> _];
    try done; try lia.
  unfold round_result, mul_digits.
  change (Zpos 4503599627370496) with (2 ^ 52).
  destruct (Z.ltb_spec (2 ^ 52 * Zpos m) (2 ^ 105)) as [_|Hge].
  - change (2 ^ (105 - 53)) with (2 ^ 52). rewrite Z.mul_1_l.
    rewrite (Z.mul_comm (2 ^ 52)), rne_mul by done.
    destruct (Z.ltb_spec (Zpos m) (2 ^ 53)); [|lia].
    simpl Z.to_pos. f_equal. lia.
  - change (2 ^ 105) with (2 ^ 52 * 2 ^ 53) in Hge. lia.
Qed.

Lemma getpos_first (N f : Z) :
  1 ≤ N ≤ 2 ^ 53 → 0 ≤ f ≤ 2 ^ 53 → getpos 0 N f = Some 0.
Proof.
  intros HN Hf. unfold getpos.
  destruct (of_int_exact N HN) as (t & -> & Ht & _).
  change (PyFloat.of_int 0) with (Some (S754_zero false)). simpl.
  destruct t as [| | |[] mt et]; try done. simpl.
  destruct (Z.eq_dec f 0) as [->|].
  - reflexivity.
  - destruct (of_int_exact f ltac:(lia)) as (F & -> & HF & _). simpl.
    by destruct F as [| | |[] mF eF].
Qed.

Lemma getpos_of_empty (i N : Z) :
  1 ≤ i ≤ 2 ^ 53 → 1 ≤ N ≤ 2 ^ 53 → getpos i N 0 = Some 0.
Proof.
  intros Hi HN. unfold getpos.
  destruct (of_int_exact i Hi) as (a & -> & Ha & _).
  destruct (of_int_exact N HN) as (t & -> & Ht & _). simpl.
  destruct (SFdiv_mono a a t Ha Ha Ht) as (_ & Hq & _).
  { destruct a as [| | |[] ma ea]; try done. simpl. lia. }
  unfold PyFloat.div.
  destruct t as [| | |[] mt et]; try done. simpl.
  change (PyFloat.of_int 0) with (Some (S754_zero false)). simpl.
  unfold PyFloat.mul. change PyFloat.prec with 53. change PyFloat.emax with 1024.
  by destruct (SFdiv 53 1024 a (S754_finite false mt et)) as [| | |[] mq eq].
Qed.

(** The boundary of a part, for counts and a size that are doubles. *)
Lemma getpos_normal (i N f : Z) :
  1 ≤ i ≤ 2 ^ 53 → 1 ≤ N ≤ 2 ^ 53 → 1 ≤ f ≤ 2 ^ 53 →
  ∃ a t F,
    PyFloat.of_int i = Some a ∧ PyFloat.of_int N = Some t
    ∧ PyFloat.of_int f = Some F
    ∧ nfloat 60 a ∧ nfloat 60 t ∧ nfloat 60 F
    ∧ PyFloat.to_int F = Some f
    ∧ getpos i N f = PyFloat.to_int (SFmul 53 1024 (SFdiv 53 1024 a t) F).
Proof.
  intros Hi HN Hf.
  destruct (of_int_exact i Hi) as (a & Ea & Ha & _).
  destruct (of_int_exact N HN) as (t & Et & Ht & _).
  destruct (of_int_exact f Hf) as (F & EF & HF & HFi).
  exists a, t, F. repeat (split; [done|]).
  unfold getpos. rewrite Ea, Et, EF. simpl.
  by destruct t as [| | |[] mt et].
Qed.

Lemma getpos_last (N f : Z) :
  1 ≤ N ≤ 2 ^ 53 → 0 ≤ f ≤ 2 ^ 53 → getpos N N f = Some f.
Proof.
  intros HN Hf. destruct (Z.eq_dec f 0) as [->|].
  { by apply getpos_of_empty. }
  destruct (getpos_normal N N f) as (a & t & F & Ea & Et & EF & Ha & Ht & HF
                                     & HFi & ->); try lia.
  assert (a = t) as -> by congruence.
  by rewrite SFdiv_self, SFmul_one.
Qed.

Lemma getpos_mono (i j N f : Z) :
  1 ≤ i ≤ j → j ≤ 2 ^ 53 → 1 ≤ N ≤ 2 ^ 53 → 1 ≤ f ≤ 2 ^ 53 →
  ∃ a b, getpos i N f = Some a ∧ getpos j N f = Some b ∧ 0 ≤ a ≤ b.
Proof.
  intros Hi Hj HN Hf.
  destruct (getpos_normal i N f) as (a & t & F & Ea & Et & EF & Ha & Ht & HF
                                     & _ & ->); try lia.
  destruct (getpos_normal j N f) as (b & t' & F' & Eb & Et' & EF' & Hb & _ & _
                                     & _ & ->); try lia.
  assert (t' = t) as -> by congruence. assert (F' = F) as -> by congruence.
  pose proof (of_int_mono i j a b Hi Hj Ea Eb) as Hab.
  destruct (SFdiv_mono a b t Ha Hb Ht Hab) as (Hq & Hqa & Hqb).
  destruct (SFmul_mono _ _ F Hqa Hqb (nfloat_weaken 60 200 F ltac:(lia) HF) Hq)
    as (Hp & Hpa & Hpb).
  destruct (SFmul 53 1024 (SFdiv 53 1024 a t) F) as [| | |[] m e]; try done.
  destruct (SFmul 53 1024 (SFdiv 53 1024 b t) F) as [| | |[] m' e']; try done.
  rewrite !to_int_finite. eexists _, _. split; [done|]. split; [done|].
  split; [apply trunc_nonneg|].
  apply trunc_mono; [apply Hpa|apply Hpb|exact Hp].
Qed.

(** The boundaries of the parts are in order. *)
Theorem getpos_in_order (i N f : Z) :
  0 ≤ i < N → N ≤ 2 ^ 53 → 0 ≤ f ≤ 2 ^ 53 →
  ∃ a b, getpos i N f = Some a ∧ getpos (i + 1) N f = Some b ∧ 0 ≤ a ≤ b.
Proof.
  intros Hi HN Hf.
  destruct (Z.eq_dec f 0) as [->|Hf0].
  { exists 0, 0. split; [|split; [|lia]].
    - destruct (Z.eq_dec i 0) as [->|]; [apply getpos_first|apply getpos_of_empty]; lia.
    - apply getpos_of_empty; lia. }
  destruct (Z.eq_dec i 0) as [->|Hi0].
  - destruct (getpos_mono 1 1 N f) as (a & b & _ & Eb & Ha & Hb); try lia.
    exists 0, b. split; [apply getpos_first; lia|]. split; [done|lia].
  - apply getpos_mono; lia.
Qed.


(** The ranges follow one another: where a range ends the next starts,
    and the length of a range is its end less its start. *)
Lemma offsets_contiguous (i total_procs filesize : Z) (s e l s' e' l' : Z) :
  get_copy_offsets i total_procs filesize = Some (s, e, l) →
  get_copy_offsets (i + 1) total_procs filesize = Some (s', e', l') →
  e = s' ∧ l = e - s.
Proof.
  unfold get_copy_offsets. intros H H'.
  destruct (getpos i total_procs filesize) as [a|]; [|done].
  destruct (getpos (i + 1) total_procs filesize) as [c|]; [|done].
  destruct (getpos (i + 1 + 1) total_procs filesize); [|done].
  simpl in *. by simplify_eq.
Qed.

(** The lengths of [n] ranges in a row add up to the distance between the
    first boundary and the last. *)
Lemma lengths_telescope (b : Z → Z) (n : nat) (m : Z) :
  foldr Z.add 0 ((λ i, b (i + 1) - b i) <$> seqZ m (Z.of_nat n))
  = b (m + Z.of_nat n) - b m.
Proof.
  revert m. induction n as [|n IH]; intros m.
  - simpl. rewrite Z.add_0_r. lia.
  - rewrite seqZ_cons by lia. simpl.
    replace (Z.pred (Z.of_nat (S n))) with (Z.of_nat n) by lia.
    rewrite IH.
    replace (Z.succ m + Z.of_nat n) with (m + Z.of_nat (S n)) by lia.
    replace (Z.succ m) with (m + 1) by lia. lia.
Qed.

(** Two plans: ten million bytes in four parts, seven bytes in three. *)
Example offsets_of_ten_million :
  (λ i, get_copy_offsets i 4 10000000) <$> range 0 4
  = [Some (0, 2500000, 2500000); Some (2500000, 5000000, 2500000);
     Some (5000000, 7500000, 2500000); Some (7500000, 10000000, 2500000)].
Proof. vm_compute. reflexivity. Qed.

Example offsets_of_seven_bytes :
  (λ i, get_copy_offsets i 3 7) <$> range 0 3
  = [Some (0, 2, 2); Some (2, 4, 2); Some (4, 7, 3)].
Proof. vm_compute. reflexivity. Qed.

(** C2, as the code has it: the last boundary is [int(1.0 * fsize)], and
    a size above 2^53 need not be a double.  For a source of 2^53 + 1
    bytes copied in one part, the one range ends at 2^53: its end is not
    the size of the file, and the last byte is in no range. *)
Theorem last_boundary_misses_file_size :
  get_copy_offsets 0 1 9007199254740993
  = Some (0, 9007199254740992, 9007199254740992).
Proof. vm_compute. reflexivity. Qed.

(** ** Properties of the copy worker *)

Section CopyLoop.

Variable src : list byte.
Variable start_pos : Z.
Hypothesis start_nonneg : 0 ≤ start_pos.

Lemma take_then_take {A} (l : list A) (a b : nat) :
  take a l ++ take b (drop (length (take a l)) l) = take (a + b) l.
Proof.
  revert a; induction l as [|x l IH]; intros [|a]; simpl;
    rewrite ?take_nil; auto.
  f_equal. apply IH.
Qed.

Lemma read_at (w : Worker) (n : Z) :
  copy_inv src start_pos w → 0 ≤ n →
  fst (read (in_fh w) n)
  = take (Z.to_nat n)
      (drop (length (file_content w)) (drop (Z.to_nat start_pos) src)).
Proof.
  intros (Hc & _ & _ & Hp) Hn. unfold read. simpl.
  rewrite Hc, Hp, drop_drop. do 2 f_equal. lia.
Qed.

Lemma copy_block_eq (w : Worker) (n : Z) :
  copy_block n w
  = mkWorker (bytes_read w + n)
      (mkInFile (content (in_fh w))
         (pos (in_fh w) + Z.of_nat (length (fst (read (in_fh w) n)))))
      (out_fh w ++ [fst (read (in_fh w) n)]).
Proof. reflexivity. Qed.

Lemma copy_block_inv (w : Worker) (n : Z) :
  copy_inv src start_pos w → 0 ≤ n → copy_inv src start_pos (copy_block n w).
Proof.
  intros Hw Hn. rewrite copy_block_eq, (read_at w n Hw Hn).
  destruct Hw as (Hc & Hb & Hf & Hp).
  unfold copy_inv, file_content in *. simpl.
  rewrite concat_app. simpl. rewrite app_nil_r, length_app.
  repeat split; [done | lia | | lia].
  rewrite Hf at 1. rewrite Hf at 1.
  rewrite take_then_take. f_equal. lia.
Qed.

Lemma answer_request_eq (output : Pipe) (w : Worker) :
  answer_request output w
  = Some match requests output with
         | [] => output
         | _ :: q => mkPipe q (reports output ++ [bytes_read w])
         end.
Proof.
  unfold answer_request, Conn.child_poll, Conn.child_recv, Conn.child_send.
  destruct (requests output); reflexivity.
Qed.

Lemma loop_body_eq (block_size read_len : Z) (output : Pipe) (w : Worker) :
  loop_body block_size read_len output w
  = Some (match requests output with
          | [] => output
          | _ :: q => mkPipe q (reports output ++ [bytes_read w])
          end,
          copy_block (Z.min block_size (read_len - bytes_read w)) w).
Proof.
  unfold loop_body. rewrite answer_request_eq. simpl.
  destruct (Z.gtb_spec (read_len - bytes_read w) block_size).
  - by rewrite Z.min_l by lia.
  - by rewrite Z.min_r by lia.
Qed.

Variables block_size read_len : Z.
Hypothesis block_size_pos : 0 < block_size.

Lemma copy_loop_returns (fuel : nat) (env : nat → Pipe → Pipe) (k : nat)
    (output : Pipe) (w : Worker) :
  copy_inv src start_pos w → bytes_read w ≤ read_len →
  read_len - bytes_read w ≤ Z.of_nat fuel * block_size →
  ∃ output1 w1,
    copy_loop fuel block_size read_len env k output w
    = Some (Returned (output1, w1))
    ∧ copy_inv src start_pos w1 ∧ bytes_read w1 = read_len.
Proof.
  revert k output w.
  induction fuel as [|fuel IH]; intros k output w Hw Hle Hfuel; simpl.
  - destruct (Z.ltb_spec (bytes_read w) read_len); [lia|].
    exists (env k output), w. split; [done|]. split; [done|lia].
  - destruct (Z.ltb_spec (bytes_read w) read_len) as [Hlt|Hge].
    + rewrite loop_body_eq.
      apply IH.
      * apply copy_block_inv; [done|lia].
      * rewrite copy_block_eq. simpl. lia.
      * rewrite copy_block_eq. simpl. lia.
    + exists (env k output), w. split; [done|]. split; [done|lia].
Qed.

Lemma block_sizes_snoc (blocks : list (list byte)) (b : list byte) :
  Forall (λ b, Z.of_nat (length b) = block_size) blocks →
  0 < Z.of_nat (length b) ≤ block_size →
  block_sizes_ok block_size (blocks ++ [b]).
Proof.
  intros Hall Hb i c Hi. rewrite length_app; simpl.
  destruct (decide (i < length blocks)%nat) as [Hlt|Hge].
  - rewrite lookup_app_l in Hi by done.
    rewrite Forall_lookup in Hall. specialize (Hall _ _ Hi). simpl in Hall.
    lia.
  - rewrite lookup_app_r in Hi by lia.
    destruct (i - length blocks)%nat eqn:E; simpl in Hi; [|done].
    inversion Hi; subst. split; [done|lia].
Qed.

Lemma block_sizes_full (blocks : list (list byte)) :
  Forall (λ b, Z.of_nat (length b) = block_size) blocks →
  block_sizes_ok block_size blocks.
Proof.
  intros Hall i c Hi. rewrite Forall_lookup in Hall.
  specialize (Hall _ _ Hi). simpl in Hall. lia.
Qed.

(** While every read is served in full, the length of the file is the
    count of the worker. *)
Lemma full_read_length (w : Worker) (n : Z) :
  copy_inv src start_pos w → 0 ≤ n →
  start_pos + bytes_read w + n ≤ Z.of_nat (length src) →
  Z.of_nat (length (fst (read (in_fh w) n))) = n.
Proof.
  intros Hw Hn Hfull. rewrite (read_at w n Hw Hn).
  destruct Hw as (_ & Hb & Hf & _).
  rewrite Hf, !length_take, !length_drop. lia.
Qed.

Lemma copy_loop_blocks (fuel : nat) (env : nat → Pipe → Pipe) (k : nat)
    (output output1 : Pipe) (w w1 : Worker) :
  start_pos + read_len ≤ Z.of_nat (length src) →
  copy_inv src start_pos w → bytes_read w ≤ read_len →
  block_sizes_ok block_size (out_fh w) →
  (bytes_read w < read_len →
   Forall (λ b, Z.of_nat (length b) = block_size) (out_fh w)) →
  copy_loop fuel block_size read_len env k output w
  = Some (Returned (output1, w1)) →
  block_sizes_ok block_size (out_fh w1).
Proof.
  intros Hfull. revert k output w.
  induction fuel as [|fuel IH]; intros k output w Hw Hle Hok Hall; simpl;
    destruct (Z.ltb_spec (bytes_read w) read_len) as [Hlt|Hge];
    try done; try (intros [= _ <-]; done).
  rewrite loop_body_eq.
  set (n := Z.min block_size (read_len - bytes_read w)).
  assert (Hn : 0 < n ≤ block_size) by lia.
  assert (Hlen : Z.of_nat (length (fst (read (in_fh w) n))) = n).
  { apply full_read_length; [done|lia|lia]. }
  apply IH.
  - apply copy_block_inv; [done|lia].
  - rewrite copy_block_eq. simpl. lia.
  - rewrite copy_block_eq. cbn [out_fh].
    apply block_sizes_snoc; [auto|lia].
  - rewrite copy_block_eq. cbn [out_fh bytes_read]. intros Hlt'.
    apply Forall_app. split; [auto|].
    apply Forall_singleton. lia.
Qed.

(** More fuel than needed changes nothing. *)
Lemma copy_loop_fuel_mono (fuel fuel' : nat) (env : nat → Pipe → Pipe)
    (k : nat) (output : Pipe) (w : Worker) r :
  copy_loop fuel block_size read_len env k output w = Some r →
  (fuel ≤ fuel')%nat →
  copy_loop fuel' block_size read_len env k output w = Some r.
Proof.
  revert fuel' k output w.
  induction fuel as [|fuel IH]; intros fuel' k output w; simpl.
  - destruct (bytes_read w <? read_len) eqn:E; [done|].
    intros H _. destruct fuel'; simpl; by rewrite E.
  - destruct (bytes_read w <? read_len) eqn:E.
    + rewrite loop_body_eq. intros H Hf.
      destruct fuel' as [|fuel']; [lia|]. simpl. rewrite E, loop_body_eq.
      apply IH; [done|lia].
    + intros H _. destruct fuel'; simpl; by rewrite E.
Qed.

End CopyLoop.

Lemma copy_inv_start (src : list byte) (start_pos : Z) :
  copy_inv src start_pos (mkWorker 0 (mkInFile src start_pos) []).
Proof. unfold copy_inv, file_content. simpl. repeat split; lia. Qed.

(** The whole of a worker's run, whatever the source holds: with
    [read_len / block_size + 1] iterations to run, the loop is left with
    the count at the planned length, and the partition file holds the
    planned slice as far as the source goes. *)
Lemma copy_slice_returns (src : list byte)
    (size_from proc_num total_procs start_pos end_pos read_len : Z)
    (env : nat → Pipe → Pipe) (output : Pipe) :
  get_copy_offsets proc_num total_procs size_from
  = Some (start_pos, end_pos, read_len) →
  0 ≤ start_pos → 0 ≤ read_len →
  ∃ output1 w1,
    (∀ fuel : nat, (Z.to_nat (read_len / default_block_size) + 1 ≤ fuel)%nat →
       copy_slice fuel src size_from proc_num total_procs env output
         default_block_size = Some (Returned (output1, w1)))
    ∧ copy_inv src start_pos w1 ∧ bytes_read w1 = read_len.
Proof.
  intros Hoff Hs Hl.
  set (fuel0 := (Z.to_nat (read_len / default_block_size) + 1)%nat).
  destruct (copy_loop_returns src start_pos Hs default_block_size read_len
              eq_refl fuel0 env 0%nat output
              (mkWorker 0 (mkInFile src start_pos) []))
    as (output1 & w1 & Hrun & Hinv & Hbr).
  - apply copy_inv_start.
  - cbn [bytes_read]. lia.
  - cbn [bytes_read]. unfold fuel0.
    pose proof (Z.mul_succ_div_gt read_len default_block_size eq_refl).
    assert (0 ≤ read_len / default_block_size)
      by (apply Z.div_pos; [lia|reflexivity]).
    rewrite Nat2Z.inj_add, Z2Nat.id by done.
    generalize dependent (read_len / default_block_size).
    generalize default_block_size. intros; lia.
  - exists output1, w1. split; [|done].
    intros fuel Hfuel. unfold copy_slice. rewrite Hoff.
    destruct (Z.ltb_spec start_pos 0); [lia|].
    eapply copy_loop_fuel_mono; eauto.
Qed.

(** Seven bytes copied in blocks of three, a request waiting in the pipe
    from the start: the request is answered with the count 0, and the
    blocks written are of 3, 3 and 1 bytes. *)
Example copy_in_blocks_of_three :
  copy_loop 3 3 7 quiet 0 (mkPipe [""%string] [])
    (mkWorker 0 (mkInFile [x01; x02; x03; x04; x05; x06; x07] 0) [])
  = Some (Returned
            (mkPipe [] [0],
             mkWorker 7 (mkInFile [x01; x02; x03; x04; x05; x06; x07] 7)
               [[x01; x02; x03]; [x04; x05; x06]; [x07]])).
Proof. reflexivity. Qed.

(** C3: a worker whose reads are all served in full (the planned slice
    lies within the source) leaves its copy loop, returning normally,
    after writing exactly the [read_len] planned bytes, in blocks of
    1 MiB of which only the last may be shorter; a worker of an empty
    slice writes nothing and returns. *)
Theorem worker_writes_planned_length (src : list byte)
    (size_from proc_num total_procs start_pos end_pos read_len : Z)
    (env : nat → Pipe → Pipe) (output : Pipe) :
  get_copy_offsets proc_num total_procs size_from
  = Some (start_pos, end_pos, read_len) →
  0 ≤ start_pos → 0 ≤ read_len →
  start_pos + read_len ≤ Z.of_nat (length src) →
  ∃ output1 w1,
    (∀ fuel : nat, (Z.to_nat (read_len / default_block_size) + 1 ≤ fuel)%nat →
       copy_slice fuel src size_from proc_num total_procs env output
         default_block_size = Some (Returned (output1, w1)))
    ∧ file_content w1
      = take (Z.to_nat read_len) (drop (Z.to_nat start_pos) src)
    ∧ Z.of_nat (length (file_content w1)) = read_len
    ∧ block_sizes_ok default_block_size (out_fh w1)
    ∧ (read_len = 0 → out_fh w1 = []).
Proof.
  intros Hoff Hs Hl Hfull.
  destruct (copy_slice_returns src _ _ _ _ _ _ env output Hoff Hs Hl)
    as (output1 & w1 & Hrun & Hinv & Hbr).
  assert (Hblocks : block_sizes_ok default_block_size (out_fh w1)).
  { specialize (Hrun _ (Nat.le_refl _)). unfold copy_slice in Hrun.
    rewrite Hoff in Hrun. destruct (Z.ltb_spec start_pos 0); [lia|].
    eapply (copy_loop_blocks src start_pos Hs default_block_size read_len
              eq_refl); [done| | | | |exact Hrun].
    - apply copy_inv_start.
    - simpl; lia.
    - intros i b Hi. done.
    - intros _. constructor. }
  assert (Hlen : Z.of_nat (length (file_content w1)) = read_len).
  { destruct Hinv as (_ & _ & Hf & _).
    rewrite Hf, Hbr, length_take, length_drop. lia. }
  exists output1, w1.
  split; [done|]. split; [|split; [done|split; [done|]]].
  - destruct Hinv as (_ & _ & Hf & _). by rewrite Hf, Hbr.
  - intros ->. destruct (out_fh w1) as [|b rest] eqn:E; [done|].
    destruct (Hblocks 0%nat b) as [Hb _]; [done|].
    unfold file_content in Hlen. rewrite E in Hlen. simpl in Hlen.
    rewrite length_app in Hlen. lia.
Qed.

Lemma worker_writes_planned_length_witness :
  get_copy_offsets 1 3 7 = Some (2, 4, 2)
  ∧ ∃ output1 w1,
      (∀ fuel : nat, (Z.to_nat (2 / default_block_size) + 1 ≤ fuel)%nat →
         copy_slice fuel [x01; x02; x03; x04; x05; x06; x07] 7 1 3 quiet
           (mkPipe [] []) default_block_size = Some (Returned (output1, w1)))
      ∧ file_content w1
        = take (Z.to_nat 2)
            (drop (Z.to_nat 2) [x01; x02; x03; x04; x05; x06; x07])
      ∧ Z.of_nat (length (file_content w1)) = 2
      ∧ block_sizes_ok default_block_size (out_fh w1)
      ∧ (2 = 0 → out_fh w1 = []).
Proof.
  split; [reflexivity|].
  apply (worker_writes_planned_length
           [x01; x02; x03; x04; x05; x06; x07] 7 1 3 2 4 2 quiet
           (mkPipe [] [])).
  - reflexivity.
  - lia.
  - lia.
  - simpl. lia.
Defined.

(** C4, as the code has it: a read that returns fewer bytes than asked
    for is no error to the worker.  Here the source has shrunk to five
    bytes after its size, seven, was taken: worker 2 of 3 asks for the
    three bytes from offset 4 and gets one, writes it, counts three and
    returns normally. *)
Lemma short_read_is_counted :
  get_copy_offsets 2 3 7 = Some (4, 7, 3)
  ∧ copy_slice 1 [x01; x02; x03; x04; x05] 7 2 3 quiet (mkPipe [] [])
      default_block_size
    = Some (Returned (mkPipe [] [],
                      mkWorker 3 (mkInFile [x01; x02; x03; x04; x05] 5)
                        [[x05]])).
Proof. split; reflexivity. Qed.

(** C4, amended: whatever the reads return, the worker adds the count it
    asked for to [bytes_read] and returns normally with [bytes_read] at
    the planned length, while its partition file holds only what the
    source had of the planned slice; and the coordinator's update of a
    worker that is not alive is the same whether it exited normally or
    died of an error: the full planned length is recorded. *)
Theorem worker_counts_requested_bytes (src : list byte)
    (size_from proc_num total_procs start_pos end_pos read_len : Z)
    (env : nat → Pipe → Pipe) (output : Pipe) :
  get_copy_offsets proc_num total_procs size_from
  = Some (start_pos, end_pos, read_len) →
  0 ≤ start_pos → 0 ≤ read_len →
  (∃ output1 w1,
    (∀ fuel : nat, (Z.to_nat (read_len / default_block_size) + 1 ≤ fuel)%nat →
       copy_slice fuel src size_from proc_num total_procs env output
         default_block_size = Some (Returned (output1, w1)))
    ∧ bytes_read w1 = read_len
    ∧ file_content w1
      = take (Z.to_nat read_len) (drop (Z.to_nat start_pos) src))
  ∧ (∀ (block_size : Z) (normal : bool) (p : Pipe) (c : Child),
       step block_size read_len Update (mkChannel (Exited normal) p c)
       = Some (mkChannel (Exited normal) p
                 (mkChild (bytes_to_copy c) (bytes_to_copy c)))).
Proof.
  intros Hoff Hs Hl. split; [|reflexivity].
  destruct (copy_slice_returns src _ _ _ _ _ _ env output Hoff Hs Hl)
    as (output1 & w1 & Hrun & Hinv & Hbr).
  exists output1, w1. split; [done|]. split; [done|].
  destruct Hinv as (_ & _ & Hf & _). by rewrite Hf, Hbr.
Qed.

Lemma worker_counts_requested_bytes_witness :
  get_copy_offsets 2 3 7 = Some (4, 7, 3)
  ∧ (∃ output1 w1,
      (∀ fuel : nat, (Z.to_nat (3 / default_block_size) + 1 ≤ fuel)%nat →
         copy_slice fuel [x01; x02; x03; x04; x05] 7 2 3 quiet
           (mkPipe [] []) default_block_size = Some (Returned (output1, w1)))
      ∧ bytes_read w1 = 3
      ∧ file_content w1
        = take (Z.to_nat 3) (drop (Z.to_nat 4) [x01; x02; x03; x04; x05])).
Proof.
  split; [reflexivity|].
  apply (worker_counts_requested_bytes [x01; x02; x03; x04; x05] 7 2 3 4 7 3
           quiet (mkPipe [] [])).
  - reflexivity.
  - lia.
  - lia.
Defined.

Lemma copy_loop_never_blocks (fuel : nat) (block_size read_len : Z)
    (env : nat → Pipe → Pipe) (k : nat) (output : Pipe) (w : Worker)
    (st : Pipe * Worker) :
  copy_loop fuel block_size read_len env k output w ≠ Some (Blocked st).
Proof.
  revert k output w. induction fuel as [|fuel IH]; intros k output w; simpl.
  - by destruct (bytes_read w <? read_len).
  - destruct (bytes_read w <? read_len); [|done].
    rewrite loop_body_eq. apply IH.
Qed.

(** C9: a run of the loop body never waits for a request: it polls, and
    only when a request is pending does it receive that one request and
    send one report, the count so far; with no request pending the pipe
    is left as it was.  So no run of the loop ends blocked, and a report
    is never sent unasked. *)
Theorem worker_reports_only_on_request (block_size read_len : Z)
    (output : Pipe) (w : Worker) :
  (∃ w1,
     loop_body block_size read_len output w
     = Some (if Conn.child_poll output
             then mkPipe (tail (requests output))
                    (reports output ++ [bytes_read w])
             else output, w1))
  ∧ (∀ (fuel : nat) (env : nat → Pipe → Pipe) (k : nat) (st : Pipe * Worker),
       copy_loop fuel block_size read_len env k output w ≠ Some (Blocked st)).
Proof.
  split.
  - rewrite loop_body_eq. eexists. unfold Conn.child_poll.
    destruct output as [[|m q] rep]; reflexivity.
  - intros. apply copy_loop_never_blocks.
Qed.

Lemma update_keeps_planned (alive : bool) (p p1 : Pipe) (c c1 : Child) :
  update alive p c = Some (p1, c1) → bytes_to_copy c1 = bytes_to_copy c.
Proof.
  unfold update, Conn.parent_poll, Conn.parent_recv.
  destruct alive; simpl; [|by intros [= _ <-]].
  destruct (reports p); simpl; by intros [= _ <-].
Qed.

Lemma step_keeps_planned (block_size read_len : Z) (e : event)
    (s s1 : Channel) :
  step block_size read_len e s = Some s1 →
  bytes_to_copy (child s1) = bytes_to_copy (child s).
Proof.
  destruct s as [[w|normal] p c]; destruct e; simpl; try done.
  - destruct (bytes_read w <? read_len); [|done].
    rewrite loop_body_eq. simpl. by intros [= <-].
  - destruct (bytes_read w <? read_len); [done|]. by intros [= <-].
  - by intros [= <-].
  - destruct (update true p c) as [[p1 c1]|] eqn:E; simpl; [|done].
    intros [= <-]. simpl. by eapply update_keeps_planned.
  - intros [= <-]. done.
Qed.

Lemma run_keeps_planned (block_size read_len : Z) (es : list event)
    (s s1 : Channel) :
  run block_size read_len es s = Some s1 →
  bytes_to_copy (child s1) = bytes_to_copy (child s).
Proof.
  revert s. induction es as [|e es IH]; intros s; simpl.
  - by intros [= <-].
  - destruct (step block_size read_len e s) as [s'|] eqn:E; simpl; [|done].
    intros Hrun. rewrite (IH _ Hrun). by eapply step_keeps_planned.
Qed.

(** C8: at any point of any run of a worker and the coordinator, the
    update of the handle of a worker that is no longer alive sets the
    cached count to the planned length of the worker, whatever the worker
    had copied when it exited or died. *)
Theorem update_of_exited_worker (block_size read_len : Z) (src : list byte)
    (start_pos : Z) (es : list event) (s : Channel) :
  run block_size read_len es (spawn src start_pos read_len) = Some s →
  is_alive (proc s) = false →
  step block_size read_len Update s
  = Some (mkChannel (proc s) (pipe s) (mkChild read_len read_len)).
Proof.
  intros Hrun Hdead. apply run_keeps_planned in Hrun. simpl in Hrun.
  destruct s as [pr p c]. simpl in *. rewrite Hdead. simpl.
  by rewrite Hrun.
Qed.

Lemma update_of_exited_worker_witness :
  let s := mkChannel (Exited false) (mkPipe [""%string] []) (mkChild 0 3) in
  run default_block_size 3 [Update; Crash]
    (spawn [x01; x02; x03; x04; x05; x06; x07] 4 3) = Some s
  ∧ step default_block_size 3 Update s
    = Some (mkChannel (Exited false) (mkPipe [""%string] []) (mkChild 3 3)).
Proof.
  intros s. split; [reflexivity|].
  apply (update_of_exited_worker default_block_size 3
           [x01; x02; x03; x04; x05; x06; x07] 4 [Update; Crash] s);
    reflexivity.
Defined.

(** ** Properties of a channel under every interleaving *)

Section ChannelRuns.

Variables block_size read_len : Z.
Hypothesis block_size_pos : 0 < block_size.
Hypothesis read_len_nonneg : 0 ≤ read_len.

Lemma spawn_inv (src : list byte) (start_pos : Z) :
  chan_inv read_len (spawn src start_pos read_len).
Proof.
  unfold chan_inv, spawn; simpl.
  repeat split; try lia; constructor.
Qed.

(** A step keeps the invariant, and the cached count does not go down. *)
Lemma step_inv (e : event) (s s1 : Channel) :
  chan_inv read_len s → step block_size read_len e s = Some s1 →
  chan_inv read_len s1
  ∧ bytes_copied (child s) ≤ bytes_copied (child s1).
Proof.
  intros (Hto & Hc & Hp) Hstep.
  destruct s as [[w|normal] [req rep] [cached to_copy]];
    destruct e; simpl in *; simplify_eq; try done.
  - (* the loop body *)
    destruct (Z.ltb_spec (bytes_read w) read_len) as [Hlt|]; [|done].
    rewrite loop_body_eq in Hstep. simpl in Hstep. simplify_eq.
    destruct Hp as (Hb & Hcb & Hsort & Hall).
    split; [|simpl; lia].
    rewrite copy_block_eq. unfold chan_inv; cbn [proc pipe child bytes_read
      bytes_copied bytes_to_copy].
    split; [done|]. split; [done|].
    destruct req as [|m q]; cbn [reports].
    + split; [lia|]. split; [lia|]. split; [done|].
      eapply Forall_impl; [exact Hall|]. simpl. lia.
    + split; [lia|]. split; [lia|]. split.
      * apply StronglySorted_app_2; [|done|repeat constructor].
        intros x1 x2 Hx1 Hx2. apply list_elem_of_singleton in Hx2.
        subst x2. rewrite Forall_forall in Hall.
        specialize (Hall _ Hx1). simpl in Hall. lia.
      * apply Forall_app. split.
        -- eapply Forall_impl; [exact Hall|]. simpl. lia.
        -- apply Forall_singleton. lia.
  - (* the exit *)
    destruct (bytes_read w <? read_len); simplify_eq.
    split; [|simpl; lia]. by unfold chan_inv.
  - (* the update of a live worker *)
    destruct Hp as (Hb & Hcb & Hsort & Hall).
    unfold update, Conn.parent_poll, Conn.parent_recv in Hstep.
    simpl in Hstep.
    destruct rep as [|v rep]; simpl in Hstep; simplify_eq.
    + split; [|simpl; lia]. unfold chan_inv; simpl.
      repeat split; try done; lia.
    + apply Forall_cons in Hall as [Hv Hall].
      apply StronglySorted_cons in Hsort as [Hle Hsort].
      split; [|simpl; lia]. unfold chan_inv; simpl.
      split; [done|]. split; [lia|]. split; [lia|]. split; [lia|].
      split; [done|].
      rewrite Forall_forall in Hall, Hle. apply Forall_forall.
      intros x Hx. specialize (Hall _ Hx). specialize (Hle _ Hx).
      simpl in *. lia.
  - (* the update of a worker that is no longer alive *)
    split; [|simpl; lia]. unfold chan_inv; simpl.
    repeat split; try done; lia.
Qed.

Lemma run_inv (es : list event) (s s1 : Channel) :
  chan_inv read_len s → run block_size read_len es s = Some s1 →
  chan_inv read_len s1
  ∧ bytes_copied (child s) ≤ bytes_copied (child s1).
Proof.
  revert s. induction es as [|e es IH]; intros s Hs Hrun; simpl in Hrun.
  - simplify_eq. split; [done|lia].
  - destruct (step block_size read_len e s) as [s'|] eqn:E;
      simpl in Hrun; [|done].
    destruct (step_inv e s s' Hs E) as [Hs' Hle].
    destruct (IH s' Hs' Hrun) as [Hs1 Hle1]. split; [done|lia].
Qed.

End ChannelRuns.

Lemma step_outstanding (block_size read_len : Z) (e : event) (s s1 : Channel) :
  step block_size read_len e s = Some s1 →
  (outstanding s1 ≤ outstanding s + updates [e])%nat.
Proof.
  unfold outstanding.
  destruct s as [[w|normal] [req rep] c]; destruct e; simpl;
    intros Hstep; simplify_eq; simpl; try lia.
  - destruct (bytes_read w <? read_len); [|done].
    rewrite loop_body_eq in Hstep. simpl in Hstep. simplify_eq.
    destruct req; simpl; lia.
  - destruct (bytes_read w <? read_len); simplify_eq. simpl. lia.
  - unfold update, Conn.parent_poll, Conn.parent_recv in Hstep.
    destruct rep; simpl in Hstep; simplify_eq; simpl;
      rewrite length_app; simpl; lia.
Qed.

Lemma run_outstanding (block_size read_len : Z) (es : list event)
    (s s1 : Channel) :
  run block_size read_len es s = Some s1 →
  (outstanding s1 ≤ outstanding s + updates es)%nat.
Proof.
  revert s. induction es as [|e es IH]; intros s Hrun; simpl in Hrun.
  - simplify_eq. simpl. lia.
  - destruct (step block_size read_len e s) as [s'|] eqn:E;
      simpl in Hrun; [|done].
    apply step_outstanding in E. apply IH in Hrun.
    simpl in E. destruct e; simpl; lia.
Qed.

Lemma run_updates_only (block_size read_len : Z) (k : nat) (w : Worker)
    (req : list string) (c : Child) :
  ∃ c1, run block_size read_len (repeat Update k)
          (mkChannel (Running w) (mkPipe req []) c)
        = Some (mkChannel (Running w) (mkPipe (req ++ repeat ""%string k) []) c1).
Proof.
  revert req c. induction k as [|k IH]; intros req c; simpl.
  - exists c. by rewrite app_nil_r.
  - destruct (IH (req ++ [""%string]) c) as [c1 Hc1].
    exists c1. unfold Conn.parent_send; simpl.
    rewrite Hc1. by rewrite <- app_assoc.
Qed.

(** C7, as the code has it: two updates of the handle while the worker
    is copying a block leave two requests in the pipe, none of them
    answered, the worker still alive. *)
Lemma two_requests_outstanding :
  run default_block_size 3 [Update; Update]
    (spawn [x01; x02; x03; x04; x05; x06; x07] 4 3)
  = Some (mkChannel
            (Running (mkWorker 0 (mkInFile [x01; x02; x03; x04; x05; x06; x07] 4) []))
            (mkPipe [""%string; ""%string] [])
            (mkChild 0 3)).
Proof. reflexivity. Qed.

(** C7, amended: the coordinator sends one request at every update of a
    live worker, whether the earlier ones were answered or not.  So in
    every interleaving the requests outstanding are at most as many as
    the updates made so far, and they are as many as [k] after [k]
    updates made while the worker copies one block. *)
Theorem outstanding_requests (block_size read_len : Z) (src : list byte)
    (start_pos : Z) :
  (∀ (es : list event) (s : Channel),
     run block_size read_len es (spawn src start_pos read_len) = Some s →
     (outstanding s ≤ updates es)%nat)
  ∧ (∀ k : nat, ∃ s : Channel,
       run block_size read_len (repeat Update k)
         (spawn src start_pos read_len) = Some s
       ∧ outstanding s = k ∧ is_alive (proc s) = true)
  ∧ (∀ (p : Pipe) (c : Child), ∃ p1 c1,
       update true p c = Some (p1, c1)
       ∧ requests p1 = requests p ++ [""%string]).
Proof.
  split; [|split].
  - intros es s Hrun. apply run_outstanding in Hrun.
    change (outstanding (spawn src start_pos read_len)) with 0%nat in Hrun.
    lia.
  - intros k.
    destruct (run_updates_only block_size read_len k
                (mkWorker 0 (mkInFile src start_pos) []) []
                (mkChild 0 read_len)) as [c1 Hc1].
    eexists. split; [exact Hc1|].
    unfold outstanding; simpl. by rewrite repeat_length.
  - intros [req rep] c. unfold update, Conn.parent_poll, Conn.parent_recv.
    destruct rep; simpl; eauto.
Qed.

Lemma outstanding_requests_witness :
  let s := mkChannel
             (Running (mkWorker 3 (mkInFile [x01; x02; x03; x04; x05; x06; x07] 7)
                         [[x05; x06; x07]]))
             (mkPipe [""%string] []) (mkChild 0 3) in
  run default_block_size 3 [Update; Iterate; Update]
    (spawn [x01; x02; x03; x04; x05; x06; x07] 4 3) = Some s
  ∧ (outstanding s ≤ updates [Update; Iterate; Update])%nat.
Proof.
  intros s. split; [reflexivity|].
  apply (proj1 (outstanding_requests default_block_size 3
                  [x01; x02; x03; x04; x05; x06; x07] 4)).
  reflexivity.
Defined.

(** ** Properties of the merge and of the whole program *)

Lemma range_empty (a b : Z) : b ≤ a → range a b = [].
Proof.
  intros H. unfold range, seqZ. by replace (Z.to_nat (b - a)) with 0%nat by lia.
Qed.

Lemma part_path_inj (path_to : string) : Inj (=) (=) (part_path path_to).
Proof.
  intros i j H. unfold part_path in H.
  apply String.app_inj in H. apply String.app_inj in H.
  by apply pretty_Z_inj in H.
Qed.

Lemma part_path_0 (path_to : string) :
  part_path path_to 0 = path_to +:+ ".0".
Proof. reflexivity. Qed.

Lemma append_length (a b : string) :
  String.length (a +:+ b) = (String.length a + String.length b)%nat.
Proof. induction a as [|c a IH]; simpl; [done|]. by rewrite IH. Qed.

Lemma part_path_not_dest (path_to : string) (i : Z) :
  part_path path_to i ≠ path_to.
Proof.
  intros H. apply (f_equal String.length) in H.
  unfold part_path in H. rewrite append_length in H. simpl in H. lia.
Qed.

(** C5, as the code has it: with slice 0 missing when the merge starts,
    [merge_files] does not fail: opening slice 0 for appending creates
    it, empty, slice 1 is appended and the file is renamed to the
    destination, which then lacks the first slice. *)
Theorem merge_without_first_slice :
  merge_files unlimited "dst" 2 {[ "dst.1"%string := [x03; x04] ]}
  = ({[ "dst"%string := [x03; x04] ]}, Returned tt).
Proof. vm_compute. reflexivity. Qed.

Lemma append_slices_missing (dest_file : string) (slices : list Z) (fs : FS)
    (i : Z) :
  i ∈ slices → Forall (λ j, j ≠ 0) slices →
  fs !! part_path dest_file i = None →
  snd (append_slices dest_file slices fs) = Raised
  ∧ fst (append_slices dest_file slices fs) !! dest_file = fs !! dest_file.
Proof.
  revert fs. induction slices as [|j rest IH]; intros fs Hi Hnz Hmiss.
  - by apply elem_of_nil in Hi.
  - apply Forall_cons in Hnz as [Hj Hnz]. simpl.
    destruct (fs !! part_path dest_file j) as [data|] eqn:Ej; [|done].
    assert (i ≠ j) by congruence.
    apply elem_of_cons in Hi as [->|Hi]; [done|].
    assert (i ≠ 0).
    { rewrite Forall_forall in Hnz. by apply Hnz. }
    destruct (IH (delete (part_path dest_file j)
                    (alter (λ old, old ++ data) (dest_file +:+ ".0") fs)))
      as [Hr Hd]; [done|done| |].
    + rewrite lookup_delete_ne by (intros E; by apply part_path_inj in E).
      rewrite lookup_alter_ne; [done|].
      rewrite <- part_path_0. intros E; by apply part_path_inj in E.
    + split; [done|]. rewrite Hd.
      rewrite lookup_delete_ne by apply part_path_not_dest.
      rewrite lookup_alter_ne; [done|].
      rewrite <- part_path_0. apply part_path_not_dest.
Qed.

(** X14: a slice other than the first that is missing when the merge
    starts makes [merge_files] raise, and the destination is left as it
    was: the rename is not reached. *)
Lemma merge_missing_slice_raises (host : Host) (dest_file : string)
    (parts i : Z) (fs : FS) :
  1 ≤ i < parts → fs !! part_path dest_file i = None →
  snd (merge_files host dest_file parts fs) = Raised
  ∧ fst (merge_files host dest_file parts fs) !! dest_file = fs !! dest_file.
Proof.
  intros Hi Hmiss. unfold merge_files.
  destruct (open_append host (dest_file +:+ ".0") fs) as [fs0|] eqn:Eopen;
    [|done].
  assert (H0 : fs0 !! part_path dest_file i = None
               ∧ fs0 !! dest_file = fs !! dest_file).
  { unfold open_append in Eopen.
    destruct (fs !! (dest_file +:+ ".0")); [by simplify_eq|].
    destruct (can_create host (dest_file +:+ ".0")); simplify_eq.
    rewrite <- part_path_0. split.
    - rewrite lookup_insert_ne; [done|].
      intros E; apply part_path_inj in E; lia.
    - rewrite lookup_insert_ne; [done|]. apply part_path_not_dest. }
  destruct H0 as [H0 H0'].
  destruct (append_slices_missing dest_file (range 1 parts) fs0 i)
    as [Hr Hd]; [| |done|].
  - apply elem_of_seqZ. lia.
  - apply Forall_forall. intros j Hj. apply elem_of_seqZ in Hj. lia.
  - destruct (append_slices dest_file (range 1 parts) fs0) as [fs1 r].
    simpl in *. subst r. simpl. split; [done|]. congruence.
Qed.

Lemma merge_missing_slice_raises_witness :
  snd (merge_files unlimited "dst" 3
         {[ "dst.0"%string := [x01; x02]; "dst.1"%string := [x03; x04];
            "dst"%string := [x09] ]}) = Raised
  ∧ fst (merge_files unlimited "dst" 3
           {[ "dst.0"%string := [x01; x02]; "dst.1"%string := [x03; x04];
              "dst"%string := [x09] ]}) !! "dst"%string
    = ({[ "dst.0"%string := [x01; x02]; "dst.1"%string := [x03; x04];
          "dst"%string := [x09] ]} : FS) !! "dst"%string.
Proof.
  apply (merge_missing_slice_raises unlimited "dst" 3 2
           {[ "dst.0"%string := [x01; x02]; "dst.1"%string := [x03; x04];
              "dst"%string := [x09] ]}).
  - lia.
  - vm_compute. reflexivity.
Defined.

(** C6, as the code has it: with [parts = 0] the program does not fail
    fast.  No worker is spawned, the merge runs, and a partition file 0
    that is there, left by an earlier run, is renamed to the destination,
    whose content is lost; [main] returns normally. *)
Lemma no_parts_replaces_destination :
  main unlimited (mkSchedule 0 (λ _, quiet)) "src" "dst" 0
    {[ "src"%string := [x01; x02; x03]; "dst.0"%string := [x07];
       "dst"%string := [x09] ]}
  = Some ({[ "src"%string := [x01; x02; x03]; "dst"%string := [x07] ]},
          Returned tt).
Proof. vm_compute. reflexivity. Qed.

(** C6, amended: the part count is not checked.  For a part count of
    zero or less and a source that exists, no worker is started and no
    handle is made, no file is touched before the merge, and the program
    goes on to the merge: what [merge_files] makes of the files as they
    were is the outcome of [main].  With a partition file 0 there,
    [main] returns normally, that file is renamed to the destination and
    the destination holds what it held. *)
Theorem nonpositive_parts_still_merge (host : Host) (sch : Schedule)
    (source_file destination_file : string) (parts : Z) (fs : FS)
    (src : list byte) :
  parts ≤ 0 → fs !! source_file = Some src →
  spawn_children host source_file destination_file parts
    (Z.of_nat (length src)) = ([], Returned [])
  ∧ run_workers host sch [] fs = Some fs
  ∧ main host sch source_file destination_file parts fs
    = Some (merge_files host destination_file parts fs)
  ∧ (∀ data, fs !! part_path destination_file 0 = Some data →
       main host sch source_file destination_file parts fs
       = Some (<[destination_file := data]>
                 (delete (part_path destination_file 0) fs),
               Returned tt)).
Proof.
  intros Hparts Hsrc.
  assert (Hsp : spawn_children host source_file destination_file parts
                  (Z.of_nat (length src)) = ([], Returned [])).
  { unfold spawn_children. by rewrite range_empty by lia. }
  assert (Hmain : main host sch source_file destination_file parts fs
                  = Some (merge_files host destination_file parts fs)).
  { unfold main. by rewrite Hsrc, Hsp. }
  split; [done|]. split; [done|]. split; [done|].
  intros data H0. rewrite Hmain. f_equal.
  rewrite part_path_0 in *.
  unfold merge_files, open_append. rewrite H0.
  rewrite range_empty by lia. simpl. unfold rename. by rewrite H0.
Qed.

Lemma nonpositive_parts_still_merge_witness :
  main unlimited (mkSchedule 0 (λ _, quiet)) "src" "dst" (-2)
    {[ "src"%string := [x01; x02; x03]; "dst.0"%string := [x07] ]}
  = Some (<["dst"%string := [x07]]>
            (delete (part_path "dst" 0)
               ({[ "src"%string := [x01; x02; x03];
                   "dst.0"%string := [x07] ]} : FS)),
          Returned tt).
Proof.
  apply (nonpositive_parts_still_merge unlimited (mkSchedule 0 (λ _, quiet))
           "src" "dst" (-2)
           {[ "src"%string := [x01; x02; x03]; "dst.0"%string := [x07] ]}
           [x01; x02; x03]).
  - lia.
  - reflexivity.
  - vm_compute. reflexivity.
Defined.

Lemma take_app_drop {A} (l : list A) (n m : nat) :
  take n l ++ take m (drop n l) = take (n + m) l.
Proof.
  revert n; induction l as [|x l IH]; intros [|n]; simpl;
    rewrite ?take_nil; auto.
  f_equal. apply IH.
Qed.

Lemma slice_app (src : list byte) (a c d : Z) :
  0 ≤ a ≤ c → c ≤ d → slice src a c ++ slice src c d = slice src a d.
Proof.
  intros Hac Hcd. unfold slice.
  replace (Z.to_nat c) with (Z.to_nat a + Z.to_nat (c - a))%nat by lia.
  rewrite <- drop_drop, take_app_drop. f_equal. lia.
Qed.

(** The loop of the merge, run on slices that are all there: slice 0
    receives them in the order of the list, and they are removed. *)
Lemma append_slices_returns (dest_file : string) (held : Z → list byte)
    (slices : list Z) (fs : FS) (acc : list byte) :
  NoDup slices → Forall (λ j, j ≠ 0) slices →
  fs !! (dest_file +:+ ".0") = Some acc →
  (∀ i, i ∈ slices → fs !! part_path dest_file i = Some (held i)) →
  ∃ fs1,
    append_slices dest_file slices fs = (fs1, Returned tt)
    ∧ fs1 !! (dest_file +:+ ".0") = Some (acc ++ concat (held <$> slices))
    ∧ (∀ path, path ≠ dest_file +:+ ".0" →
         (∀ i, i ∈ slices → path ≠ part_path dest_file i) →
         fs1 !! path = fs !! path).
Proof.
  revert fs acc.
  induction slices as [|j rest IH]; intros fs acc Hnd Hnz Hacc Hheld; simpl.
  - exists fs. rewrite app_nil_r. repeat split; done.
  - apply NoDup_cons in Hnd as [Hj Hnd].
    apply Forall_cons in Hnz as [Hj0 Hnz].
    rewrite (Hheld j) by left.
    set (fs' := delete (part_path dest_file j)
                  (alter (λ old, old ++ held j) (dest_file +:+ ".0") fs)).
    assert (Hne : part_path dest_file j ≠ dest_file +:+ ".0").
    { rewrite <- part_path_0. intros E. by apply part_path_inj in E. }
    destruct (IH fs' (acc ++ held j) Hnd Hnz) as (fs1 & -> & H0 & Hframe).
    + unfold fs'. rewrite lookup_delete_ne by done.
      by rewrite lookup_alter_eq, Hacc.
    + intros i Hi. unfold fs'.
      rewrite lookup_delete_ne
        by (intros E; apply part_path_inj in E; by subst).
      rewrite lookup_alter_ne.
      * apply Hheld. by right.
      * rewrite <- part_path_0. intros E. apply part_path_inj in E.
        rewrite Forall_forall in Hnz. by apply (Hnz i).
    + exists fs1. split; [done|]. split.
      * by rewrite H0, <- app_assoc.
      * intros path Hp0 Hp. rewrite Hframe; [|done|].
        -- unfold fs'. rewrite lookup_delete_ne by (apply not_eq_sym, Hp; left).
           by rewrite lookup_alter_ne.
        -- intros i Hi. apply Hp. by right.
Qed.

(** *** The workers and the merge together

    The boundaries [b 0], ..., [b parts] are what [getpos] computes for a
    source of [length src] bytes.  They are assumed to be in order here,
    and no more.  The source is none of the files written, the partition
    files can be created and the workers started. *)
Section CopyAndMerge.

Variable host : Host.
Variable sch : Schedule.
Variables source_file destination_file : string.
Variable parts : Z.
Variable src : list byte.
Variable b : Z → Z.

Hypothesis source_apart :
  source_file ≠ destination_file
  ∧ ∀ i, source_file ≠ part_path destination_file i.
Hypothesis creatable :
  ∀ i, 0 ≤ i < parts → can_create host (part_path destination_file i) = true.
Hypothesis startable : ∀ i, 0 ≤ i < parts → can_start host i = true.
Hypothesis planned :
  ∀ i, 0 ≤ i ≤ parts → getpos i parts (Z.of_nat (length src)) = Some (b i).
Hypothesis starts_nonneg : 0 ≤ b 0.
Hypothesis in_order : ∀ i, 0 ≤ i < parts → b i ≤ b (i + 1).
Hypothesis enough_fuel :
  ∀ i, 0 ≤ i < parts →
    (Z.to_nat ((b (i + 1) - b i) / default_block_size) + 1 ≤ fuel sch)%nat.

Lemma boundaries_nonneg (i : Z) : 0 ≤ i ≤ parts → 0 ≤ b i.
Proof.
  intros [H0 Hi]. revert Hi. pattern i. apply natlike_ind; [|clear i H0|done].
  - intros _. exact starts_nonneg.
  - intros i Hi IH Hs. specialize (in_order i). unfold Z.succ in *. lia.
Qed.

Lemma offsets_planned (i : Z) :
  0 ≤ i < parts →
  get_copy_offsets i parts (Z.of_nat (length src))
  = Some (b i, b (i + 1), b (i + 1) - b i).
Proof.
  intros Hi. unfold get_copy_offsets.
  rewrite (planned i), (planned (i + 1)) by lia. reflexivity.
Qed.

(** The worker of part [i] leaves the planned slice in its file. *)
Lemma partial_copy_planned (i : Z) (fs : FS) :
  0 ≤ i < parts → fs !! source_file = Some src →
  ∃ r, partial_copy host (fuel sch) (env sch i) source_file destination_file
         (Z.of_nat (length src)) i parts (mkPipe [] []) default_block_size fs
       = Some (<[part_path destination_file i := slice src (b i) (b (i + 1))]> fs,
               r).
Proof.
  intros Hi Hsrc. unfold partial_copy. rewrite Hsrc.
  assert (Hopen : open_write host (part_path destination_file i) fs
                  = Some (<[part_path destination_file i := []]> fs)).
  { unfold open_write. rewrite (creatable i Hi).
    by destruct (fs !! part_path destination_file i). }
  rewrite Hopen.
  rewrite lookup_insert_ne by (apply not_eq_sym, source_apart).
  rewrite Hsrc. cbn [default from_option id].
  pose proof (boundaries_nonneg i ltac:(lia)) as Hbi.
  destruct (copy_slice_returns src _ _ _ _ _ _ (env sch i) (mkPipe [] [])
              (offsets_planned i Hi) Hbi)
    as (output1 & w1 & Hrun & Hinv & Hbr).
  { specialize (in_order i Hi). lia. }
  rewrite (Hrun _ (enough_fuel i Hi)). simpl.
  destruct Hinv as (_ & _ & Hf & _). rewrite Hf, Hbr.
  rewrite insert_insert_eq. eauto.
Qed.

(** The workers of the parts [procs], run in that order. *)
Lemma run_workers_planned (procs : list Z) (fs : FS) :
  Forall (λ i, 0 ≤ i < parts) procs → fs !! source_file = Some src →
  ∃ fs1,
    run_workers host sch
      ((λ i, mkJob source_file destination_file (Z.of_nat (length src)) i
               parts) <$> procs) fs = Some fs1
    ∧ fs1 !! source_file = Some src
    ∧ (∀ i, i ∈ procs →
         fs1 !! part_path destination_file i
         = Some (slice src (b i) (b (i + 1))))
    ∧ (∀ path, (∀ i, i ∈ procs → path ≠ part_path destination_file i) →
         fs1 !! path = fs !! path).
Proof.
  revert fs.
  induction procs as [|i rest IH]; intros fs Hall Hsrc; simpl.
  - exists fs. repeat split; try done.
    intros i Hi. by apply elem_of_nil in Hi.
  - apply Forall_cons in Hall as [Hi Hall].
    destruct (partial_copy_planned i fs Hi Hsrc) as [r ->]. simpl.
    set (fs' := <[part_path destination_file i := slice src (b i) (b (i + 1))]> fs).
    assert (Hsrc' : fs' !! source_file = Some src).
    { unfold fs'. rewrite lookup_insert_ne; [done|].
      intros E. by apply (proj2 source_apart i). }
    destruct (IH fs' Hall Hsrc') as (fs1 & Hrun & Hs1 & Hparts & Hframe).
    exists fs1. split; [exact Hrun|]. split; [done|]. split.
    + intros j Hj.
      destruct (decide (j ∈ rest)) as [Hin|Hnin]; [by apply Hparts|].
      apply elem_of_cons in Hj as [->|Hj]; [|done].
      rewrite Hframe.
      * unfold fs'. by rewrite lookup_insert_eq.
      * intros k Hk E. apply part_path_inj in E. by subst.
    + intros path Hpath. rewrite Hframe.
      * unfold fs'. rewrite lookup_insert_ne; [done|].
        intros E. apply (Hpath i); [left|done].
      * intros k Hk. apply Hpath. by right.
Qed.

(** [spawn_children] starts the worker of every part and makes the
    handles, which hold the planned lengths. *)
Lemma spawn_children_from_handles (procs : list Z) (started : list Job)
    (children : list Child) :
  Forall (λ i, 0 ≤ i < parts) procs →
  spawn_children_from host procs source_file destination_file parts
    (Z.of_nat (length src)) started children
  = (started
     ++ ((λ i, mkJob source_file destination_file (Z.of_nat (length src)) i
                 parts) <$> procs),
     Returned (children ++ ((λ i, mkChild 0 (b (i + 1) - b i)) <$> procs))).
Proof.
  revert started children.
  induction procs as [|i rest IH]; intros started children Hall; simpl.
  - by rewrite !app_nil_r.
  - apply Forall_cons in Hall as [Hi Hall].
    rewrite (startable i Hi), (offsets_planned i Hi).
    rewrite IH by done. by rewrite <- !app_assoc.
Qed.

Lemma boundaries_mono (i : Z) (k : nat) :
  0 ≤ i → i + Z.of_nat k ≤ parts → b i ≤ b (i + Z.of_nat k).
Proof.
  intros Hi. induction k as [|k IH]; intros Hk.
  - by rewrite Z.add_0_r.
  - etransitivity; [apply IH; lia|].
    replace (i + Z.of_nat (S k)) with (i + Z.of_nat k + 1) by lia.
    apply in_order. lia.
Qed.

Lemma slices_concat (n : nat) (m : Z) :
  0 ≤ m → m + Z.of_nat n ≤ parts →
  concat ((λ i, slice src (b i) (b (i + 1))) <$> seqZ m (Z.of_nat n))
  = slice src (b m) (b (m + Z.of_nat n)).
Proof.
  revert m. induction n as [|n IH]; intros m Hm Hn.
  - simpl. rewrite Z.add_0_r. unfold slice.
    by replace (Z.to_nat (b m - b m)) with 0%nat by lia.
  - rewrite seqZ_cons by lia. simpl.
    replace (Z.pred (Z.of_nat (S n))) with (Z.of_nat n) by lia.
    rewrite IH by lia.
    replace (Z.succ m + Z.of_nat n) with (m + Z.of_nat (S n)) by lia.
    replace (Z.succ m) with (m + 1) by lia.
    apply slice_app.
    + split; [apply boundaries_nonneg; lia|apply in_order; lia].
    + replace (m + Z.of_nat (S n)) with (m + 1 + Z.of_nat n) by lia.
      apply boundaries_mono; lia.
Qed.

(** [main] up to the merge: every worker is started and has left its
    slice in its file; what is left to do is the merge. *)
Lemma main_up_to_merge (fs : FS) :
  fs !! source_file = Some src →
  ∃ fs1,
    main host sch source_file destination_file parts fs
    = Some (merge_files host destination_file parts fs1)
    ∧ fs1 !! source_file = Some src
    ∧ (∀ i, 0 ≤ i < parts →
         fs1 !! part_path destination_file i
         = Some (slice src (b i) (b (i + 1))))
    ∧ (∀ path, (∀ i, 0 ≤ i < parts → path ≠ part_path destination_file i) →
         fs1 !! path = fs !! path).
Proof.
  intros Hsrc. unfold main, spawn_children. rewrite Hsrc.
  assert (Hall : Forall (λ i, 0 ≤ i < parts) (range 0 parts)).
  { apply Forall_forall. intros i Hi. apply elem_of_seqZ in Hi. lia. }
  rewrite (spawn_children_from_handles (range 0 parts) [] [] Hall).
  rewrite app_nil_l.
  destruct (run_workers_planned (range 0 parts) fs Hall Hsrc)
    as (fs1 & -> & Hs1 & Hheld & Hframe).
  simpl. exists fs1. split; [done|]. split; [done|]. split.
  - intros i Hi. apply Hheld. apply elem_of_seqZ. lia.
  - intros path Hpath. apply Hframe. intros i Hi. apply Hpath.
    apply elem_of_seqZ in Hi. lia.
Qed.

(** With at least one part, [main] returns normally; the destination
    holds the bytes of the source between the first and the last
    boundary, and the source is as it was. *)
Lemma main_copies_planned_range (fs : FS) :
  1 ≤ parts → fs !! source_file = Some src →
  ∃ fs1,
    main host sch source_file destination_file parts fs
    = Some (fs1, Returned tt)
    ∧ fs1 !! destination_file = Some (slice src (b 0) (b parts))
    ∧ fs1 !! source_file = Some src.
Proof.
  intros Hparts Hsrc.
  destruct (main_up_to_merge fs Hsrc) as (fs1 & -> & Hs1 & Hheld & Hframe).
  unfold merge_files, open_append.
  assert (H0 : fs1 !! (destination_file +:+ ".0")
               = Some (slice src (b 0) (b (0 + 1)))).
  { rewrite <- part_path_0. apply Hheld. lia. }
  rewrite H0.
  destruct (append_slices_returns destination_file
              (λ i, slice src (b i) (b (i + 1))) (range 1 parts) fs1 _
              (NoDup_seqZ _ _) ltac:(apply Forall_forall; intros j Hj;
                                     apply elem_of_seqZ in Hj; lia) H0)
    as (fs2 & -> & Hm & Hframe2).
  { intros i Hi. apply Hheld. apply elem_of_seqZ in Hi. lia. }
  unfold rename. rewrite Hm.
  eexists. split; [done|]. split.
  - rewrite lookup_insert_eq. f_equal.
    unfold range.
    replace (parts - 1) with (Z.of_nat (Z.to_nat (parts - 1))) by lia.
    rewrite slices_concat by lia.
    replace (1 + Z.of_nat (Z.to_nat (parts - 1))) with parts by lia.
    apply slice_app; [|].
    + split; [done|apply (in_order 0); lia].
    + replace parts with (0 + 1 + Z.of_nat (Z.to_nat (parts - 1))) by lia.
      apply boundaries_mono; lia.
  - rewrite lookup_insert_ne by (apply not_eq_sym, source_apart).
    rewrite lookup_delete_ne.
    + rewrite Hframe2; [done| |].
      * rewrite <- part_path_0. apply source_apart.
      * intros i _. apply source_apart.
    + rewrite <- part_path_0. apply not_eq_sym, source_apart.
Qed.

(** The round trip, for boundaries that start at 0 and end at the size
    of the source. *)
Lemma roundtrip_of_exact_plan (fs : FS) :
  1 ≤ parts → fs !! source_file = Some src →
  b 0 = 0 → b parts = Z.of_nat (length src) →
  ∃ fs1,
    main host sch source_file destination_file parts fs
    = Some (fs1, Returned tt)
    ∧ fs1 !! destination_file = Some src
    ∧ fs1 !! source_file = Some src.
Proof.
  intros Hparts Hsrc Hb0 HbN.
  destruct (main_copies_planned_range fs Hparts Hsrc)
    as (fs1 & Hmain & Hdst & Hs).
  exists fs1. split; [done|]. split; [|done].
  rewrite Hdst. f_equal. unfold slice. rewrite Hb0, HbN. simpl.
  rewrite Z.sub_0_r, Nat2Z.id. apply firstn_all.
Qed.

End CopyAndMerge.

Lemma source_apart_src_dst :
  "src"%string ≠ "dst"%string ∧ ∀ i, "src"%string ≠ part_path "dst" i.
Proof. split; [done|]. intros i. unfold part_path. simpl. discriminate. Qed.

(** One part, a source of 2^53 + 1 bytes: the worker plans and copies
    2^53 of them. *)
Lemma single_part_of_huge_source (n_src n_fuel : nat) (fs : FS) :
  Z.of_nat n_src = 9007199254740993 → Z.of_nat n_fuel = 8589934593 →
  fs !! "src"%string = Some (repeat x00 n_src) →
  ∃ fs1 out,
    main unlimited (mkSchedule n_fuel (λ _, quiet)) "src" "dst" 1 fs
    = Some (fs1, Returned tt)
    ∧ fs1 !! "dst"%string = Some out
    ∧ Z.of_nat (length out) = 9007199254740992.
Proof.
  intros Hsrc Hfuel Hfs.
  destruct (main_copies_planned_range unlimited
              (mkSchedule n_fuel (λ _, quiet)) "src" "dst" 1
              (repeat x00 n_src)
              (λ i, if i =? 0 then 0 else 9007199254740992)
              source_apart_src_dst) with (fs := fs)
    as (fs1 & Hmain & Hdst & _); try done.
  - intros i Hi. rewrite repeat_length, Hsrc.
    assert (i = 0 ∨ i = 1) as [-> | ->] by lia; vm_compute; reflexivity.
  - intros i Hi. assert (i = 0) as -> by lia. simpl. lia.
  - intros i Hi. assert (i = 0) as -> by lia. cbn [fuel].
    replace (((if 0 + 1 =? 0 then 0 else 9007199254740992)
              - (if 0 =? 0 then 0 else 9007199254740992))
             / default_block_size) with 8589934592
      by (vm_compute; reflexivity).
    lia.
  - exists fs1. eexists. split; [exact Hmain|]. split; [exact Hdst|].
    unfold slice. rewrite length_take, length_drop, repeat_length.
    change (if 0 =? 0 then 0 else 9007199254740992) with 0.
    change (if 1 =? 0 then 0 else 9007199254740992) with 9007199254740992.
    lia.
Qed.

(** C1, as the code has it: a source of 2^53 + 1 bytes copied in one part.
    The worker runs its 2^33 iterations, the merge renames its file, and
    the destination holds 2^53 bytes: the last byte of the source is not
    copied. *)
Theorem roundtrip_drops_last_byte :
  ∃ fs1 out,
    main unlimited (mkSchedule (Z.to_nat 8589934593) (λ _, quiet)) "src"
      "dst" 1 {[ "src"%string := repeat x00 (Z.to_nat 9007199254740993) ]}
    = Some (fs1, Returned tt)
    ∧ fs1 !! "dst"%string = Some out
    ∧ Z.of_nat (length out) = 9007199254740992
    ∧ Z.of_nat (length (repeat x00 (Z.to_nat 9007199254740993)))
      = 9007199254740993.
Proof.
  destruct (single_part_of_huge_source (Z.to_nat 9007199254740993)
              (Z.to_nat 8589934593)
              {[ "src"%string := repeat x00 (Z.to_nat 9007199254740993) ]})
    as (fs1 & out & Hmain & Hdst & Hlen).
  - apply Z2Nat.id. discriminate.
  - apply Z2Nat.id. discriminate.
  - apply lookup_singleton_eq.
  - exists fs1, out.
    split; [exact Hmain|]. split; [exact Hdst|]. split; [exact Hlen|].
    rewrite repeat_length. apply Z2Nat.id. discriminate.
Qed.

(** ** Properties of the coordinator's sum *)

(** What [tick] hands to the progress bar is the sum of the cached counts
    after the updates. *)
Lemma tick_total (chans : list (bool * Pipe * Child)) (acc : Z)
    (done : list (Pipe * Child)) (total : Z) :
  tick chans acc = Some (done, total) →
  total = acc + foldr Z.add 0 (bytes_copied ∘ snd <$> done)
  ∧ length done = length chans.
Proof.
  revert acc done total.
  induction chans as [|[[alive p] c] rest IH]; intros acc done total; simpl.
  - intros [= <- <-]. simpl. split; [lia|done].
  - destruct (update alive p c) as [[p1 c1]|]; [|done]. simpl.
    destruct (tick rest (acc + bytes_copied c1)) as [[done' total']|] eqn:E;
      [|done].
    simpl. intros [= <- <-]. apply IH in E as [-> Hlen]. simpl.
    split; [symmetry; apply Z.add_assoc|by rewrite Hlen].
Qed.

(** For handles and pipes as they are at some point of a run, every one
    for a planned length that is not negative, the sum of a tick is at
    most the sum of the planned lengths. *)
Lemma tick_within_planned (block_size : Z)
    (chans : list (bool * Pipe * Child)) (acc : Z)
    (done : list (Pipe * Child)) (total : Z) :
  0 < block_size →
  Forall (λ '(alive, p, c),
            ∃ proc, is_alive proc = alive
                    ∧ chan_inv (bytes_to_copy c) (mkChannel proc p c)) chans →
  tick chans acc = Some (done, total) →
  total ≤ acc + foldr Z.add 0 ((λ '(_, _, c), bytes_to_copy c) <$> chans).
Proof.
  intros Hbs. revert acc done total.
  induction chans as [|[[alive p] c] rest IH]; intros acc done total Hall;
    simpl.
  - intros [= <- <-]. lia.
  - apply Forall_cons in Hall as [(proc & Hal & Hinv) Hall].
    assert (Hnn : 0 ≤ bytes_to_copy c).
    { destruct Hinv as (_ & Hc & _). simpl in Hc. lia. }
    destruct (update alive p c) as [[p1 c1]|] eqn:Eu; [|done]. simpl.
    destruct (tick rest (acc + bytes_copied c1)) as [[done' total']|] eqn:E;
      [|done].
    simpl. intros [= <- <-]. apply IH in E; [|done].
    destruct (step_inv block_size (bytes_to_copy c) Hbs Hnn Update
                (mkChannel proc p c) (mkChannel proc p1 c1) Hinv)
      as [(Hto & Hc & _) _].
    { simpl. rewrite Hal, Eu. by destruct proc. }
    cbn [child bytes_copied] in Hc.
    change (foldr Z.add 0
              (list_fmap (bool * Pipe * Child)%type Z
                 (λ '(_, _, c0), bytes_to_copy c0) rest))
      with (foldr Z.add 0 ((λ '(_, _, c), bytes_to_copy c) <$> rest)).
    revert E. generalize (foldr Z.add 0 ((λ '(_, _, c), bytes_to_copy c) <$> rest)).
    intros. lia.
Qed.

(** C10, as the code has it: for a source of 2^53 + 3 bytes copied in one
    part the planned length of the worker is 2^53 + 4, one more than the
    size of the file; once the worker is no longer alive the update sets
    the cached count to it, and the sum given to the progress display is
    above the size of the source. *)
Theorem progress_sum_exceeds_file_size :
  get_copy_offsets 0 1 9007199254740995
  = Some (0, 9007199254740996, 9007199254740996)
  ∧ tick [(false, mkPipe [] [], mkChild 0 9007199254740996)] 0
    = Some ([(mkPipe [] [], mkChild 9007199254740996 9007199254740996)],
            9007199254740996)
  ∧ 9007199254740995 < 9007199254740996.
Proof. vm_compute. repeat split. Qed.

(** ** The plan, the copy and the sum for sizes that are doubles

    Up to 2^53 every count and every size is a double, and the drift of
    the last boundary does not happen. *)

Lemma boundary_planned (N f i : Z) :
  1 ≤ N ≤ 2 ^ 53 → 0 ≤ f ≤ 2 ^ 53 → 0 ≤ i ≤ N →
  getpos i N f = Some (boundary N f i).
Proof.
  intros HN Hf Hi. unfold boundary.
  destruct (Z.eq_dec i N) as [->|].
  - by rewrite getpos_last.
  - destruct (getpos_in_order i N f) as (a & c & -> & _); try lia. done.
Qed.

Lemma boundary_in_order (N f i : Z) :
  1 ≤ N ≤ 2 ^ 53 → 0 ≤ f ≤ 2 ^ 53 → 0 ≤ i < N →
  0 ≤ boundary N f i ≤ boundary N f (i + 1).
Proof.
  intros HN Hf Hi. unfold boundary.
  destruct (getpos_in_order i N f) as (a & c & -> & -> & Hac); try lia.
  simpl. lia.
Qed.

Lemma boundary_first (N f : Z) :
  1 ≤ N ≤ 2 ^ 53 → 0 ≤ f ≤ 2 ^ 53 → boundary N f 0 = 0.
Proof. intros HN Hf. unfold boundary. by rewrite getpos_first. Qed.

Lemma boundary_last (N f : Z) :
  1 ≤ N ≤ 2 ^ 53 → 0 ≤ f ≤ 2 ^ 53 → boundary N f N = f.
Proof. intros HN Hf. unfold boundary. by rewrite getpos_last. Qed.

Lemma boundary_mono (N f i : Z) (k : nat) :
  1 ≤ N ≤ 2 ^ 53 → 0 ≤ f ≤ 2 ^ 53 → 0 ≤ i → i + Z.of_nat k ≤ N →
  boundary N f i ≤ boundary N f (i + Z.of_nat k).
Proof.
  intros HN Hf Hi Hk. apply (boundaries_mono N); [|done|done].
  intros j Hj. by apply boundary_in_order.
Qed.

Lemma boundary_within (N f i : Z) :
  1 ≤ N ≤ 2 ^ 53 → 0 ≤ f ≤ 2 ^ 53 → 0 ≤ i ≤ N → 0 ≤ boundary N f i ≤ f.
Proof.
  intros HN Hf Hi. split.
  - pose proof (boundary_mono N f 0 (Z.to_nat i) HN Hf ltac:(lia) ltac:(lia))
      as H.
    rewrite boundary_first in H by done.
    by replace (0 + Z.of_nat (Z.to_nat i)) with i in H by lia.
  - pose proof (boundary_mono N f i (Z.to_nat (N - i)) HN Hf ltac:(lia)
                  ltac:(lia)) as H.
    replace (i + Z.of_nat (Z.to_nat (N - i))) with N in H by lia.
    by rewrite boundary_last in H.
Qed.

Lemma offsets_of_double_size (N f i : Z) :
  1 ≤ N ≤ 2 ^ 53 → 0 ≤ f ≤ 2 ^ 53 → 0 ≤ i < N →
  get_copy_offsets i N f
  = Some (boundary N f i, boundary N f (i + 1),
          boundary N f (i + 1) - boundary N f i).
Proof.
  intros HN Hf Hi. unfold get_copy_offsets.
  rewrite (boundary_planned N f i), (boundary_planned N f (i + 1)) by lia.
  reflexivity.
Qed.

Lemma planned_lengths_sum (N f : Z) :
  1 ≤ N ≤ 2 ^ 53 → 0 ≤ f ≤ 2 ^ 53 →
  foldr Z.add 0 ((λ i, boundary N f (i + 1) - boundary N f i) <$> range 0 N)
  = f.
Proof.
  intros HN Hf.
  unfold range. replace (N - 0) with (Z.of_nat (Z.to_nat N)) by lia.
  rewrite (lengths_telescope (boundary N f)).
  replace (0 + Z.of_nat (Z.to_nat N)) with N by lia.
  rewrite boundary_first, boundary_last by done. lia.
Qed.

(** X1: the plan of a file of at most 2^53 bytes in at most 2^53 parts: the
    ranges follow one another from 0 to the size of the file, none ends
    before it starts, and their lengths add up to the size. *)
Theorem partition_of_double_size (N f : Z) :
  1 ≤ N ≤ 2 ^ 53 → 0 ≤ f ≤ 2 ^ 53 →
  (∀ i, 0 ≤ i < N →
     get_copy_offsets i N f
     = Some (boundary N f i, boundary N f (i + 1),
             boundary N f (i + 1) - boundary N f i)
     ∧ boundary N f i ≤ boundary N f (i + 1))
  ∧ boundary N f 0 = 0
  ∧ boundary N f N = f
  ∧ foldr Z.add 0
      ((λ i, boundary N f (i + 1) - boundary N f i) <$> range 0 N) = f.
Proof.
  intros HN Hf.
  split; [|split; [by apply boundary_first|split; [by apply boundary_last|]]].
  - intros i Hi. split; [|by apply boundary_in_order].
    by apply offsets_of_double_size.
  - by apply planned_lengths_sum.
Qed.

Lemma partition_of_double_size_witness :
  get_copy_offsets 1 3 7
  = Some (boundary 3 7 1, boundary 3 7 (1 + 1),
          boundary 3 7 (1 + 1) - boundary 3 7 1)
  ∧ boundary 3 7 3 = 7.
Proof.
  destruct (partition_of_double_size 3 7) as (Hoff & _ & Hlast & _).
  - split; [lia|]. by apply Z.lt_le_incl.
  - split; [lia|]. by apply Z.lt_le_incl.
  - split; [|exact Hlast]. apply Hoff. lia.
Defined.

(** What the lemmas on the workers and the merge ask of a plan, for the
    boundaries that the code computes. *)
Lemma double_size_plan (sch : Schedule) (N : Z) (src : list byte) :
  1 ≤ N ≤ 2 ^ 53 → Z.of_nat (length src) ≤ 2 ^ 53 →
  (Z.to_nat (Z.of_nat (length src) / default_block_size) + 1 ≤ fuel sch)%nat →
  (∀ i, 0 ≤ i ≤ N →
     getpos i N (Z.of_nat (length src))
     = Some (boundary N (Z.of_nat (length src)) i))
  ∧ 0 ≤ boundary N (Z.of_nat (length src)) 0
  ∧ (∀ i, 0 ≤ i < N →
       boundary N (Z.of_nat (length src)) i
       ≤ boundary N (Z.of_nat (length src)) (i + 1))
  ∧ (∀ i, 0 ≤ i < N →
       (Z.to_nat ((boundary N (Z.of_nat (length src)) (i + 1)
                   - boundary N (Z.of_nat (length src)) i)
                  / default_block_size) + 1 ≤ fuel sch)%nat).
Proof.
  intros HN Hf Hfuel.
  set (f := Z.of_nat (length src)) in *.
  assert (Hf' : 0 ≤ f ≤ 2 ^ 53) by (unfold f; lia).
  split; [intros i Hi; by apply boundary_planned|].
  split; [rewrite boundary_first by done; lia|].
  split; [intros i Hi; by apply boundary_in_order|].
  intros i Hi.
  pose proof (boundary_within N f i HN Hf' ltac:(lia)).
  pose proof (boundary_within N f (i + 1) HN Hf' ltac:(lia)).
  assert ((boundary N f (i + 1) - boundary N f i) / default_block_size
          ≤ f / default_block_size).
  { apply Z.div_le_mono; [reflexivity|lia]. }
  lia.
Qed.

(** X16: the round trip for a source of at most 2^53 bytes copied in at
    most 2^53 parts.  The source and the destination are plain names of
    the working directory, the source is none of the files written, the
    partition files can be created and the workers started: then [main]
    returns and the destination holds the bytes of the source, which is
    as it was. *)
Theorem roundtrip_of_double_size (host : Host) (sch : Schedule)
    (source_file destination_file : string) (parts : Z) (src : list byte)
    (fs : FS) :
  1 ≤ parts ≤ 2 ^ 53 → Z.of_nat (length src) ≤ 2 ^ 53 →
  plain_name source_file → plain_name destination_file →
  source_file ≠ destination_file
  ∧ (∀ i, source_file ≠ part_path destination_file i) →
  (∀ i, 0 ≤ i < parts →
     can_start host i = true
     ∧ can_create host (part_path destination_file i) = true) →
  (Z.to_nat (Z.of_nat (length src) / default_block_size) + 1 ≤ fuel sch)%nat →
  fs !! source_file = Some src →
  ∃ fs1,
    main host sch source_file destination_file parts fs
    = Some (fs1, Returned tt)
    ∧ fs1 !! destination_file = Some src
    ∧ fs1 !! source_file = Some src.
Proof.
  intros HN Hf _ _ Hapart Hhost Hfuel Hsrc.
  destruct (double_size_plan sch parts src HN Hf Hfuel)
    as (Hplan & H0 & Hord & Hfuel').
  apply (roundtrip_of_exact_plan host sch source_file destination_file parts
           src (boundary parts (Z.of_nat (length src))) Hapart
           (λ i Hi, proj2 (Hhost i Hi)) (λ i Hi, proj1 (Hhost i Hi))
           Hplan H0 Hord Hfuel' fs ltac:(lia) Hsrc).
  - apply boundary_first; lia.
  - apply boundary_last; lia.
Qed.

Lemma plain_src_dst : plain_name "src" ∧ plain_name "dst".
Proof. by repeat split. Qed.

Lemma roundtrip_of_double_size_witness :
  ∃ fs1,
    main unlimited (mkSchedule 1 (λ _, quiet)) "src" "dst" 3
      {[ "src"%string := [x01; x02; x03; x04; x05; x06; x07] ]}
    = Some (fs1, Returned tt)
    ∧ fs1 !! "dst"%string = Some [x01; x02; x03; x04; x05; x06; x07]
    ∧ fs1 !! "src"%string = Some [x01; x02; x03; x04; x05; x06; x07].
Proof.
  apply (roundtrip_of_double_size unlimited (mkSchedule 1 (λ _, quiet))
           "src" "dst" 3 [x01; x02; x03; x04; x05; x06; x07]).
  - split; [lia|]. by apply Z.lt_le_incl.
  - by apply Z.lt_le_incl.
  - exact (proj1 plain_src_dst).
  - exact (proj2 plain_src_dst).
  - exact source_apart_src_dst.
  - intros i Hi. split; reflexivity.
  - simpl. lia.
  - reflexivity.
Defined.

(** The sum of a tick, for handles that hold the planned lengths of a
    file of at most 2^53 bytes, at any point of the runs of the workers:
    it is at most the size of the file. *)
Theorem progress_within_double_size (N f : Z)
    (chans : list (bool * Pipe * Child)) (done : list (Pipe * Child))
    (total : Z) :
  1 ≤ N ≤ 2 ^ 53 → 0 ≤ f ≤ 2 ^ 53 →
  (λ '(_, _, c), bytes_to_copy c) <$> chans
  = (λ i, boundary N f (i + 1) - boundary N f i) <$> range 0 N →
  Forall (λ '(alive, p, c),
            ∃ proc, is_alive proc = alive
                    ∧ chan_inv (bytes_to_copy c) (mkChannel proc p c)) chans →
  tick chans 0 = Some (done, total) →
  total ≤ f.
Proof.
  intros HN Hf Hlen Hinv Htick.
  pose proof (tick_within_planned default_block_size chans 0 done total
                eq_refl Hinv Htick) as Hle.
  rewrite Hlen in Hle.
  rewrite (planned_lengths_sum N f HN Hf) in Hle. lia.
Qed.

(** ** The plan at its edges *)

Lemma zero_lengths_count (g : Z → Z) (l : list Z) :
  (∀ i, i ∈ l → 0 ≤ g i) →
  Z.of_nat (length l)
  ≤ Z.of_nat (length (filter (λ i, g i = 0) l)) + foldr Z.add 0 (g <$> l).
Proof.
  induction l as [|i l IH]; intros Hnn; [simpl; lia|].
  assert (Hi : 0 ≤ g i) by (apply Hnn; left).
  assert (IH' : Z.of_nat (length l)
               ≤ Z.of_nat (length (filter (λ i, g i = 0) l))
                 + foldr Z.add 0 (g <$> l)).
  { apply IH. intros j Hj. apply Hnn. by right. }
  rewrite filter_cons. cbn [fmap list_fmap foldr length] in *.
  destruct (decide (g i = 0)) as [E|E]; cbn [length]; lia.
Qed.

Lemma filter_iff_in {A} (P1 P2 : A → Prop) `{!∀ x, Decision (P1 x)}
    `{!∀ x, Decision (P2 x)} (l : list A) :
  (∀ x, x ∈ l → P1 x ↔ P2 x) → filter P1 l = filter P2 l.
Proof.
  induction l as [|x l IH]; intros Hiff; [done|].
  rewrite !filter_cons.
  rewrite IH by (intros y Hy; apply Hiff; by right).
  destruct (decide (P1 x)) as [H1|H1], (decide (P2 x)) as [H2|H2];
    try done; exfalso; [apply H2|apply H1]; by apply (Hiff x); [left|].
Qed.

(** X2: with more parts than the source has bytes, workers are left with
    nothing to copy: in a plan of [N] parts for [f] bytes at least [N - f]
    of the ranges have the length 0. *)
Theorem more_parts_than_bytes (N f : Z) :
  1 ≤ N ≤ 2 ^ 53 → 0 ≤ f ≤ 2 ^ 53 →
  N - f
  ≤ Z.of_nat
      (length (filter (λ i, snd <$> get_copy_offsets i N f = Some 0)
                 (range 0 N))).
Proof.
  intros HN Hf.
  pose proof (zero_lengths_count
                (λ i, boundary N f (i + 1) - boundary N f i) (range 0 N)) as H.
  rewrite planned_lengths_sum in H by done.
  assert (Hlen : length (range 0 N) = Z.to_nat N).
  { unfold range. rewrite length_seqZ. f_equal. lia. }
  rewrite Hlen in H.
  assert (Hnn : ∀ i, i ∈ range 0 N →
            0 ≤ boundary N f (i + 1) - boundary N f i).
  { intros i Hi. apply elem_of_seqZ in Hi.
    pose proof (boundary_in_order N f i HN Hf ltac:(lia)). lia. }
  specialize (H Hnn).
  assert (Hfil : filter (λ i, snd <$> get_copy_offsets i N f = Some 0)
                   (range 0 N)
                 = filter (λ i, boundary N f (i + 1) - boundary N f i = 0)
                     (range 0 N)).
  { apply filter_iff_in. intros i Hi. apply elem_of_seqZ in Hi.
    rewrite offsets_of_double_size by lia. simpl.
    split; [by intros [= ->]|by intros ->]. }
  rewrite Hfil. lia.
Qed.

Lemma more_parts_than_bytes_witness :
  5 - 2
  ≤ Z.of_nat
      (length (filter (λ i, snd <$> get_copy_offsets i 5 2 = Some 0)
                 (range 0 5))).
Proof.
  apply (more_parts_than_bytes 5 2).
  - split; [lia|]. by apply Z.lt_le_incl.
  - split; [lia|]. by apply Z.lt_le_incl.
Defined.

(** X3: the plan of an empty source: every worker is given the range
    from 0 to 0, of length 0. *)
Theorem offsets_of_empty_source (N i : Z) :
  1 ≤ N ≤ 2 ^ 53 → 0 ≤ i < N → get_copy_offsets i N 0 = Some (0, 0, 0).
Proof.
  intros HN Hi.
  assert (Hf : 0 ≤ 0 ≤ 2 ^ 53) by (split; [lia|by apply Z.lt_le_incl]).
  rewrite offsets_of_double_size by done.
  pose proof (boundary_within N 0 i HN Hf ltac:(lia)).
  pose proof (boundary_within N 0 (i + 1) HN Hf ltac:(lia)).
  repeat f_equal; lia.
Qed.

Lemma offsets_of_empty_source_witness :
  get_copy_offsets 2 4 0 = Some (0, 0, 0).
Proof.
  apply (offsets_of_empty_source 4 2).
  - split; [lia|]. by apply Z.lt_le_incl.
  - lia.
Defined.

(** ** The workers of a source of at most 2^53 bytes *)

(** X4: the plan and the worker together, for a source of at most 2^53
    bytes in at most 2^53 parts.  The source and the destination are
    plain names of the working directory, the source is another file
    than the partition file of the worker, and that file is there or can
    be created: then worker [i] returns normally, and its partition file
    holds exactly the bytes of the source from its start to its end, as
    many as its planned length. *)
Theorem worker_file_holds_planned_slice (host : Host) (fuel : nat)
    (env : nat → Pipe → Pipe) (path_from path_to : string) (N i : Z)
    (output : Pipe) (src : list byte) (fs : FS) :
  1 ≤ N ≤ 2 ^ 53 → Z.of_nat (length src) ≤ 2 ^ 53 → 0 ≤ i < N →
  plain_name path_from → plain_name path_to →
  fs !! path_from = Some src → path_from ≠ part_path path_to i →
  is_Some (fs !! part_path path_to i)
  ∨ can_create host (part_path path_to i) = true →
  (Z.to_nat (Z.of_nat (length src) / default_block_size) + 1 ≤ fuel)%nat →
  ∃ output1 w1,
    partial_copy host fuel env path_from path_to (Z.of_nat (length src)) i N
      output default_block_size fs
    = Some (<[part_path path_to i
              := slice src (boundary N (Z.of_nat (length src)) i)
                   (boundary N (Z.of_nat (length src)) (i + 1))]> fs,
            Returned (output1, w1))
    ∧ bytes_read w1
      = boundary N (Z.of_nat (length src)) (i + 1)
        - boundary N (Z.of_nat (length src)) i
    ∧ Z.of_nat (length (slice src (boundary N (Z.of_nat (length src)) i)
                          (boundary N (Z.of_nat (length src)) (i + 1))))
      = boundary N (Z.of_nat (length src)) (i + 1)
        - boundary N (Z.of_nat (length src)) i.
Proof.
  intros HN Hf Hi _ _ Hsrc Hapart Hout Hfuel.
  set (f := Z.of_nat (length src)) in *.
  assert (Hf' : 0 ≤ f ≤ 2 ^ 53) by (unfold f; lia).
  pose proof (boundary_in_order N f i HN Hf' Hi) as [Hb0 Hb1].
  pose proof (boundary_within N f (i + 1) HN Hf' ltac:(lia)) as [_ Hb2].
  assert (Hfuel' : (Z.to_nat ((boundary N f (i + 1) - boundary N f i)
                              / default_block_size) + 1 ≤ fuel)%nat).
  { assert ((boundary N f (i + 1) - boundary N f i) / default_block_size
            ≤ f / default_block_size)
      by (apply Z.div_le_mono; [reflexivity|lia]).
    lia. }
  destruct (copy_slice_returns src f i N _ _ _ env output
              (offsets_of_double_size N f i HN Hf' Hi) Hb0 ltac:(lia))
    as (output1 & w1 & Hrun & Hinv & Hbr).
  exists output1, w1. unfold partial_copy. rewrite Hsrc.
  assert (Hopen : open_write host (part_path path_to i) fs
                  = Some (<[part_path path_to i := []]> fs)).
  { unfold open_write. destruct Hout as [[old ->]|Hc]; [done|].
    rewrite Hc. by destruct (fs !! part_path path_to i). }
  rewrite Hopen, lookup_insert_ne by done.
  rewrite Hsrc. cbn [default from_option id].
  rewrite (Hrun _ Hfuel'). simpl.
  destruct Hinv as (_ & _ & Hfile & _). rewrite Hfile, Hbr.
  rewrite insert_insert_eq.
  split; [done|]. split; [done|].
  unfold slice. rewrite length_take, length_drop. fold f. lia.
Qed.

Lemma worker_file_holds_planned_slice_witness :
  ∃ output1 w1,
    partial_copy unlimited 1 quiet "src" "dst"
      (Z.of_nat (length [x01; x02; x03; x04; x05; x06; x07])) 1 3
      (mkPipe [] []) default_block_size
      {[ "src"%string := [x01; x02; x03; x04; x05; x06; x07] ]}
    = Some (<[part_path "dst" 1
              := slice [x01; x02; x03; x04; x05; x06; x07]
                   (boundary 3 (Z.of_nat (length [x01; x02; x03; x04; x05;
                                                  x06; x07])) 1)
                   (boundary 3 (Z.of_nat (length [x01; x02; x03; x04; x05;
                                                  x06; x07])) (1 + 1))]>
              {[ "src"%string := [x01; x02; x03; x04; x05; x06; x07] ]},
            Returned (output1, w1))
    ∧ bytes_read w1
      = boundary 3 (Z.of_nat (length [x01; x02; x03; x04; x05; x06; x07]))
          (1 + 1)
        - boundary 3 (Z.of_nat (length [x01; x02; x03; x04; x05; x06; x07]))
            1
    ∧ Z.of_nat
        (length (slice [x01; x02; x03; x04; x05; x06; x07]
                   (boundary 3 (Z.of_nat (length [x01; x02; x03; x04; x05;
                                                  x06; x07])) 1)
                   (boundary 3 (Z.of_nat (length [x01; x02; x03; x04; x05;
                                                  x06; x07])) (1 + 1))))
      = boundary 3 (Z.of_nat (length [x01; x02; x03; x04; x05; x06; x07]))
          (1 + 1)
        - boundary 3 (Z.of_nat (length [x01; x02; x03; x04; x05; x06; x07]))
            1.
Proof.
  apply (worker_file_holds_planned_slice unlimited 1 quiet "src" "dst" 3 1
           (mkPipe [] []) [x01; x02; x03; x04; x05; x06; x07]).
  - split; [lia|]. by apply Z.lt_le_incl.
  - by apply Z.lt_le_incl.
  - lia.
  - exact (proj1 plain_src_dst).
  - exact (proj2 plain_src_dst).
  - reflexivity.
  - unfold part_path. simpl. discriminate.
  - right. reflexivity.
  - simpl. lia.
Defined.

(** X5: a worker whose source is its own partition file destroys it.
    The file is truncated when it is opened for writing, before anything
    is read: every read returns nothing and nothing is written, while
    the worker counts its planned length and returns normally; the file
    is left empty. *)
Theorem worker_empties_own_source (host : Host) (fuel : nat)
    (env : nat → Pipe → Pipe) (path_to : string) (N i : Z) (output : Pipe)
    (src : list byte) (fs : FS) :
  1 ≤ N ≤ 2 ^ 53 → Z.of_nat (length src) ≤ 2 ^ 53 → 0 ≤ i < N →
  fs !! part_path path_to i = Some src →
  (Z.to_nat (Z.of_nat (length src) / default_block_size) + 1 ≤ fuel)%nat →
  ∃ output1 w1,
    partial_copy host fuel env (part_path path_to i) path_to
      (Z.of_nat (length src)) i N output default_block_size fs
    = Some (<[part_path path_to i := []]> fs, Returned (output1, w1))
    ∧ bytes_read w1
      = boundary N (Z.of_nat (length src)) (i + 1)
        - boundary N (Z.of_nat (length src)) i
    ∧ Forall (λ data, data = []) (out_fh w1).
Proof.
  intros HN Hf Hi Hsrc Hfuel.
  set (f := Z.of_nat (length src)) in *.
  assert (Hf' : 0 ≤ f ≤ 2 ^ 53) by (unfold f; lia).
  pose proof (boundary_in_order N f i HN Hf' Hi) as [Hb0 Hb1].
  pose proof (boundary_within N f (i + 1) HN Hf' ltac:(lia)) as [_ Hb2].
  assert (Hfuel' : (Z.to_nat ((boundary N f (i + 1) - boundary N f i)
                              / default_block_size) + 1 ≤ fuel)%nat).
  { assert ((boundary N f (i + 1) - boundary N f i) / default_block_size
            ≤ f / default_block_size)
      by (apply Z.div_le_mono; [reflexivity|lia]).
    lia. }
  destruct (copy_slice_returns [] f i N _ _ _ env output
              (offsets_of_double_size N f i HN Hf' Hi) Hb0 ltac:(lia))
    as (output1 & w1 & Hrun & Hinv & Hbr).
  exists output1, w1. unfold partial_copy. rewrite Hsrc.
  unfold open_write. rewrite Hsrc, lookup_insert_eq.
  cbn [default from_option id].
  rewrite (Hrun _ Hfuel'). simpl.
  destruct Hinv as (_ & _ & Hfile & _).
  rewrite drop_nil, take_nil in Hfile.
  rewrite Hfile, insert_insert_eq.
  split; [done|]. split; [done|].
  unfold file_content in Hfile. clear -Hfile.
  induction (out_fh w1) as [|blk blocks IH]; [constructor|].
  simpl in Hfile. apply app_eq_nil in Hfile as [-> Hrest].
  constructor; [done|by apply IH].
Qed.

Lemma worker_empties_own_source_witness :
  ∃ output1 w1,
    partial_copy unlimited 1 quiet (part_path "dst" 1) "dst"
      (Z.of_nat (length [x01; x02; x03; x04; x05; x06; x07])) 1 3
      (mkPipe [] []) default_block_size
      {[ part_path "dst" 1 := [x01; x02; x03; x04; x05; x06; x07] ]}
    = Some (<[part_path "dst" 1 := []]>
              {[ part_path "dst" 1 := [x01; x02; x03; x04; x05; x06; x07] ]},
            Returned (output1, w1))
    ∧ bytes_read w1
      = boundary 3 (Z.of_nat (length [x01; x02; x03; x04; x05; x06; x07]))
          (1 + 1)
        - boundary 3 (Z.of_nat (length [x01; x02; x03; x04; x05; x06; x07]))
            1
    ∧ Forall (λ data, data = []) (out_fh w1).
Proof.
  apply (worker_empties_own_source unlimited 1 quiet "dst" 3 1
           (mkPipe [] []) [x01; x02; x03; x04; x05; x06; x07]).
  - split; [lia|]. by apply Z.lt_le_incl.
  - by apply Z.lt_le_incl.
  - lia.
  - apply lookup_singleton_eq.
  - simpl. lia.
Defined.

(** X7: [spawn_children], for a source of at most 2^53 bytes in at most
    2^53 parts, on a machine where the workers can be started: it starts
    one worker for each part, in the order of the parts and each with
    the number of its part, and returns one handle for each, in that
    order, with a count of 0 and the planned length of the part; the
    lengths add up to the size of the source. *)
Theorem spawn_children_handles (host : Host)
    (source_file destination_file : string) (N f : Z) :
  1 ≤ N ≤ 2 ^ 53 → 0 ≤ f ≤ 2 ^ 53 →
  (∀ i, 0 ≤ i < N → can_start host i = true) →
  ∃ children,
    spawn_children host source_file destination_file N f
    = ((λ i, mkJob source_file destination_file f i N) <$> range 0 N,
       Returned children)
    ∧ children
      = (λ i, mkChild 0 (boundary N f (i + 1) - boundary N f i))
          <$> range 0 N
    ∧ Z.of_nat (length children) = N
    ∧ foldr Z.add 0 (bytes_to_copy <$> children) = f.
Proof.
  intros HN Hf Hstart.
  assert (Hgen : ∀ procs started children,
            Forall (λ i, 0 ≤ i < N) procs →
            spawn_children_from host procs source_file destination_file N f
              started children
            = (started
               ++ ((λ i, mkJob source_file destination_file f i N) <$> procs),
               Returned
                 (children
                  ++ ((λ i, mkChild 0 (boundary N f (i + 1) - boundary N f i))
                        <$> procs)))).
  { induction procs as [|i rest IH]; intros started children Hall; simpl.
    - by rewrite !app_nil_r.
    - apply Forall_cons in Hall as [Hi Hall].
      rewrite (Hstart i Hi), (offsets_of_double_size N f i HN Hf Hi).
      rewrite IH by done. by rewrite <- !app_assoc. }
  eexists. split; [|split; [reflexivity|split]].
  - unfold spawn_children. rewrite Hgen; [done|].
    apply Forall_forall. intros i Hi. apply elem_of_seqZ in Hi. lia.
  - rewrite length_fmap. unfold range. rewrite length_seqZ. lia.
  - rewrite <- list_fmap_compose. by apply (planned_lengths_sum N f).
Qed.

Lemma spawn_children_handles_witness :
  ∃ children,
    spawn_children unlimited "src" "dst" 3 7
    = ((λ i, mkJob "src" "dst" 7 i 3) <$> range 0 3, Returned children)
    ∧ children
      = (λ i, mkChild 0 (boundary 3 7 (i + 1) - boundary 3 7 i)) <$> range 0 3
    ∧ Z.of_nat (length children) = 3
    ∧ foldr Z.add 0 (bytes_to_copy <$> children) = 7.
Proof.
  apply (spawn_children_handles unlimited "src" "dst" 3 7).
  - split; [lia|]. by apply Z.lt_le_incl.
  - split; [lia|]. by apply Z.lt_le_incl.
  - intros i Hi. reflexivity.
Defined.

(** ** More on a channel under every interleaving *)

(** X8: at every point of every interleaving of a worker and the updates
    of its handle, the cached count of the handle has not gone down since
    any earlier point, it lies between 0 and the planned length, and
    while the worker runs it is at most the count of the worker: what is
    shown for a worker is never ahead of what the worker has counted. *)
Theorem cached_count_in_every_run (block_size read_len : Z)
    (src : list byte) (start_pos : Z) (es1 es2 : list event)
    (s1 s2 : Channel) :
  0 < block_size → 0 ≤ read_len →
  run block_size read_len es1 (spawn src start_pos read_len) = Some s1 →
  run block_size read_len es2 s1 = Some s2 →
  bytes_copied (child s1) ≤ bytes_copied (child s2)
  ∧ 0 ≤ bytes_copied (child s2) ≤ read_len
  ∧ bytes_to_copy (child s2) = read_len
  ∧ (∀ w, proc s2 = Running w →
       bytes_copied (child s2) ≤ bytes_read w ≤ read_len).
Proof.
  intros Hbs Hlen Hrun1 Hrun2.
  destruct (run_inv block_size read_len Hbs Hlen es1 _ s1
              (spawn_inv read_len Hlen src start_pos) Hrun1) as [Hinv1 _].
  destruct (run_inv block_size read_len Hbs Hlen es2 s1 s2 Hinv1 Hrun2)
    as [(Hto & Hc & Hp) Hle].
  split; [done|]. split; [done|]. split; [done|].
  intros w Hw. rewrite Hw in Hp. lia.
Qed.

Lemma cached_count_in_every_run_witness :
  ∃ s1 s2,
    run 1 3 [Update; Iterate; Iterate; Update]
      (spawn [x01; x02; x03; x04; x05; x06; x07] 4 3) = Some s1
    ∧ run 1 3 [Iterate; Update; Exit; Update] s1 = Some s2
    ∧ bytes_copied (child s1) ≤ bytes_copied (child s2)
    ∧ 0 ≤ bytes_copied (child s2) ≤ 3
    ∧ bytes_to_copy (child s2) = 3
    ∧ (∀ w, proc s2 = Running w → bytes_copied (child s2) ≤ bytes_read w ≤ 3).
Proof.
  eexists _, _. split; [reflexivity|]. split; [reflexivity|].
  apply (cached_count_in_every_run 1 3 [x01; x02; x03; x04; x05; x06; x07] 4
           [Update; Iterate; Iterate; Update]
           [Iterate; Update; Exit; Update]); try reflexivity; lia.
Defined.

Lemma step_messages (block_size read_len : Z) (e : event) (s s1 : Channel) :
  step block_size read_len e s = Some s1 →
  (length (requests (pipe s1)) + length (reports (pipe s1))
   ≤ length (requests (pipe s)) + length (reports (pipe s)) + updates [e])%nat.
Proof.
  destruct s as [[w|normal] [req rep] c]; destruct e; simpl;
    intros Hstep; simplify_eq; simpl; try lia.
  - destruct (bytes_read w <? read_len); [|done].
    rewrite loop_body_eq in Hstep. simpl in Hstep. simplify_eq.
    destruct req; simpl; rewrite ?length_app; simpl; lia.
  - destruct (bytes_read w <? read_len); simplify_eq. simpl. lia.
  - unfold update, Conn.parent_poll, Conn.parent_recv in Hstep.
    destruct rep; simpl in Hstep; simplify_eq; simpl;
      rewrite length_app; simpl; lia.
Qed.

(** X9: in every interleaving, the requests not yet answered and the
    reports not yet received are together at most as many as the updates
    made so far: every report in the pipe answers a request of its own,
    and no report is sent unasked. *)
Theorem messages_in_pipe (block_size read_len : Z) (src : list byte)
    (start_pos : Z) (es : list event) (s : Channel) :
  run block_size read_len es (spawn src start_pos read_len) = Some s →
  (length (requests (pipe s)) + length (reports (pipe s)) ≤ updates es)%nat.
Proof.
  assert (Hgen : ∀ es s0 s,
            run block_size read_len es s0 = Some s →
            (length (requests (pipe s)) + length (reports (pipe s))
             ≤ length (requests (pipe s0)) + length (reports (pipe s0))
               + updates es)%nat).
  { clear. induction es as [|e es IH]; intros s0 s Hrun; simpl in Hrun.
    - simplify_eq. simpl. lia.
    - destruct (step block_size read_len e s0) as [s'|] eqn:E;
        simpl in Hrun; [|done].
      apply step_messages in E. apply IH in Hrun.
      simpl in E. destruct e; simpl; lia. }
  intros Hrun. apply Hgen in Hrun. simpl in Hrun. lia.
Qed.

Lemma messages_in_pipe_witness :
  ∃ s,
    run 1 3 [Update; Iterate; Update; Update; Iterate]
      (spawn [x01; x02; x03; x04; x05; x06; x07] 4 3) = Some s
    ∧ (length (requests (pipe s)) + length (reports (pipe s))
       ≤ updates [Update; Iterate; Update; Update; Iterate])%nat.
Proof.
  eexists. split; [reflexivity|].
  apply (messages_in_pipe 1 3 [x01; x02; x03; x04; x05; x06; x07] 4).
  reflexivity.
Defined.

(** Progress is counted in whole blocks. *)
Lemma step_whole_blocks (block_size read_len : Z) (e : event)
    (s s1 : Channel) :
  bytes_to_copy (child s) = read_len
  ∧ Forall (λ v, (block_size | v)) (reports (pipe s))
  ∧ ((block_size | bytes_copied (child s))
     ∨ bytes_copied (child s) = read_len)
  ∧ (∀ w, proc s = Running w →
       (block_size | bytes_read w) ∨ bytes_read w = read_len) →
  step block_size read_len e s = Some s1 →
  bytes_to_copy (child s1) = read_len
  ∧ Forall (λ v, (block_size | v)) (reports (pipe s1))
  ∧ ((block_size | bytes_copied (child s1))
     ∨ bytes_copied (child s1) = read_len)
  ∧ (∀ w, proc s1 = Running w →
       (block_size | bytes_read w) ∨ bytes_read w = read_len).
Proof.
  intros (Hto & Hrep & Hc & Hw) Hstep.
  destruct s as [[w|normal] [req rep] [cached to_copy]];
    destruct e; simpl in *; simplify_eq; try done.
  - destruct (Z.ltb_spec (bytes_read w) read_len) as [Hlt|]; [|done].
    rewrite loop_body_eq in Hstep. simpl in Hstep. simplify_eq.
    destruct (Hw w eq_refl) as [Hdiv|Heq]; [|lia].
    cbn [child pipe proc bytes_to_copy bytes_copied].
    split; [done|]. split; [|split; [done|]].
    + destruct req; cbn [reports]; [done|].
      apply Forall_app. split; [done|]. by apply Forall_singleton.
    + intros w1 [= <-]. rewrite copy_block_eq. cbn [bytes_read].
      destruct (Z.le_gt_cases block_size (read_len - bytes_read w)).
      * rewrite Z.min_l by done. left. by apply Z.divide_add_r.
      * rewrite Z.min_r by lia. right. lia.
  - destruct (bytes_read w <? read_len); simplify_eq. simpl.
    repeat split; try done.
  - unfold update, Conn.parent_poll, Conn.parent_recv in Hstep.
    simpl in Hstep.
    destruct rep as [|v rep]; simpl in Hstep; simplify_eq; simpl.
    + repeat split; try done.
    + apply Forall_cons in Hrep as [Hv Hrep].
      split; [done|]. split; [done|]. split; [by left|done].
  - simpl. split; [done|]. split; [done|]. split; [by right|done].
Qed.

(** X10: progress is reported in whole blocks.  In every interleaving,
    every report in the pipe is a multiple of the block size, and so is
    the count of the worker until it reaches the planned length; the
    cached count of the handle is a multiple of the block size or the
    planned length. *)
Theorem progress_in_whole_blocks (block_size read_len : Z)
    (src : list byte) (start_pos : Z) (es : list event) (s : Channel) :
  run block_size read_len es (spawn src start_pos read_len) = Some s →
  Forall (λ v, (block_size | v)) (reports (pipe s))
  ∧ ((block_size | bytes_copied (child s))
     ∨ bytes_copied (child s) = read_len)
  ∧ (∀ w, proc s = Running w →
       (block_size | bytes_read w) ∨ bytes_read w = read_len).
Proof.
  assert (Hgen : ∀ es s0 s,
            bytes_to_copy (child s0) = read_len
            ∧ Forall (λ v, (block_size | v)) (reports (pipe s0))
            ∧ ((block_size | bytes_copied (child s0))
               ∨ bytes_copied (child s0) = read_len)
            ∧ (∀ w, proc s0 = Running w →
                 (block_size | bytes_read w) ∨ bytes_read w = read_len) →
            run block_size read_len es s0 = Some s →
            bytes_to_copy (child s) = read_len
            ∧ Forall (λ v, (block_size | v)) (reports (pipe s))
            ∧ ((block_size | bytes_copied (child s))
               ∨ bytes_copied (child s) = read_len)
            ∧ (∀ w, proc s = Running w →
                 (block_size | bytes_read w) ∨ bytes_read w = read_len)).
  { clear. induction es as [|e es IH]; intros s0 s H0 Hrun; simpl in Hrun.
    - by simplify_eq.
    - destruct (step block_size read_len e s0) as [s'|] eqn:E;
        simpl in Hrun; [|done].
      apply (IH s' s); [|done]. by eapply step_whole_blocks. }
  intros Hrun.
  destruct (Hgen es (spawn src start_pos read_len) s) as (_ & H1 & H2 & H3);
    [|exact Hrun|done].
  simpl. split; [done|]. split; [constructor|].
  split; [left; apply Z.divide_0_r|].
  intros w [= <-]. left. apply Z.divide_0_r.
Qed.

Lemma progress_in_whole_blocks_witness :
  ∃ s,
    run 2 5 [Update; Iterate; Update; Iterate; Iterate; Update]
      (spawn [x01; x02; x03; x04; x05; x06; x07] 2 5) = Some s
    ∧ Forall (λ v, (2 | v)) (reports (pipe s))
    ∧ ((2 | bytes_copied (child s)) ∨ bytes_copied (child s) = 5)
    ∧ (∀ w, proc s = Running w → (2 | bytes_read w) ∨ bytes_read w = 5).
Proof.
  eexists. split; [reflexivity|].
  apply (progress_in_whole_blocks 2 5 [x01; x02; x03; x04; x05; x06; x07] 2
           [Update; Iterate; Update; Iterate; Iterate; Update]).
  reflexivity.
Defined.

Lemma step_below_planned (block_size read_len : Z) (e : event)
    (s s1 : Channel) :
  (∀ w, proc s = Running w →
     bytes_copied (child s) < read_len
     ∧ Forall (λ v, v < read_len) (reports (pipe s))) →
  step block_size read_len e s = Some s1 →
  ∀ w, proc s1 = Running w →
    bytes_copied (child s1) < read_len
    ∧ Forall (λ v, v < read_len) (reports (pipe s1)).
Proof.
  intros Hs Hstep.
  destruct s as [[w|normal] [req rep] c]; destruct e; simpl in *;
    simplify_eq; try done.
  - destruct (Z.ltb_spec (bytes_read w) read_len) as [Hlt|]; [|done].
    rewrite loop_body_eq in Hstep. simpl in Hstep. simplify_eq.
    destruct (Hs w eq_refl) as [Hc Hrep].
    intros w1 _. cbn [child pipe]. split; [done|].
    destruct req; cbn [reports]; [done|].
    apply Forall_app. split; [done|]. by apply Forall_singleton.
  - destruct (bytes_read w <? read_len); simplify_eq. done.
  - destruct (Hs w eq_refl) as [Hc Hrep].
    unfold update, Conn.parent_poll, Conn.parent_recv in Hstep.
    simpl in Hstep.
    destruct rep as [|v rep]; simpl in Hstep; simplify_eq; simpl.
    + intros w1 _. done.
    + apply Forall_cons in Hrep as [Hv Hrep]. intros w1 _. done.
Qed.

(** X11: a worker with bytes to copy is not shown complete while it is
    alive.  In every interleaving, as long as the worker has not exited
    the cached count of its handle is below the planned length, and so is
    every report in the pipe: the count reaches the planned length only
    by the update that finds the worker gone. *)
Theorem live_worker_shown_incomplete (block_size read_len : Z)
    (src : list byte) (start_pos : Z) (es : list event) (s : Channel) :
  0 < read_len →
  run block_size read_len es (spawn src start_pos read_len) = Some s →
  is_alive (proc s) = true →
  bytes_copied (child s) < read_len
  ∧ Forall (λ v, v < read_len) (reports (pipe s)).
Proof.
  intros Hlen.
  assert (Hgen : ∀ es s0 s,
            (∀ w, proc s0 = Running w →
               bytes_copied (child s0) < read_len
               ∧ Forall (λ v, v < read_len) (reports (pipe s0))) →
            run block_size read_len es s0 = Some s →
            ∀ w, proc s = Running w →
              bytes_copied (child s) < read_len
              ∧ Forall (λ v, v < read_len) (reports (pipe s))).
  { clear. induction es as [|e es IH]; intros s0 s H0 Hrun; simpl in Hrun.
    - by simplify_eq.
    - destruct (step block_size read_len e s0) as [s'|] eqn:E;
        simpl in Hrun; [|done].
      apply (IH s' s); [|done]. by eapply step_below_planned. }
  intros Hrun Halive.
  destruct (proc s) as [w|normal] eqn:Ep; [|done].
  apply (Hgen es (spawn src start_pos read_len) s) with (w := w);
    [|done|done].
  intros w0 _. simpl. split; [lia|constructor].
Qed.

Lemma live_worker_shown_incomplete_witness :
  ∃ s,
    run 2 5 [Update; Iterate; Update; Iterate; Iterate; Update]
      (spawn [x01; x02; x03; x04; x05; x06; x07] 2 5) = Some s
    ∧ bytes_copied (child s) < 5
    ∧ Forall (λ v, v < 5) (reports (pipe s)).
Proof.
  eexists. split; [reflexivity|].
  apply (live_worker_shown_incomplete 2 5
           [x01; x02; x03; x04; x05; x06; x07] 2
           [Update; Iterate; Update; Iterate; Iterate; Update]).
  - lia.
  - reflexivity.
  - reflexivity.
Defined.

Lemma run_copy_inv (block_size read_len : Z) (src : list byte)
    (start_pos : Z) (es : list event) (s0 s : Channel) :
  0 ≤ start_pos → 0 < block_size →
  (∀ w, proc s0 = Running w → copy_inv src start_pos w) →
  run block_size read_len es s0 = Some s →
  ∀ w, proc s = Running w → copy_inv src start_pos w.
Proof.
  intros Hstart Hbs. revert s0.
  induction es as [|e es IH]; intros s0 H0 Hrun; simpl in Hrun.
  - by simplify_eq.
  - destruct (step block_size read_len e s0) as [s'|] eqn:E;
      simpl in Hrun; [|done].
    apply (IH s'); [|done].
    destruct s0 as [[w0|normal] p c]; destruct e; simpl in E;
      simplify_eq; try done.
    + destruct (Z.ltb_spec (bytes_read w0) read_len) as [Hlt|]; [|done].
      rewrite loop_body_eq in E. simpl in E. simplify_eq.
      intros w [= <-]. apply copy_block_inv; [done| |lia].
      by apply H0.
    + destruct (bytes_read w0 <? read_len); simplify_eq. done.
    + destruct (update true p c) as [[p1 c1]|]; simpl in E; simplify_eq.
      intros w [= <-]. by apply H0.
Qed.

(** X12: the requests of the coordinator do not change what is copied.
    In every interleaving the partition file of a running worker holds
    the bytes of the source from its start, as many as it has counted
    (as far as the source goes); and the worker can leave its loop only
    with its count at the planned length, its file holding the whole of
    the planned slice. *)
Theorem worker_file_in_every_run (block_size read_len : Z)
    (src : list byte) (start_pos : Z) (es : list event) (s : Channel)
    (w : Worker) :
  0 ≤ start_pos → 0 < block_size → 0 ≤ read_len →
  run block_size read_len es (spawn src start_pos read_len) = Some s →
  proc s = Running w →
  file_content w
  = take (Z.to_nat (bytes_read w)) (drop (Z.to_nat start_pos) src)
  ∧ 0 ≤ bytes_read w ≤ read_len
  ∧ (is_Some (step block_size read_len Exit s) →
     bytes_read w = read_len
     ∧ file_content w = slice src start_pos (start_pos + read_len)).
Proof.
  intros Hstart Hbs Hlen Hrun Hw.
  assert (H0 : ∀ w0, proc (spawn src start_pos read_len) = Running w0 →
                     copy_inv src start_pos w0).
  { intros w0 [= <-]. apply copy_inv_start. }
  pose proof (run_copy_inv block_size read_len src start_pos es _ s Hstart
                Hbs H0 Hrun w Hw) as (_ & _ & Hfile & _).
  destruct (run_inv block_size read_len Hbs Hlen es _ s
              (spawn_inv read_len Hlen src start_pos) Hrun)
    as [(_ & _ & Hp) _].
  rewrite Hw in Hp. destruct Hp as (Hbr & _).
  split; [done|]. split; [done|].
  intros [s' Hexit]. unfold step in Hexit. rewrite Hw in Hexit.
  destruct (Z.ltb_spec (bytes_read w) read_len) as [|Hge]; [done|].
  assert (Heq : bytes_read w = read_len) by lia.
  split; [done|]. rewrite Hfile, Heq. unfold slice.
  by replace (start_pos + read_len - start_pos) with read_len by lia.
Qed.

Lemma worker_file_in_every_run_witness :
  file_content (mkWorker 3 (mkInFile [x01; x02; x03; x04; x05; x06; x07] 7)
                  [[x05; x06]; [x07]])
  = take (Z.to_nat 3) (drop (Z.to_nat 4) [x01; x02; x03; x04; x05; x06; x07])
  ∧ 0 ≤ 3 ≤ 3.
Proof.
  destruct (worker_file_in_every_run 2 3 [x01; x02; x03; x04; x05; x06; x07]
              4 [Update; Iterate; Update; Iterate]
              (mkChannel
                 (Running (mkWorker 3
                             (mkInFile [x01; x02; x03; x04; x05; x06; x07] 7)
                             [[x05; x06]; [x07]]))
                 (mkPipe [] [2]) (mkChild 0 3))
              (mkWorker 3 (mkInFile [x01; x02; x03; x04; x05; x06; x07] 7)
                 [[x05; x06]; [x07]]))
    as (Hfile & Hbr & _); try lia; try reflexivity.
  split; [exact Hfile|exact Hbr].
Defined.

(** X6: a block size of zero or less: a worker with bytes left to copy
    never leaves its loop, whatever number of iterations it is given and
    whatever the coordinator does on the pipe. *)
Theorem no_return_without_block_size (fuel : nat) (block_size read_len : Z)
    (env : nat → Pipe → Pipe) (k : nat) (output : Pipe) (w : Worker) :
  block_size ≤ 0 → bytes_read w < read_len →
  copy_loop fuel block_size read_len env k output w = None.
Proof.
  intros Hbs. revert k output w.
  induction fuel as [|fuel IH]; intros k output w Hlt; simpl;
    destruct (Z.ltb_spec (bytes_read w) read_len); try lia; [done|].
  rewrite loop_body_eq. apply IH.
  rewrite copy_block_eq. cbn [bytes_read]. lia.
Qed.

Lemma no_return_without_block_size_witness :
  copy_loop 1000 0 3 quiet 0 (mkPipe [] [])
    (mkWorker 0 (mkInFile [x01; x02; x03; x04; x05; x06; x07] 4) [])
  = None.
Proof.
  apply (no_return_without_block_size 1000 0 3 quiet 0 (mkPipe [] [])
           (mkWorker 0 (mkInFile [x01; x02; x03; x04; x05; x06; x07] 4) [])).
  - lia.
  - simpl. lia.
Defined.

(** ** More on the merge *)

Lemma range_cons (a b : Z) : a < b → range a b = a :: range (a + 1) b.
Proof.
  intros H. unfold range. rewrite seqZ_cons by lia.
  f_equal. f_equal; lia.
Qed.

Lemma range_app (a k b : Z) :
  a ≤ k ≤ b → range a b = range a k ++ range k b.
Proof.
  intros H. unfold range.
  replace (b - a) with ((k - a) + (b - k)) by lia.
  rewrite seqZ_app by lia. do 2 f_equal. lia.
Qed.

Lemma append_slices_app (dest_file : string) (l1 l2 : list Z)
    (fs fs1 : FS) :
  append_slices dest_file l1 fs = (fs1, Returned tt) →
  append_slices dest_file (l1 ++ l2) fs = append_slices dest_file l2 fs1.
Proof.
  revert fs. induction l1 as [|j l1 IH]; intros fs; simpl.
  - by intros [= ->].
  - destruct (fs !! part_path dest_file j); [apply IH|done].
Qed.

(** The loop of the merge touches slice 0 and the slices it is given. *)
Lemma append_slices_frame (dest_file : string) (slices : list Z) (fs : FS)
    (path : string) :
  path ≠ dest_file +:+ ".0" →
  (∀ i, i ∈ slices → path ≠ part_path dest_file i) →
  fst (append_slices dest_file slices fs) !! path = fs !! path.
Proof.
  intros Hp0. revert fs.
  induction slices as [|j rest IH]; intros fs Hp; simpl; [done|].
  destruct (fs !! part_path dest_file j) as [data|]; [|done].
  rewrite IH by (intros i Hi; apply Hp; by right).
  rewrite lookup_delete_ne by (apply not_eq_sym, Hp; left).
  by rewrite lookup_alter_ne.
Qed.

(** The slices that the loop has appended are removed. *)
Lemma append_slices_removes (dest_file : string) (slices : list Z)
    (fs fs1 : FS) :
  Forall (λ j, j ≠ 0) slices →
  append_slices dest_file slices fs = (fs1, Returned tt) →
  ∀ i, i ∈ slices → fs1 !! part_path dest_file i = None.
Proof.
  revert fs.
  induction slices as [|j rest IH]; intros fs Hnz Hrun i Hi.
  - by apply elem_of_nil in Hi.
  - apply Forall_cons in Hnz as [Hj Hnz]. simpl in Hrun.
    destruct (fs !! part_path dest_file j) as [data|]; [|done].
    destruct (decide (i ∈ rest)) as [Hin|Hnin]; [by eapply IH|].
    apply elem_of_cons in Hi as [->|Hi]; [|done].
    pose proof (append_slices_frame dest_file rest
                  (delete (part_path dest_file j)
                     (alter (λ old, old ++ data) (dest_file +:+ ".0") fs))
                  (part_path dest_file j)) as Hframe.
    rewrite Hrun in Hframe. simpl in Hframe. rewrite Hframe.
    + apply lookup_delete_eq.
    + rewrite <- part_path_0. intros E. by apply part_path_inj in E.
    + intros k Hk E. apply part_path_inj in E. by subst.
Qed.

(** X13: the merge of slices that are all there.  [merge_files] returns
    normally; the destination then holds the slices one after the other
    in the order of their numbers, whatever it held before; no partition
    file is left, and no other file has changed. *)
Theorem merge_concatenates_in_order (host : Host) (dest_file : string)
    (parts : Z) (held : Z → list byte) (fs : FS) :
  1 ≤ parts →
  (∀ i, 0 ≤ i < parts → fs !! part_path dest_file i = Some (held i)) →
  ∃ fs1,
    merge_files host dest_file parts fs = (fs1, Returned tt)
    ∧ fs1 !! dest_file = Some (concat (held <$> range 0 parts))
    ∧ (∀ i, 0 ≤ i < parts → fs1 !! part_path dest_file i = None)
    ∧ (∀ path, path ≠ dest_file →
         (∀ i, 0 ≤ i < parts → path ≠ part_path dest_file i) →
         fs1 !! path = fs !! path).
Proof.
  intros Hparts Hheld. unfold merge_files, open_append.
  assert (H0 : fs !! (dest_file +:+ ".0") = Some (held 0)).
  { rewrite <- part_path_0. apply Hheld. lia. }
  assert (Hnz : Forall (λ j, j ≠ 0) (range 1 parts)).
  { apply Forall_forall. intros j Hj. apply elem_of_seqZ in Hj. lia. }
  rewrite H0. cbn beta iota.
  destruct (append_slices_returns dest_file held (range 1 parts) fs (held 0)
              (NoDup_seqZ _ _) Hnz H0) as (fs2 & Hrun & Hacc & Hframe).
  { intros i Hi. apply Hheld. apply elem_of_seqZ in Hi. lia. }
  rewrite Hrun. unfold rename. rewrite Hacc.
  eexists. split; [done|]. split; [|split].
  - rewrite lookup_insert_eq. by rewrite (range_cons 0 parts) by lia.
  - intros i Hi.
    rewrite lookup_insert_ne by (apply not_eq_sym, part_path_not_dest).
    destruct (decide (i = 0)) as [->|Hi0].
    + rewrite part_path_0. apply lookup_delete_eq.
    + rewrite lookup_delete_ne
        by (rewrite <- part_path_0; intros E; by apply part_path_inj in E).
      apply (append_slices_removes dest_file (range 1 parts) fs fs2 Hnz Hrun).
      apply elem_of_seqZ. lia.
  - intros path Hpd Hp.
    rewrite lookup_insert_ne by done.
    rewrite lookup_delete_ne
      by (rewrite <- part_path_0; apply not_eq_sym, Hp; lia).
    apply Hframe.
    + rewrite <- part_path_0. apply Hp. lia.
    + intros i Hi. apply Hp. apply elem_of_seqZ in Hi. lia.
Qed.

Lemma merge_concatenates_in_order_witness :
  ∃ fs1,
    merge_files unlimited "dst" 3
      {[ "dst.0"%string := [x01; x02]; "dst.1"%string := [x03; x04];
         "dst.2"%string := [x05; x06; x07]; "dst"%string := [x09] ]}
    = (fs1, Returned tt)
    ∧ fs1 !! "dst"%string
      = Some (concat ((λ i, if i =? 0 then [x01; x02]
                            else if i =? 1 then [x03; x04]
                            else [x05; x06; x07]) <$> range 0 3))
    ∧ (∀ i, 0 ≤ i < 3 → fs1 !! part_path "dst" i = None)
    ∧ (∀ path, path ≠ "dst"%string →
         (∀ i, 0 ≤ i < 3 → path ≠ part_path "dst" i) →
         fs1 !! path
         = ({[ "dst.0"%string := [x01; x02]; "dst.1"%string := [x03; x04];
               "dst.2"%string := [x05; x06; x07]; "dst"%string := [x09] ]}
              : FS) !! path).
Proof.
  apply (merge_concatenates_in_order unlimited "dst" 3
           (λ i, if i =? 0 then [x01; x02]
                 else if i =? 1 then [x03; x04] else [x05; x06; x07])).
  - lia.
  - intros i Hi.
    assert (i = 0 ∨ i = 1 ∨ i = 2) as [-> | [-> | ->]] by lia;
      vm_compute; reflexivity.
Defined.

(** X15: a merge that fails leaves its work half done.  When the slices
    before slice [k] are there and slice [k] is missing, [merge_files]
    raises; slice 0 then holds the slices before [k] one after the other,
    those slices are removed, and every other file, the destination and
    the later slices among them, is as it was. *)
Theorem merge_stops_at_missing_slice (host : Host) (dest_file : string)
    (parts k : Z) (held : Z → list byte) (fs : FS) :
  1 ≤ k < parts →
  (∀ i, 0 ≤ i < k → fs !! part_path dest_file i = Some (held i)) →
  fs !! part_path dest_file k = None →
  ∃ fs1,
    merge_files host dest_file parts fs = (fs1, Raised)
    ∧ fs1 !! part_path dest_file 0 = Some (concat (held <$> range 0 k))
    ∧ (∀ i, 1 ≤ i < k → fs1 !! part_path dest_file i = None)
    ∧ (∀ path, (∀ i, 0 ≤ i < k → path ≠ part_path dest_file i) →
         fs1 !! path = fs !! path).
Proof.
  intros Hk Hheld Hmiss. unfold merge_files, open_append.
  assert (H0 : fs !! (dest_file +:+ ".0") = Some (held 0)).
  { rewrite <- part_path_0. apply Hheld. lia. }
  assert (Hnz : Forall (λ j, j ≠ 0) (range 1 k)).
  { apply Forall_forall. intros j Hj. apply elem_of_seqZ in Hj. lia. }
  rewrite H0. cbn beta iota.
  destruct (append_slices_returns dest_file held (range 1 k) fs (held 0)
              (NoDup_seqZ _ _) Hnz H0) as (fs2 & Hrun & Hacc & Hframe).
  { intros i Hi. apply Hheld. apply elem_of_seqZ in Hi. lia. }
  assert (Hk2 : fs2 !! part_path dest_file k = None).
  { rewrite Hframe; [done| |].
    - rewrite <- part_path_0. intros E. apply part_path_inj in E. lia.
    - intros i Hi E. apply part_path_inj in E. apply elem_of_seqZ in Hi.
      lia. }
  rewrite (range_app 1 k parts) by lia.
  rewrite (append_slices_app dest_file _ _ fs fs2 Hrun).
  rewrite (range_cons k parts) by lia. cbn [append_slices]. rewrite Hk2.
  exists fs2. split; [done|]. split; [|split].
  - rewrite part_path_0, Hacc. by rewrite (range_cons 0 k) by lia.
  - intros i Hi.
    apply (append_slices_removes dest_file (range 1 k) fs fs2 Hnz Hrun).
    apply elem_of_seqZ. lia.
  - intros path Hp. apply Hframe.
    + rewrite <- part_path_0. apply Hp. lia.
    + intros i Hi. apply Hp. apply elem_of_seqZ in Hi. lia.
Qed.

Lemma merge_stops_at_missing_slice_witness :
  ∃ fs1,
    merge_files unlimited "dst" 4
      {[ "dst.0"%string := [x01; x02]; "dst.1"%string := [x03; x04];
         "dst.3"%string := [x07]; "dst"%string := [x09] ]}
    = (fs1, Raised)
    ∧ fs1 !! part_path "dst" 0
      = Some (concat ((λ i, if i =? 0 then [x01; x02] else [x03; x04])
                        <$> range 0 2))
    ∧ (∀ i, 1 ≤ i < 2 → fs1 !! part_path "dst" i = None)
    ∧ (∀ path, (∀ i, 0 ≤ i < 2 → path ≠ part_path "dst" i) →
         fs1 !! path
         = ({[ "dst.0"%string := [x01; x02]; "dst.1"%string := [x03; x04];
               "dst.3"%string := [x07]; "dst"%string := [x09] ]} : FS)
             !! path).
Proof.
  apply (merge_stops_at_missing_slice unlimited "dst" 4 2
           (λ i, if i =? 0 then [x01; x02] else [x03; x04])).
  - lia.
  - intros i Hi.
    assert (i = 0 ∨ i = 1) as [-> | ->] by lia; vm_compute; reflexivity.
  - vm_compute. reflexivity.
Defined.

(** ** More on the whole program *)

(** X17: what a copy leaves behind, for a source of at most 2^53 bytes
    in at most 2^53 parts.  The source and the destination are plain
    names of the working directory, the source is none of the files
    written, the partition files can be created and the workers started:
    then [main] returns normally; no partition file is left, those that
    were there before the copy included; and apart from the destination
    no other file has changed. *)
Theorem main_changes_only_destination (host : Host) (sch : Schedule)
    (source_file destination_file : string) (N : Z) (src : list byte)
    (fs : FS) :
  1 ≤ N ≤ 2 ^ 53 → Z.of_nat (length src) ≤ 2 ^ 53 →
  plain_name source_file → plain_name destination_file →
  source_file ≠ destination_file
  ∧ (∀ i, source_file ≠ part_path destination_file i) →
  (∀ i, 0 ≤ i < N →
     can_start host i = true
     ∧ can_create host (part_path destination_file i) = true) →
  (Z.to_nat (Z.of_nat (length src) / default_block_size) + 1 ≤ fuel sch)%nat →
  fs !! source_file = Some src →
  ∃ fs1,
    main host sch source_file destination_file N fs = Some (fs1, Returned tt)
    ∧ (∀ i, 0 ≤ i < N → fs1 !! part_path destination_file i = None)
    ∧ (∀ path, path ≠ destination_file →
         (∀ i, 0 ≤ i < N → path ≠ part_path destination_file i) →
         fs1 !! path = fs !! path).
Proof.
  intros HN Hf _ _ Hapart Hhost Hfuel Hsrc.
  destruct (double_size_plan sch N src HN Hf Hfuel)
    as (Hplan & H0 & Hord & Hfuel').
  destruct (main_up_to_merge host sch source_file destination_file N src _
              Hapart (λ i Hi, proj2 (Hhost i Hi))
              (λ i Hi, proj1 (Hhost i Hi)) Hplan H0 Hord Hfuel' fs Hsrc)
    as (fs1 & -> & _ & Hheld & Hframe1).
  unfold merge_files, open_append.
  set (f := Z.of_nat (length src)) in *.
  set (held := λ i, slice src (boundary N f i) (boundary N f (i + 1))) in *.
  assert (Hs0 : fs1 !! (destination_file +:+ ".0") = Some (held 0)).
  { rewrite <- part_path_0. apply Hheld. lia. }
  assert (Hnz : Forall (λ j, j ≠ 0) (range 1 N)).
  { apply Forall_forall. intros j Hj. apply elem_of_seqZ in Hj. lia. }
  rewrite Hs0. cbn beta iota.
  destruct (append_slices_returns destination_file held (range 1 N) fs1
              (held 0) (NoDup_seqZ _ _) Hnz Hs0)
    as (fs2 & Hrun & Hacc & Hframe2).
  { intros i Hi. apply Hheld. apply elem_of_seqZ in Hi. lia. }
  rewrite Hrun. unfold rename. rewrite Hacc.
  eexists. split; [done|]. split.
  - intros i Hi.
    rewrite lookup_insert_ne by (apply not_eq_sym, part_path_not_dest).
    destruct (decide (i = 0)) as [->|Hi0].
    + rewrite part_path_0. apply lookup_delete_eq.
    + rewrite lookup_delete_ne
        by (rewrite <- part_path_0; intros E; by apply part_path_inj in E).
      apply (append_slices_removes destination_file (range 1 N) fs1 fs2 Hnz
               Hrun).
      apply elem_of_seqZ. lia.
  - intros path Hpd Hp.
    rewrite lookup_insert_ne by done.
    rewrite lookup_delete_ne
      by (rewrite <- part_path_0; apply not_eq_sym, Hp; lia).
    rewrite Hframe2.
    + by apply Hframe1.
    + rewrite <- part_path_0. apply Hp. lia.
    + intros i Hi. apply Hp. apply elem_of_seqZ in Hi. lia.
Qed.

Lemma main_changes_only_destination_witness :
  ∃ fs1,
    main unlimited (mkSchedule 1 (λ _, quiet)) "src" "dst" 3
      {[ "src"%string := [x01; x02; x03; x04; x05; x06; x07];
         "dst.1"%string := [x09]; "other"%string := [x08] ]}
    = Some (fs1, Returned tt)
    ∧ (∀ i, 0 ≤ i < 3 → fs1 !! part_path "dst" i = None)
    ∧ (∀ path, path ≠ "dst"%string →
         (∀ i, 0 ≤ i < 3 → path ≠ part_path "dst" i) →
         fs1 !! path
         = ({[ "src"%string := [x01; x02; x03; x04; x05; x06; x07];
               "dst.1"%string := [x09]; "other"%string := [x08] ]} : FS)
             !! path).
Proof.
  apply (main_changes_only_destination unlimited (mkSchedule 1 (λ _, quiet))
           "src" "dst" 3 [x01; x02; x03; x04; x05; x06; x07]).
  - split; [lia|]. by apply Z.lt_le_incl.
  - by apply Z.lt_le_incl.
  - exact (proj1 plain_src_dst).
  - exact (proj2 plain_src_dst).
  - exact source_apart_src_dst.
  - intros i Hi. split; reflexivity.
  - simpl. lia.
  - vm_compute. reflexivity.
Defined.

(** X21: the order in which the workers run does not matter.  For a
    source of at most 2^53 bytes in at most 2^53 parts, the source and
    the destination plain names, the source none of the files written
    and the partition files creatable: the workers of all the parts, run
    to their end one after the other in any order, leave the same files
    as when they are run in the order of their numbers, every partition
    file holding its slice of the source. *)
Theorem workers_in_any_order (host : Host) (sch : Schedule)
    (source_file destination_file : string) (N : Z) (src : list byte)
    (fs : FS) (procs : list Z) :
  1 ≤ N ≤ 2 ^ 53 → Z.of_nat (length src) ≤ 2 ^ 53 →
  plain_name source_file → plain_name destination_file →
  source_file ≠ destination_file
  ∧ (∀ i, source_file ≠ part_path destination_file i) →
  (∀ i, 0 ≤ i < N → can_create host (part_path destination_file i) = true) →
  (Z.to_nat (Z.of_nat (length src) / default_block_size) + 1 ≤ fuel sch)%nat →
  fs !! source_file = Some src →
  procs ≡ₚ range 0 N →
  ∃ fs1,
    run_workers host sch
      ((λ i, mkJob source_file destination_file (Z.of_nat (length src)) i N)
         <$> procs) fs = Some fs1
    ∧ run_workers host sch
        ((λ i, mkJob source_file destination_file (Z.of_nat (length src)) i N)
           <$> range 0 N) fs = Some fs1
    ∧ (∀ i, 0 ≤ i < N →
         fs1 !! part_path destination_file i
         = Some (slice src (boundary N (Z.of_nat (length src)) i)
                   (boundary N (Z.of_nat (length src)) (i + 1)))).
Proof.
  intros HN Hf _ _ Hapart Hcreate Hfuel Hsrc Hperm.
  destruct (double_size_plan sch N src HN Hf Hfuel)
    as (Hplan & H0 & Hord & Hfuel').
  assert (Hin : ∀ i, i ∈ procs ↔ 0 ≤ i < N).
  { intros i. rewrite Hperm. unfold range. rewrite elem_of_seqZ. lia. }
  assert (Hall : ∀ l, (∀ i, i ∈ l ↔ 0 ≤ i < N) → Forall (λ i, 0 ≤ i < N) l).
  { intros l Hl. apply Forall_forall. intros i Hi. by apply Hl. }
  assert (Hin' : ∀ i, i ∈ range 0 N ↔ 0 ≤ i < N).
  { intros i. unfold range. rewrite elem_of_seqZ. lia. }
  destruct (run_workers_planned host sch source_file destination_file N src
              _ Hapart Hcreate Hplan H0 Hord Hfuel' procs fs
              (Hall _ Hin) Hsrc) as (fs1 & Hrun1 & _ & Hheld1 & Hframe1).
  destruct (run_workers_planned host sch source_file destination_file N src
              _ Hapart Hcreate Hplan H0 Hord Hfuel' (range 0 N) fs
              (Hall _ Hin') Hsrc) as (fs2 & Hrun2 & _ & Hheld2 & Hframe2).
  assert (fs2 = fs1) as ->.
  { apply map_eq. intros path.
    destruct (decide (Exists (λ i, path = part_path destination_file i)
                        procs)) as [Hex|Hnex].
    - apply Exists_exists in Hex as (i & Hi & ->).
      rewrite Hheld1 by done. apply Hheld2. apply Hin', Hin, Hi.
    - assert (Hne : ∀ i, i ∈ procs → path ≠ part_path destination_file i).
      { intros i Hi E. apply Hnex, Exists_exists. eauto. }
      rewrite Hframe1 by done. apply Hframe2.
      intros i Hi. apply Hne. apply Hin, Hin', Hi. }
  exists fs1. split; [done|]. split; [done|].
  intros i Hi. apply Hheld1. by apply Hin.
Qed.

Lemma workers_in_any_order_witness :
  ∃ fs1,
    run_workers unlimited (mkSchedule 1 (λ _, quiet))
      ((λ i, mkJob "src" "dst"
               (Z.of_nat (length [x01; x02; x03; x04; x05; x06; x07])) i 3)
         <$> [2; 0; 1])
      {[ "src"%string := [x01; x02; x03; x04; x05; x06; x07] ]} = Some fs1
    ∧ run_workers unlimited (mkSchedule 1 (λ _, quiet))
        ((λ i, mkJob "src" "dst"
                 (Z.of_nat (length [x01; x02; x03; x04; x05; x06; x07])) i 3)
           <$> range 0 3)
        {[ "src"%string := [x01; x02; x03; x04; x05; x06; x07] ]} = Some fs1
    ∧ (∀ i, 0 ≤ i < 3 →
         fs1 !! part_path "dst" i
         = Some (slice [x01; x02; x03; x04; x05; x06; x07]
                   (boundary 3 (Z.of_nat (length [x01; x02; x03; x04; x05;
                                                  x06; x07])) i)
                   (boundary 3 (Z.of_nat (length [x01; x02; x03; x04; x05;
                                                  x06; x07])) (i + 1)))).
Proof.
  apply (workers_in_any_order unlimited (mkSchedule 1 (λ _, quiet)) "src"
           "dst" 3 [x01; x02; x03; x04; x05; x06; x07]).
  - split; [lia|]. by apply Z.lt_le_incl.
  - by apply Z.lt_le_incl.
  - exact (proj1 plain_src_dst).
  - exact (proj2 plain_src_dst).
  - exact source_apart_src_dst.
  - intros i Hi. reflexivity.
  - simpl. lia.
  - reflexivity.
  - change (range 0 3) with [0; 1; 2].
    etransitivity; [apply Permutation_cons_append|]. simpl.
    apply Permutation_refl.
Defined.

(** The workers that [spawn_children] starts are given the source and
    the destination of the program. *)
Lemma spawn_children_from_jobs (host : Host) (procs : list Z)
    (source_file destination_file : string) (parts source_size : Z)
    (started : list Job) (children : list Child) :
  Forall (λ j, job_from j = source_file ∧ job_to j = destination_file)
    started →
  Forall (λ j, job_from j = source_file ∧ job_to j = destination_file)
    (fst (spawn_children_from host procs source_file destination_file parts
            source_size started children)).
Proof.
  revert started children.
  induction procs as [|i rest IH]; intros started children Hall; simpl;
    [done|].
  destruct (can_start host i); [|done].
  assert (Forall (λ j, job_from j = source_file
                       ∧ job_to j = destination_file)
            (started
             ++ [mkJob source_file destination_file source_size i parts])).
  { apply Forall_app. split; [done|]. by apply Forall_singleton. }
  destruct (get_copy_offsets i parts source_size) as [[[? ?] read_len]|];
    [by apply IH|done].
Qed.

(** X20: a destination where no file can be created, in a directory
    that is missing, say.  Every worker that is started dies when it
    opens its partition file, which the coordinator does not see; the
    merge then fails when it opens slice 0.  [main] raises, whatever the
    part count, and no file has been created or changed. *)
Theorem main_fails_where_nothing_is_created (host : Host) (sch : Schedule)
    (source_file destination_file : string) (parts : Z) (src : list byte)
    (fs : FS) :
  fs !! source_file = Some src →
  (∀ i, fs !! part_path destination_file i = None
        ∧ can_create host (part_path destination_file i) = false) →
  main host sch source_file destination_file parts fs = Some (fs, Raised).
Proof.
  intros Hsrc Hnone. unfold main. rewrite Hsrc.
  pose proof (spawn_children_from_jobs host (range 0 parts) source_file
                destination_file parts (Z.of_nat (length src)) [] []
                ltac:(constructor)) as Hjobs.
  unfold spawn_children.
  destruct (spawn_children_from host (range 0 parts) source_file
              destination_file parts (Z.of_nat (length src)) [] [])
    as [jobs r].
  simpl in Hjobs.
  assert (Hrun : run_workers host sch jobs fs = Some fs).
  { induction Hjobs as [|j jobs [Hfrom Hto] Hjobs IH]; [done|].
    simpl. unfold partial_copy. rewrite Hfrom, Hto, Hsrc.
    unfold open_write.
    destruct (Hnone (job_num j)) as [-> ->]. simpl. exact IH. }
  rewrite Hrun. simpl.
  destruct r as [children|children|]; [|done|done].
  unfold merge_files, open_append. rewrite <- part_path_0.
  by destruct (Hnone 0) as [-> ->].
Qed.

Lemma main_fails_where_nothing_is_created_witness :
  main (mkHost (λ _, false) (λ _, true)) (mkSchedule 1 (λ _, quiet))
    "src" "nodir/dst" 3
    {[ "src"%string := [x01; x02; x03; x04; x05; x06; x07] ]}
  = Some ({[ "src"%string := [x01; x02; x03; x04; x05; x06; x07] ]}, Raised).
Proof.
  apply (main_fails_where_nothing_is_created
           (mkHost (λ _, false) (λ _, true)) (mkSchedule 1 (λ _, quiet))
           "src" "nodir/dst" 3 [x01; x02; x03; x04; x05; x06; x07]).
  - reflexivity.
  - intros i. split; [|reflexivity].
    apply lookup_singleton_ne. unfold part_path. simpl. discriminate.
Defined.

(** ** More on the coordinator's sum *)

Lemma step_update_eq (block_size read_len : Z) (s : Channel) (p1 : Pipe)
    (c1 : Child) :
  update (is_alive (proc s)) (pipe s) (child s) = Some (p1, c1) →
  step block_size read_len Update s = Some (mkChannel (proc s) p1 c1).
Proof.
  destruct s as [[w|normal] p c]; cbn [proc pipe child is_alive];
    intros H; unfold step; cbn [proc pipe child is_alive]; by rewrite H.
Qed.

(** The state of a worker's channel at some point of some run, as the
    coordinator's loop sees it. *)
Lemma reachable_view (block_size read_len : Z) (src : list byte)
    (start_pos : Z) (es : list event) (s : Channel) :
  0 < block_size → 0 ≤ read_len →
  run block_size read_len es (spawn src start_pos read_len) = Some s →
  bytes_to_copy (child s) = read_len
  ∧ ∃ pr, is_alive pr = is_alive (proc s)
          ∧ chan_inv (bytes_to_copy (child s))
              (mkChannel pr (pipe s) (child s)).
Proof.
  intros Hbs Hlen Hrun.
  destruct (run_inv block_size read_len Hbs Hlen es _ s
              (spawn_inv read_len Hlen src start_pos) Hrun) as [Hinv _].
  pose proof Hinv as (Hto & _). split; [done|].
  exists (proc s). split; [done|]. rewrite Hto. by destruct s.
Qed.

Lemma tick_nonneg (block_size : Z) (chans : list (bool * Pipe * Child))
    (acc : Z) (done : list (Pipe * Child)) (total : Z) :
  0 < block_size →
  Forall (λ '(alive, p, c),
            ∃ proc, is_alive proc = alive
                    ∧ chan_inv (bytes_to_copy c) (mkChannel proc p c)) chans →
  tick chans acc = Some (done, total) →
  acc ≤ total.
Proof.
  intros Hbs. revert acc done total.
  induction chans as [|[[alive p] c] rest IH]; intros acc done total Hall;
    simpl.
  - intros [= <- <-]. lia.
  - apply Forall_cons in Hall as [(proc & Hal & Hinv) Hall].
    assert (Hnn : 0 ≤ bytes_to_copy c).
    { destruct Hinv as (_ & Hc & _). simpl in Hc. lia. }
    destruct (update alive p c) as [[p1 c1]|] eqn:Eu; [|done]. simpl.
    destruct (tick rest (acc + bytes_copied c1)) as [[done' total']|] eqn:E;
      [|done].
    simpl. intros [= <- <-]. apply IH in E; [|done].
    destruct (step_inv block_size (bytes_to_copy c) Hbs Hnn Update
                (mkChannel proc p c) (mkChannel proc p1 c1) Hinv)
      as [(_ & Hc & _) _].
    { simpl. rewrite Hal, Eu. by destruct proc. }
    cbn [child bytes_copied] in Hc. lia.
Qed.

(** X18: the sum that a pass of the progress loop hands to the progress
    bar, for a source of at most 2^53 bytes in at most 2^53 parts, each
    worker and its handle being at any point of any interleaving when
    the handle is updated: the sum lies between 0 and the size of the
    source. *)
Theorem progress_sum_in_every_run (N : Z) (src : list byte)
    (ss : list Channel) (done : list (Pipe * Child)) (total : Z) :
  1 ≤ N ≤ 2 ^ 53 → Z.of_nat (length src) ≤ 2 ^ 53 →
  Forall2 (λ i s,
             ∃ es,
               run default_block_size
                 (boundary N (Z.of_nat (length src)) (i + 1)
                  - boundary N (Z.of_nat (length src)) i) es
                 (spawn src (boundary N (Z.of_nat (length src)) i)
                    (boundary N (Z.of_nat (length src)) (i + 1)
                     - boundary N (Z.of_nat (length src)) i))
               = Some s) (range 0 N) ss →
  tick ((λ s, (is_alive (proc s), pipe s, child s)) <$> ss) 0
  = Some (done, total) →
  0 ≤ total ≤ Z.of_nat (length src).
Proof.
  intros HN Hf Hall Htick.
  set (f := Z.of_nat (length src)) in *.
  assert (Hf' : 0 ≤ f ≤ 2 ^ 53) by (unfold f; lia).
  assert (Hlens : ∀ i, i ∈ range 0 N →
            0 ≤ boundary N f (i + 1) - boundary N f i).
  { intros i Hi. apply elem_of_seqZ in Hi.
    pose proof (boundary_in_order N f i HN Hf' ltac:(lia)). lia. }
  assert (Hviews :
    (λ '(_, _, c), bytes_to_copy c)
      <$> ((λ s, (is_alive (proc s), pipe s, child s)) <$> ss)
    = (λ i, boundary N f (i + 1) - boundary N f i) <$> range 0 N
    ∧ Forall (λ '(alive, p, c),
                ∃ proc, is_alive proc = alive
                        ∧ chan_inv (bytes_to_copy c) (mkChannel proc p c))
        ((λ s, (is_alive (proc s), pipe s, child s)) <$> ss)).
  { clear Htick. revert Hlens.
    induction Hall as [|i s l ss' [es Hrun] Hall IH]; intros Hlens.
    - split; [done|constructor].
    - destruct IH as [IH1 IH2].
      { intros j Hj. apply Hlens. by right. }
      destruct (reachable_view default_block_size _ src _ es s eq_refl
                  (Hlens i ltac:(left)) Hrun) as [Hto Hpr].
      split.
      + rewrite !fmap_cons. f_equal; [exact Hto|exact IH1].
      + rewrite fmap_cons. by constructor. }
  destruct Hviews as [Hlen Hinv]. split.
  - by apply (tick_nonneg default_block_size _ 0 done total eq_refl Hinv).
  - by apply (progress_within_double_size N f _ done total HN Hf' Hlen Hinv).
Qed.

Lemma progress_sum_in_every_run_witness :
  tick [(false, mkPipe [] [0], mkChild 0 3);
        (true, mkPipe [] [0], mkChild 0 4)] 0
  = Some ([(mkPipe [] [0], mkChild 3 3);
           (mkPipe [""%string] [], mkChild 0 4)], 3)
  ∧ 0 ≤ 3 ≤ Z.of_nat (length [x01; x02; x03; x04; x05; x06; x07]).
Proof.
  split; [reflexivity|].
  apply (progress_sum_in_every_run 2 [x01; x02; x03; x04; x05; x06; x07]
           [mkChannel (Exited true) (mkPipe [] [0]) (mkChild 0 3);
            mkChannel
              (Running (mkWorker 4
                          (mkInFile [x01; x02; x03; x04; x05; x06; x07] 7)
                          [[x04; x05; x06; x07]]))
              (mkPipe [] [0]) (mkChild 0 4)]
           [(mkPipe [] [0], mkChild 3 3);
            (mkPipe [""%string] [], mkChild 0 4)] 3).
  - split; [lia|]. by apply Z.lt_le_incl.
  - by apply Z.lt_le_incl.
  - constructor; [|constructor; [|constructor]].
    + exists [Update; Iterate; Exit]. vm_compute. reflexivity.
    + exists [Update; Iterate]. vm_compute. reflexivity.
  - reflexivity.
Defined.

(** X19: the progress shown does not go back.  Between one pass of the
    progress loop and the next, every channel goes from its state at the
    update of the first pass, through that update and any events of the
    worker, to its state at the update of the second pass: the sum of the
    second pass is at least the sum of the first. *)
Theorem progress_sum_never_decreases (block_size : Z)
    (ss1 ss2 : list Channel) (done1 done2 : list (Pipe * Child))
    (total1 total2 : Z) :
  0 < block_size →
  Forall2 (λ s1 s2,
             ∃ (src : list byte) (start_pos read_len : Z)
               (es0 es : list event),
               0 ≤ read_len
               ∧ run block_size read_len es0 (spawn src start_pos read_len)
                 = Some s1
               ∧ run block_size read_len (Update :: es) s1 = Some s2)
    ss1 ss2 →
  tick ((λ s, (is_alive (proc s), pipe s, child s)) <$> ss1) 0
  = Some (done1, total1) →
  tick ((λ s, (is_alive (proc s), pipe s, child s)) <$> ss2) 0
  = Some (done2, total2) →
  total1 ≤ total2.
Proof.
  intros Hbs Hall.
  assert (Hgen : ∀ acc1 acc2, acc1 ≤ acc2 →
            tick ((λ s, (is_alive (proc s), pipe s, child s)) <$> ss1) acc1
            = Some (done1, total1) →
            tick ((λ s, (is_alive (proc s), pipe s, child s)) <$> ss2) acc2
            = Some (done2, total2) →
            total1 ≤ total2).
  { revert done1 done2.
    induction Hall
      as [|s1 s2 l1 l2 (src & start_pos & read_len & es0 & es & Hlen & Hrun0
                        & Hrun) Hall IH];
      intros done1 done2 acc1 acc2 Hacc; simpl.
    - intros [= <- <-] [= <- <-]. done.
    - destruct (update (is_alive (proc s1)) (pipe s1) (child s1))
        as [[p1 c1]|] eqn:E1; [|done]. simpl.
      destruct (tick _ (acc1 + bytes_copied c1)) as [[d1 t1]|] eqn:T1;
        [|done].
      simpl. intros [= <- <-].
      destruct (update (is_alive (proc s2)) (pipe s2) (child s2))
        as [[p2 c2]|] eqn:E2; [|done]. simpl.
      destruct (tick _ (acc2 + bytes_copied c2)) as [[d2 t2]|] eqn:T2;
        [|done].
      simpl. intros [= <- <-].
      apply (IH d1 d2 (acc1 + bytes_copied c1) (acc2 + bytes_copied c2));
        [|done|done].
      destruct (run_inv block_size read_len Hbs Hlen es0 _ s1
                  (spawn_inv read_len Hlen src start_pos) Hrun0)
        as [Hinv1 _].
      cbn [run] in Hrun.
      rewrite (step_update_eq block_size read_len s1 p1 c1 E1) in Hrun.
      change (run block_size read_len es (mkChannel (proc s1) p1 c1)
              = Some s2) in Hrun.
      destruct (step_inv block_size read_len Hbs Hlen Update s1 _ Hinv1
                  (step_update_eq block_size read_len s1 p1 c1 E1))
        as [Hinv1' _].
      destruct (run_inv block_size read_len Hbs Hlen es _ s2 Hinv1' Hrun)
        as [Hinv2 Hle].
      destruct (step_inv block_size read_len Hbs Hlen Update s2 _ Hinv2
                  (step_update_eq block_size read_len s2 p2 c2 E2))
        as [_ Hle2].
      cbn [child bytes_copied] in Hle, Hle2. lia. }
  apply Hgen. lia.
Qed.

Lemma progress_sum_never_decreases_witness :
  tick [(true, mkPipe [] [], mkChild 0 3)] 0
  = Some ([(mkPipe [""%string] [], mkChild 0 3)], 0)
  ∧ tick [(false, mkPipe [] [0], mkChild 0 3)] 0
    = Some ([(mkPipe [] [0], mkChild 3 3)], 3)
  ∧ 0 ≤ 3.
Proof.
  split; [reflexivity|]. split; [reflexivity|].
  apply (progress_sum_never_decreases 1
           [spawn [x01; x02; x03; x04; x05; x06; x07] 4 3]
           [mkChannel (Exited true) (mkPipe [] [0]) (mkChild 0 3)]
           [(mkPipe [""%string] [], mkChild 0 3)]
           [(mkPipe [] [0], mkChild 3 3)] 0 3).
  - lia.
  - constructor; [|constructor].
    exists [x01; x02; x03; x04; x05; x06; x07], 4, 3, [],
      [Iterate; Iterate; Iterate; Exit].
    split; [lia|]. split; reflexivity.
  - reflexivity.
  - reflexivity.
Defined.
